(** * Crossword CSP solver (generate.py): a shallow embedding and its properties

    The development follows [CrosswordCreator] of
    [Problem set 3 - Optimisation/crossword/generate.py]: node consistency,
    [revise], [ac3], the two search heuristics, [consistent], [backtrack]
    and [solve].

    Python values are modelled as follows.
    - a [str] is a [string]; [w[k]] is [String.get], which faults with
      [IndexError] out of range;
    - a [dict] is an association list in insertion order (the order in which
      Python iterates it);
    - a [set] of words is a duplicate-free list in its iteration order;
    - [self.domains] is threaded through every method by a state-and-error
      monad [M]; a Python exception is the outcome [Raise]. *)

From Stdlib Require Import List String Ascii Arith Bool ZArith Lia.
From Stdlib Require Import Permutation Sorted.
Import ListNotations.

(* ------------------------------------------------------------------ *)
(** * Outcomes of a Python computation *)

Inductive pyerr : Type := KeyError | IndexError | TypeError | ValueError.

Inductive outcome (A : Type) : Type :=
| Ok (a : A)
| Raise (e : pyerr)
| OutOfFuel.

Arguments Ok {A} a.
Arguments Raise {A} e.
Arguments OutOfFuel {A}.

Definition obind {A B} (m : outcome A) (k : A -> outcome B) : outcome B :=
  match m with
  | Ok a => k a
  | Raise e => Raise e
  | OutOfFuel => OutOfFuel
  end.

Declare Scope out_scope.
Delimit Scope out_scope with out.
Notation "x <~ m ;; k" := (obind m (fun x => k))
  (at level 61, m at next level, right associativity) : out_scope.
Open Scope out_scope.

(* ------------------------------------------------------------------ *)
(** * Python dictionaries as association lists in insertion order *)

Section Dict.
Context {K V : Type}.
Variable eqb : K -> K -> bool.

Definition dict := list (K * V).

(** [d.get(k)]: the value at [k], if any. *)
Fixpoint dict_get (d : dict) (k : K) : option V :=
  match d with
  | [] => None
  | (k', v) :: d' => if eqb k' k then Some v else dict_get d' k
  end.

(** [k in d] *)
Definition dict_mem (d : dict) (k : K) : bool :=
  match dict_get d k with Some _ => true | None => false end.

(** [d[k]], which faults on a missing key. *)
Definition dict_item (d : dict) (k : K) : outcome V :=
  match dict_get d k with Some v => Ok v | None => Raise KeyError end.

(** [d[k] = v]: overwrite in place, or append a new entry. *)
Fixpoint dict_set (d : dict) (k : K) (v : V) : dict :=
  match d with
  | [] => [(k, v)]
  | (k', v') :: d' =>
      if eqb k' k then (k', v) :: d' else (k', v') :: dict_set d' k v
  end.

(** The dictionary without its entry for [k]. *)
Fixpoint dict_remove (d : dict) (k : K) : dict :=
  match d with
  | [] => []
  | (k', v') :: d' => if eqb k' k then d' else (k', v') :: dict_remove d' k
  end.

(** [d.pop(k)], which faults on a missing key. *)
Definition dict_pop (d : dict) (k : K) : outcome dict :=
  if dict_mem d k then Ok (dict_remove d k) else Raise KeyError.

Definition dict_keys (d : dict) : list K := map fst d.
End Dict.

(** [min(d, key=d.get)] and [max(d, key=d.get)] on a dictionary of
    counters: the first key, in iteration order, whose value is least
    (greatest); [ValueError] on an empty dictionary. *)
Section MinMax.
Context {K : Type}.

Fixpoint first_min (best : K) (bv : nat) (d : list (K * nat)) : K :=
  match d with
  | [] => best
  | (k, v) :: d' => if v <? bv then first_min k v d' else first_min best bv d'
  end.

Fixpoint first_max (best : K) (bv : nat) (d : list (K * nat)) : K :=
  match d with
  | [] => best
  | (k, v) :: d' => if bv <? v then first_max k v d' else first_max best bv d'
  end.

Definition py_min (d : list (K * nat)) : outcome K :=
  match d with
  | [] => Raise ValueError
  | (k, v) :: d' => Ok (first_min k v d')
  end.

Definition py_max (d : list (K * nat)) : outcome K :=
  match d with
  | [] => Raise ValueError
  | (k, v) :: d' => Ok (first_max k v d')
  end.
End MinMax.

(* ------------------------------------------------------------------ *)
(** * Words *)

Abbreviation word := string (only parsing).

(** [w[k]] for a non-negative [k]. *)
Definition char_at (w : word) (k : nat) : outcome ascii :=
  match String.get k w with
  | Some c => Ok c
  | None => Raise IndexError
  end.

(** [s.remove(w)] on a set held as a list. *)
Fixpoint set_remove (w : word) (s : list word) : list word :=
  match s with
  | [] => []
  | w' :: s' => if String.eqb w' w then set_remove w s' else w' :: set_remove w s'
  end.

Definition set_mem (w : word) (s : list word) : bool :=
  existsb (String.eqb w) s.

(* ------------------------------------------------------------------ *)
(** * The puzzle: variables, overlaps, neighbours *)

Inductive Direction : Type := ACROSS | DOWN.

(** [Variable] of crossword.py ([Variable] is reserved in Rocq). *)
Record Var : Type := mkVar {
  var_i : nat;
  var_j : nat;
  var_direction : Direction;
  var_length : nat
}.

Definition dir_eqb (a b : Direction) : bool :=
  match a, b with
  | ACROSS, ACROSS | DOWN, DOWN => true
  | _, _ => false
  end.

(** [Variable.__eq__]: all four fields agree. *)
Definition var_eqb (x y : Var) : bool :=
  (var_i x =? var_i y) && (var_j x =? var_j y)
  && dir_eqb (var_direction x) (var_direction y)
  && (var_length x =? var_length y).

Definition arc := (Var * Var)%type.

(** Modelled from the spec: the [Crossword] class of [crossword.py], which
    generate.py imports, is not part of the sources.  Its interface is kept
    as the spec describes it: the fixed variables, the word list, the overlap
    table ("pairs with no shared cell have no entry") and the neighbour
    relation.  [variables] and [neighbors] are Python sets; the lists fix
    the order in which a run iterates them. *)
Record Crossword : Type := mkCrossword {
  variables : list Var;
  words : list word;
  overlap_table : list (arc * (nat * nat));
  neighbors : Var -> list Var
}.

Definition arc_eqb (a b : arc) : bool :=
  var_eqb (fst a) (fst b) && var_eqb (snd a) (snd b).

(** [crossword.overlaps[x, y]]: [None] when the pair has no entry. *)
Definition overlaps (cw : Crossword) (x y : Var) : option (nat * nat) :=
  dict_get arc_eqb (overlap_table cw) (x, y).

(* ------------------------------------------------------------------ *)
(** * The domain store and the monad of the solver's methods *)

Definition domains := @dict Var (list word).

Definition M (A : Type) : Type := domains -> outcome (A * domains).

Definition ret {A} (a : A) : M A := fun d => Ok (a, d).

Definition bind {A B} (m : M A) (k : A -> M B) : M B :=
  fun d =>
    match m d with
    | Ok (a, d') => k a d'
    | Raise e => Raise e
    | OutOfFuel => OutOfFuel
    end.

Definition lift {A} (o : outcome A) : M A :=
  fun d => match o with
           | Ok a => Ok (a, d)
           | Raise e => Raise e
           | OutOfFuel => OutOfFuel
           end.

Declare Scope py_scope.
Delimit Scope py_scope with py.
Notation "x <- m ;; k" := (bind m (fun x => k))
  (at level 61, m at next level, right associativity) : py_scope.
Notation "m ;;; k" := (bind m (fun _ => k))
  (at level 61, right associativity) : py_scope.
Open Scope py_scope.

(** [for var in self.domains] *)
Definition domain_keys : M (list Var) :=
  fun d => Ok (dict_keys d, d).

(** [len(self.domains)] *)
Definition domain_count : M nat :=
  fun d => Ok (List.length d, d).

(** [self.domains[x]] *)
Definition domain_of (x : Var) : M (list word) :=
  fun d => match dict_get var_eqb d x with
           | Some ws => Ok (ws, d)
           | None => Raise KeyError
           end.

(** [self.domains[x].remove(w)] *)
Definition domain_remove (x : Var) (w : word) : M unit :=
  fun d => match dict_get var_eqb d x with
           | None => Raise KeyError
           | Some ws =>
               if set_mem w ws
               then Ok (tt, dict_set var_eqb d x (set_remove w ws))
               else Raise KeyError
           end.

(** A [for] loop run for its effect, and one that carries local state. *)
Fixpoint for_each {A} (l : list A) (body : A -> M unit) : M unit :=
  match l with
  | [] => ret tt
  | a :: l' => body a ;;; for_each l' body
  end.

Fixpoint for_fold {A S} (l : list A) (s : S) (body : S -> A -> M S) : M S :=
  match l with
  | [] => ret s
  | a :: l' => s' <- body s a ;; for_fold l' s' body
  end.

Fixpoint ofold {A S} (l : list A) (s : S) (body : S -> A -> outcome S)
  : outcome S :=
  match l with
  | [] => Ok s
  | a :: l' => s' <~ body s a ;; ofold l' s' body
  end.

(* ------------------------------------------------------------------ *)
(** * CrosswordCreator *)

Section Creator.
Variable cw : Crossword.

(** [__init__]: every variable starts with a copy of the word list. *)
Definition init_domains : domains :=
  map (fun v => (v, words cw)) (variables cw).

(** ** enforce_node_consistency *)
Definition enforce_node_consistency : M unit :=
  vars <- domain_keys ;;
  for_each vars (fun var =>
    ws <- domain_of var ;;
    let remove_word :=
      filter (fun w => negb (String.length w =? var_length var)) ws in
    for_each remove_word (fun w => domain_remove var w)).

(** ** revise *)

(** The inner loop over [self.domains[y]]: it never breaks, so every
    [y_word] is indexed. *)
Definition revise_inner (ox oy : nat) (x_word : word) (ys : list word)
  : outcome bool :=
  ofold ys false (fun arc_consistent y_word =>
    cx <~ char_at x_word ox ;;
    cy <~ char_at y_word oy ;;
    Ok (if Ascii.eqb cx cy then true else arc_consistent)).

Definition revise (x y : Var) : M bool :=
  match overlaps cw x y with
  | None => ret false
  | Some (ox, oy) =>
      xs <- domain_of x ;;
      st <- for_fold xs (false, []) (fun st x_word =>
              ys <- domain_of y ;;
              arc_consistent <- lift (revise_inner ox oy x_word ys) ;;
              ret (if arc_consistent then st
                   else (true, snd st ++ [x_word]))) ;;
      for_each (snd st) (fun w => domain_remove x w) ;;;
      ret (fst st)
  end.

(** ** ac3 *)

(** The initial worklist when [arcs] is [None]. *)
Definition all_arcs : M (list arc) :=
  vars <- domain_keys ;;
  ret (flat_map (fun x => map (fun var => (x, var)) (neighbors cw x)) vars).

(** [arc_list.insert(0, (x, var))] for every neighbour [var] of [x] other
    than [y], in the order the neighbours are iterated. *)
Definition requeue (x y : Var) (arc_list : list arc) : list arc :=
  fold_left (fun al var =>
               if negb (var_eqb var y) then (x, var) :: al else al)
            (neighbors cw x) arc_list.

(** One turn of the [while] loop on the popped arc: [None] stands for
    [return False], [Some al] for the worklist the next turn sees. *)
Definition ac3_step (current_arc : arc) (arc_list : list arc)
  : M (option (list arc)) :=
  changed <- revise (fst current_arc) (snd current_arc) ;;
  if changed then
    xs <- domain_of (fst current_arc) ;;
    if List.length xs =? 0 then ret None
    else ret (Some (requeue (fst current_arc) (snd current_arc) arc_list))
  else ret (Some arc_list).

Fixpoint ac3_loop (fuel : nat) (arc_list : list arc) : M bool :=
  match arc_list with
  | [] => ret true
  | current_arc :: rest =>
      match fuel with
      | 0 => fun _ => OutOfFuel
      | S fuel' =>
          r <- ac3_step current_arc rest ;;
          match r with
          | None => ret false
          | Some al => ac3_loop fuel' al
          end
      end
  end.

(** A bound on the number of turns of the loop: every turn either pops an
    arc for good or removes a word and adds at most [degree] arcs. *)
Definition total_size (d : domains) : nat :=
  fold_right (fun e n => List.length (snd e) + n) 0 d.

Definition max_degree (d : domains) : nat :=
list_max (map (fun x => List.length (neighbors cw x)) (dict_keys d)).

Definition ac3_budget (arc_list : list arc) (d : domains) : nat :=
  List.length arc_list + S (max_degree d) * total_size d.

Definition ac3 (arcs : option (list arc)) : M bool :=
  arc_list <- match arcs with
              | None => all_arcs
              | Some a => ret a
              end ;;
  fun d => ac3_loop (ac3_budget arc_list d) arc_list d.

(** ** assignment_complete *)
Definition assignment := @dict Var word.

Definition assignment_complete (a : assignment) : M bool :=
  n <- domain_count ;;
  ret (List.length a =? n).

(** ** consistent *)
Fixpoint consistent_neighbours (a : assignment) (var : Var)
         (nbs : list Var) : outcome bool :=
  match nbs with
  | [] => Ok true
  | neighbour :: nbs' =>
      if dict_mem var_eqb a neighbour then
        match overlaps cw var neighbour with
        | None => Raise TypeError
        | Some (o0, o1) =>
            w_var <~ dict_item var_eqb a var ;;
            c0 <~ char_at w_var o0 ;;
            w_nb <~ dict_item var_eqb a neighbour ;;
            c1 <~ char_at w_nb o1 ;;
            if negb (Ascii.eqb c0 c1) then Ok false
            else consistent_neighbours a var nbs'
        end
      else consistent_neighbours a var nbs'
  end.

Fixpoint consistent_loop (a : assignment) (todo : list Var)
         (used_words : list word) : outcome bool :=
  match todo with
  | [] => Ok true
  | var :: todo' =>
      w <~ dict_item var_eqb a var ;;
      if set_mem w used_words then Ok false
      else if negb (var_length var =? String.length w) then Ok false
      else
        ok <~ consistent_neighbours a var (neighbors cw var) ;;
        if ok then consistent_loop a todo' (used_words ++ [w])
        else Ok false
  end.

Definition consistent (a : assignment) : outcome bool :=
  consistent_loop a (dict_keys a) [].

(** ** order_domain_values *)

(** The final [while] loop: repeatedly move the least-valued word to the
    ordered list.  [fuel] is the size of the dictionary. *)
Fixpoint lcv_drain (fuel : nat) (unordered : @dict word nat)
         (ordered : list word) : outcome (list word) :=
  match unordered with
  | [] => Ok ordered
  | _ :: _ =>
      match fuel with
      | 0 => OutOfFuel
      | S fuel' =>
          least_const <~ py_min unordered ;;
          unordered' <~ dict_pop String.eqb unordered least_const ;;
          lcv_drain fuel' unordered' (ordered ++ [least_const])
      end
  end.

Definition count_conflict (overlap : option (nat * nat))
           (unordered : @dict word nat) (w neighbour_word : word)
  : outcome (@dict word nat) :=
  match overlap with
  | None => Raise TypeError
  | Some (o0, o1) =>
      c0 <~ char_at w o0 ;;
      c1 <~ char_at neighbour_word o1 ;;
      if negb (Ascii.eqb c0 c1) then
        n <~ dict_item String.eqb unordered w ;;
        Ok (dict_set String.eqb unordered w (n + 1))
      else Ok unordered
  end.

Definition order_domain_values (var : Var) (a : assignment)
  : M (list word) :=
  ws <- domain_of var ;;
  let unordered0 :=
    fold_left (fun ud w => dict_set String.eqb ud w 0) ws [] in
  unordered <-
    for_fold (neighbors cw var) unordered0 (fun ud neighbour =>
      if negb (dict_mem var_eqb a neighbour) then
        let overlap := overlaps cw var neighbour in
        for_fold (dict_keys ud) ud (fun ud w =>
          nws <- domain_of neighbour ;;
          lift (ofold nws ud (fun ud neighbour_word =>
                  count_conflict overlap ud w neighbour_word)))
      else ret ud) ;;
  lift (lcv_drain (List.length unordered) unordered []).

(** ** select_unassigned_variable *)

(** The loop [for i in range(len(unassigned_vars))]; [min_domains] keeps
    the sentinel [-1] of the source. *)
Fixpoint select_loop (n : nat) (unassigned_vars var_options : @dict Var nat)
         (min_domains : Z) : outcome (@dict Var nat) :=
  match n with
  | 0 => Ok var_options
  | S n' =>
      min_var <~ py_min unassigned_vars ;;
      min_var_value <~ dict_item var_eqb unassigned_vars min_var ;;
      unassigned_vars' <~ dict_pop var_eqb unassigned_vars min_var ;;
      if (min_domains =? -1)%Z then
        select_loop n' unassigned_vars'
          (dict_set var_eqb var_options min_var
                    (List.length (neighbors cw min_var)))
          (Z.of_nat min_var_value)
      else if (min_domains =? Z.of_nat min_var_value)%Z then
        select_loop n' unassigned_vars'
          (dict_set var_eqb var_options min_var
                    (List.length (neighbors cw min_var)))
          min_domains
      else Ok var_options
  end.

Definition select_unassigned_variable (a : assignment) : M Var :=
  vars <- domain_keys ;;
  unassigned_vars <-
    for_fold vars [] (fun uv var =>
      if negb (dict_mem var_eqb a var) then
        ws <- domain_of var ;;
        ret (dict_set var_eqb uv var (List.length ws))
      else ret uv) ;;
  var_options <-
    lift (select_loop (List.length unassigned_vars) unassigned_vars [] (-1)) ;;
  lift (py_max var_options).

(** ** backtrack *)

(** The assignment is one dictionary mutated in place, so the search
    returns its final state together with the returned value ([None], or
    the dictionary itself).  [fuel] bounds the depth of nested calls. *)
(** The [for] loop over the ordered candidates of [var]; [recurse] is the
    nested call [self.backtrack(assignment)]. *)
Fixpoint backtrack_try
         (recurse : assignment -> M (assignment * option assignment))
         (var : Var) (cands : list word) (a : assignment)
  : M (assignment * option assignment) :=
  match cands with
  | [] => ret (a, None)
  | domain_word :: cands' =>
      let a1 := dict_set var_eqb a var domain_word in
      ok <- lift (consistent a1) ;;
      if negb ok then
        a2 <- lift (dict_pop var_eqb a1 var) ;;
        backtrack_try recurse var cands' a2
      else
        r <- recurse a1 ;;
        match snd r with
        | Some res => ret (fst r, Some res)
        | None =>
            a2 <- lift (dict_pop var_eqb (fst r) var) ;;
            backtrack_try recurse var cands' a2
        end
  end.

Fixpoint backtrack (fuel : nat) (a : assignment)
  : M (assignment * option assignment) :=
  n <- domain_count ;;
  if List.length a =? n then ret (a, Some a)
  else
    var <- select_unassigned_variable a ;;
    candidates <- order_domain_values var a ;;
    backtrack_try
      (match fuel with
       | 0 => fun _ _ => OutOfFuel
       | S fuel' => backtrack fuel'
       end) var candidates a.

(** ** solve *)

(** [self.backtrack(assignment)] as called from outside: the depth budget is
    the number of variables, which the recursion never exceeds. *)
Definition backtrack_search (a : assignment)
  : M (assignment * option assignment) :=
  n <- domain_count ;;
  backtrack n a.

(** [solve], with the method bound to [self.backtrack] left open (Python
    binds it when the call is made). *)
Definition solve_with
           (search : assignment -> M (assignment * option assignment))
  : M (option assignment) :=
  enforce_node_consistency ;;;
  _ <- ac3 None ;;
  r <- search [] ;;
  ret (snd r).

Definition solve : M (option assignment) := solve_with backtrack_search.

End Creator.

(* ------------------------------------------------------------------ *)
(** * Concrete puzzles

    A three-slot grid: one across slot over two down slots,
<<
      _ _ _
      _ # _
      _ # _
>>
    The across slot meets the left down slot in its first cell and the right
    down slot in its last cell. *)

Module Grid.

Definition across : Var := mkVar 0 0 ACROSS 3.
Definition down_left : Var := mkVar 0 0 DOWN 3.
Definition down_right : Var := mkVar 0 2 DOWN 3.

Definition table : list (arc * (nat * nat)) :=
  [ ((across, down_left), (0, 0)); ((down_left, across), (0, 0));
    ((across, down_right), (2, 0)); ((down_right, across), (0, 2)) ].

Definition neighbours (x : Var) : list Var :=
  if var_eqb x across then [down_left; down_right]
  else if var_eqb x down_left then [across]
  else if var_eqb x down_right then [across]
  else [].

(** The variables iterated with the left down slot first. *)
Definition puzzle (ws : list word) : Crossword :=
  mkCrossword [down_left; across; down_right] ws table neighbours.

(** The same puzzle iterated with the across slot first. *)
Definition puzzle_across_first (ws : list word) : Crossword :=
  mkCrossword [across; down_left; down_right] ws table neighbours.

End Grid.

(* ================================================================== *)
(** * Vocabulary of the properties *)

(** Duplicate-freedom as a check. *)
Fixpoint nodupb {A} (eqb : A -> A -> bool) (l : list A) : bool :=
  match l with
  | [] => true
  | a :: l' => negb (existsb (eqb a) l') && nodupb eqb l'
  end.

(** The store is a dictionary of sets: keys are unique and no domain lists
    a word twice. *)
Definition store_ok (d : domains) : bool :=
  nodupb var_eqb (dict_keys d)
  && forallb (fun e => nodupb String.eqb (snd e)) d.

(** Every candidate has the length of its variable. *)
Definition node_consistent (d : domains) : bool :=
  forallb (fun e =>
             forallb (fun w => String.length w =? var_length (fst e)) (snd e))
          d.

(** What node consistency leaves of a store. *)
Definition node_filter (d : domains) : domains :=
  map (fun e =>
         (fst e, filter (fun w => String.length w =? var_length (fst e)) (snd e)))
      d.

(** [domain[v]], read as the empty set when [v] is not a key. *)
Definition dom (d : domains) (v : Var) : list word :=
  match dict_get var_eqb d v with Some ws => ws | None => [] end.

(** [xw[ox] == yw[oy]], both in range. *)
Definition char_match (ox oy : nat) (xw yw : word) : bool :=
  match String.get ox xw, String.get oy yw with
  | Some a, Some b => Ascii.eqb a b
  | _, _ => false
  end.

(** [xw] has a supporting match among [ys]. *)
Definition supported (ox oy : nat) (ys : list word) (xw : word) : bool :=
  existsb (char_match ox oy xw) ys.

(** The loop of [revise] over [self.domains[x]]. *)
Definition revise_scan (ox oy : nat) (y : Var) (xs : list word)
           (st : bool * list word) : M (bool * list word) :=
  for_fold xs st (fun st x_word =>
    ys <- domain_of y ;;
    arc_consistent <- lift (revise_inner ox oy x_word ys) ;;
    ret (if arc_consistent then st else (true, snd st ++ [x_word]))).

Definition unsupported (ox oy : nat) (ys : list word) (xs : list word)
  : list word :=
  filter (fun w => negb (supported ox oy ys w)) xs.

Definition is_some {A} (o : option A) : bool :=
  match o with Some _ => true | None => false end.

Definition var_in (x : Var) (l : list Var) : bool := existsb (var_eqb x) l.

(** Modelled from the spec: what the missing [Crossword] class guarantees
    of its overlap table.  An entry joins two distinct variables of the
    puzzle ("for every unordered pair of distinct variables"), its offsets
    lie inside the two slots, and the table holds the swapped entry for the
    swapped pair ("overlap is symmetric"). *)
Definition wf_entry (cw : Crossword) (e : arc * (nat * nat)) : bool :=
  let x := fst (fst e) in
  let y := snd (fst e) in
  negb (var_eqb x y)
  && var_in x (variables cw) && var_in y (variables cw)
  && (fst (snd e) <? var_length x) && (snd (snd e) <? var_length y)
  && match overlaps cw y x with
     | Some (a, b) => (a =? snd (snd e)) && (b =? fst (snd e))
     | None => false
     end.

(** Modelled from the spec: [neighbors(x)] is the set of variables with an
    overlap entry with [x] ("x and y are neighbors iff an overlap entry
    exists for the pair"). *)
Definition wf_neighbors (cw : Crossword) (x : Var) : bool :=
  nodupb var_eqb (neighbors cw x)
  && forallb (fun y => var_in y (variables cw) && is_some (overlaps cw y x))
             (neighbors cw x)
  && forallb (fun y => implb (is_some (overlaps cw y x))
                             (var_in y (neighbors cw x)))
             (variables cw).

Definition wf_crossword (cw : Crossword) : bool :=
  nodupb var_eqb (variables cw)
  && forallb (wf_entry cw) (overlap_table cw)
  && forallb (wf_neighbors cw) (variables cw).

Definition osafe {A} (o : outcome A) : Prop := o <> OutOfFuel.
Definition safe {A} (m : M A) : Prop := forall d, m d <> OutOfFuel.

(** The first loop: the dictionary of unassigned variables. *)
Definition collect_unassigned (a : assignment) (vars : list Var)
           (uv : @dict Var nat) : M (@dict Var nat) :=
  for_fold vars uv (fun uv var =>
    if negb (dict_mem var_eqb a var) then
      ws <- domain_of var ;;
      ret (dict_set var_eqb uv var (List.length ws))
    else ret uv).

Definition init_counter (ws : list word) (ud : @dict word nat)
  : @dict word nat :=
  fold_left (fun ud w => dict_set String.eqb ud w 0) ws ud.

(** The counting loops of [order_domain_values] for one neighbour. *)
Definition count_neighbour (cw : Crossword) (var neighbour : Var)
           (ud : @dict word nat) : M (@dict word nat) :=
  for_fold (dict_keys ud) ud (fun ud w =>
    nws <- domain_of neighbour ;;
    lift (ofold nws ud (fun ud neighbour_word =>
            count_conflict (overlaps cw var neighbour) ud w neighbour_word))).

(** An assignment is complete when it gives a word to every variable. *)
Definition complete (cw : Crossword) (a : assignment) : Prop :=
  forall v, In v (variables cw) -> exists w, dict_get var_eqb a v = Some w.

(** An assignment is consistent when no word serves two variables, every
    word has the length of its variable, and every two assigned variables
    with an overlap entry agree on the shared cell. *)
Definition consistent_assignment (cw : Crossword) (a : assignment) : Prop :=
  (forall x y w, dict_get var_eqb a x = Some w ->
                 dict_get var_eqb a y = Some w -> x = y)
  /\ (forall v w, dict_get var_eqb a v = Some w ->
                  String.length w = var_length v)
  /\ (forall x y ox oy wx wy,
        overlaps cw x y = Some (ox, oy) ->
        dict_get var_eqb a x = Some wx -> dict_get var_eqb a y = Some wy ->
        exists c, String.get ox wx = Some c /\ String.get oy wy = Some c).

(** The assignment under construction draws each word from the domain of
    its variable, and holds each variable once. *)
Definition asg_ok (d : domains) (a : assignment) : Prop :=
  NoDup (dict_keys a) /\ forall v w, In (v, w) a -> In w (dom d v).

(** What a successful search hands back. *)
Definition solved (cw : Crossword) (d : domains) (res : assignment) : Prop :=
  consistent cw res = Ok true
  /\ List.length res = List.length d
  /\ asg_ok d res.

(** The contract of a (nested) call of the search on a consistent
    assignment: the store is untouched, a failed call restores the
    assignment, a successful one returns a solved assignment. *)
Definition search_contract (cw : Crossword)
           (search : assignment -> M (assignment * option assignment))
  : Prop :=
  forall a d r d',
    asg_ok d a -> consistent cw a = Ok true ->
    search a d = Ok (r, d') ->
    d' = d
    /\ (snd r = None -> fst r = a)
    /\ (forall res, snd r = Some res -> solved cw d res).

(** The store of a creator for [cw]: a dictionary of sets whose keys are the
    variables of the puzzle. *)
Definition store_for (cw : Crossword) (d : domains) : bool :=
  store_ok d
  && forallb (fun v => var_in v (dict_keys d)) (variables cw)
  && forallb (fun v => var_in v (variables cw)) (dict_keys d).

(** A method that leaves [self.domains] exactly as it found it. *)
Definition readonly {A} (m : M A) : Prop :=
  forall d r d', m d = Ok (r, d') -> d' = d.

(** A method that keeps the variables and can only take words away. *)
Definition shrinks {A} (m : M A) : Prop :=
  forall d r d', m d = Ok (r, d') ->
    dict_keys d' = dict_keys d
    /\ forall v w, In w (dom d' v) -> In w (dom d v).

(** A partial assignment over the variables of the store. *)
Definition partial_assignment (d : domains) (a : assignment) : bool :=
  nodupb var_eqb (dict_keys a)
  && forallb (fun v => var_in v (dict_keys d)) (dict_keys a).

(** The words of an assignment come from the store. *)
Definition drawn_from (d : domains) (a : assignment) : Prop :=
  forall v w, dict_get var_eqb a v = Some w -> In w (dom d v).

(** The store the solver works on once node consistency is enforced. *)
Definition solver_store (cw : Crossword) (d : domains) : Prop :=
  store_for cw d = true /\ node_consistent d = true.

(** Arcs between variables of the puzzle. *)
Definition arcs_ok (cw : Crossword) (arc_list : list arc) : Prop :=
  forall a, In a arc_list ->
            In (fst a) (variables cw) /\ In (snd a) (variables cw).

(** Every pair with an overlap entry is arc consistent in [d]. *)
Definition arc_consistent (cw : Crossword) (d : domains) : bool :=
  forallb (fun e =>
             forallb (supported (fst (snd e)) (snd (snd e))
                                (dom d (snd (fst e))))
                     (dom d (fst (fst e))))
          (overlap_table cw).

Module GridRuns.
Import Grid.
Open Scope string_scope.

(** Two words, the left down slot iterated first. *)
Definition two_words : Crossword := puzzle ["ABA"; "CDE"].

(** One word that cannot cross itself at the right down slot. *)
Definition one_word : Crossword := puzzle ["ABC"].

(** Four words with a solution. *)
Definition four_words : Crossword :=
  puzzle_across_first ["ABC"; "CDE"; "AXY"; "CAT"].

Definition after_ac3 (cw : Crossword) : domains :=
  Eval vm_compute in
    match ac3 cw None (init_domains cw) with
    | Ok (_, d) => d
    | _ => []
    end.

Definition found (cw : Crossword) : assignment :=
  match backtrack cw 3 [] (init_domains cw) with
  | Ok ((_, Some res), _) => res
  | _ => []
  end.

Definition four_words_solution : assignment :=
  Eval vm_compute in found four_words.

Definition one_word_failed : domains :=
  Eval vm_compute in after_ac3 one_word.

Definition two_words_left : domains :=
  Eval vm_compute in after_ac3 two_words.

End GridRuns.

(** [solve] stops at a failed propagation: once [ac3] has failed, it
    reports failure whatever the search would do, i.e. without entering
    it. *)
Definition fails_without_search (cw : Crossword) (d : domains) : Prop :=
  forall search d1 d2,
    enforce_node_consistency d = Ok (tt, d1) ->
    ac3 cw None d1 = Ok (false, d2) ->
    solve_with cw search d = Ok (None, d2).

(* ------------------------------------------------------------------ *)
(** * CrosswordCreator.letter_grid *)

Definition grid := list (list (option ascii)).

(** [l[n]] and [l[n] = x] on a Python list; both fault out of range. *)
Definition list_item {A} (l : list A) (n : nat) : outcome A :=
  match nth_error l n with
  | Some a => Ok a
  | None => Raise IndexError
  end.

Fixpoint list_set {A} (l : list A) (n : nat) (x : A) : outcome (list A) :=
  match l, n with
  | [], _ => Raise IndexError
  | _ :: l', 0 => Ok (x :: l')
  | a :: l', S n' => l'' <~ list_set l' n' x ;; Ok (a :: l'')
  end.

(** [letters[i][j] = c]: the rows are separate lists, so only row [i]
    changes. *)
Definition grid_set (g : grid) (i j : nat) (c : ascii) : outcome grid :=
  row <~ list_item g i ;;
  row' <~ list_set row j (Some c) ;;
  list_set g i row'.

(** The cell of the [k]-th letter of a variable. *)
Definition cell (v : Var) (k : nat) : nat * nat :=
  (var_i v + (if dir_eqb (var_direction v) DOWN then k else 0),
   var_j v + (if dir_eqb (var_direction v) ACROSS then k else 0)).

(** The loop [for k in range(len(word))]. *)
Definition write_word (v : Var) (w : word) (g : grid) : outcome grid :=
  ofold (seq 0 (String.length w)) g (fun letters k =>
    c <~ char_at w k ;;
    grid_set letters (fst (cell v k)) (snd (cell v k)) c).

(** [letter_grid]; [height] and [width] are the fields of the crossword
    (crossword.py is not in the sources, so they are parameters here). *)
Definition letter_grid (height width : nat) (a : assignment)
  : outcome grid :=
  ofold a (repeat (repeat None width) height) (fun letters e =>
    write_word (fst e) (snd e) letters).

(* ================================================================== *)
(** * Vocabulary of the further properties *)

(** [w[o0] != nw[o1]], both in range. *)
Definition char_mismatch (o0 o1 : nat) (w nw : word) : bool :=
  match String.get o0 w, String.get o1 nw with
  | Some a, Some b => negb (Ascii.eqb a b)
  | _, _ => false
  end.

(** The candidates of [neighbour] that the word [w] for [var] rules out. *)
Definition ruled_out (cw : Crossword) (d : domains) (var neighbour : Var)
           (w : word) : nat :=
  match overlaps cw var neighbour with
  | Some (o0, o1) =>
      List.length (filter (char_mismatch o0 o1 w) (dom d neighbour))
  | None => 0
  end.

(** ... summed over the neighbours of [var] that are not assigned yet. *)
Definition conflicts (cw : Crossword) (d : domains) (a : assignment)
           (var : Var) (w : word) : nat :=
  list_sum (map (fun nb => if negb (dict_mem var_eqb a nb)
                           then ruled_out cw d var nb w else 0)
                (neighbors cw var)).

(** Adding [f w] to the counter of every word [w]. *)
Definition bump (f : word -> nat) (ud : @dict word nat) : @dict word nat :=
  map (fun e => (fst e, snd e + f (fst e))) ud.

(** Every entry of [a] is an entry of [s]. *)
Definition sub_assignment (a s : assignment) : Prop :=
  forall v w, In (v, w) a -> dict_get var_eqb s v = Some w.

(** Checks of [drawn_from] and [complete] on concrete data. *)
Definition drawn_fromb (d : domains) (a : assignment) : bool :=
  forallb (fun e => set_mem (snd e) (dom d (fst e))) a.

Definition completeb (cw : Crossword) (a : assignment) : bool :=
  forallb (fun v => dict_mem var_eqb a v) (variables cw).

(** The letter shown at row [i], column [j]; [None] for an empty cell or
    outside the grid. *)
Definition grid_get (g : grid) (i j : nat) : option ascii :=
  match nth_error g i with
  | Some row => match nth_error row j with Some c => c | None => None end
  | None => None
  end.

(** The cells [letter_grid] writes, in the order it writes them. *)
Definition word_writes (v : Var) (w : word) : list (nat * nat * ascii) :=
  flat_map (fun k => match String.get k w with
                     | Some c => [(cell v k, c)]
                     | None => []
                     end)
           (seq 0 (String.length w)).

Definition writes (a : assignment) : list (nat * nat * ascii) :=
  flat_map (fun e => word_writes (fst e) (snd e)) a.

(** The letter written last at [(i, j)], starting from [acc]. *)
Definition last_write (ws : list (nat * nat * ascii)) (acc : option ascii)
           (i j : nat) : option ascii :=
  fold_left (fun acc e =>
               if (fst (fst e) =? i) && (snd (fst e) =? j)
               then Some (snd e) else acc)
            ws acc.

(** Every write lands inside a [height] by [width] grid. *)
Definition writes_inside (height width : nat)
           (ws : list (nat * nat * ascii)) : bool :=
  forallb (fun e => (fst (fst e) <? height) && (snd (fst e) <? width)) ws.

(** Writes to one cell carry one letter. *)
Definition writes_agree (ws : list (nat * nat * ascii)) : bool :=
  forallb (fun e1 =>
    forallb (fun e2 =>
      implb ((fst (fst e1) =? fst (fst e2)) && (snd (fst e1) =? snd (fst e2)))
            (Ascii.eqb (snd e1) (snd e2))) ws) ws.

(** Running a list of writes. *)
Definition apply_writes (ws : list (nat * nat * ascii)) (g : grid)
  : outcome grid :=
  ofold ws g (fun letters e => grid_set letters (fst (fst e)) (snd (fst e)) (snd e)).

(** A grid of [height] rows of [width] cells. *)
Definition grid_shape (height width : nat) (g : grid) : Prop :=
  List.length g = height /\ Forall (fun row => List.length row = width) g.

(** Every word left for [x] has a supporting word left for [y], for every
    pair with an overlap entry. *)
Definition arc_consistent_store (cw : Crossword) (d : domains) : Prop :=
  forall x y ox oy w,
    overlaps cw x y = Some (ox, oy) -> In w (dom d x) ->
    supported ox oy (dom d y) w = true.

(* ================================================================== *)
(** * Facts about the data model *)

Lemma dir_eqb_spec (a b : Direction) : reflect (a = b) (dir_eqb a b).
Proof. destruct a, b; simpl; constructor; congruence. Qed.

Lemma var_eqb_spec (x y : Var) : reflect (x = y) (var_eqb x y).
Proof.
  destruct x as [i j dr n], y as [i' j' dr' n']; unfold var_eqb; simpl.
  destruct (Nat.eqb_spec i i'), (Nat.eqb_spec j j'), (dir_eqb_spec dr dr'),
    (Nat.eqb_spec n n'); simpl; constructor; congruence.
Qed.

Lemma var_eqb_refl (x : Var) : var_eqb x x = true.
Proof. destruct (var_eqb_spec x x); congruence. Qed.

Lemma arc_eqb_spec (a b : arc) : reflect (a = b) (arc_eqb a b).
Proof.
  destruct a as [x y], b as [x' y']; unfold arc_eqb; simpl.
  destruct (var_eqb_spec x x'), (var_eqb_spec y y'); simpl;
    constructor; congruence.
Qed.

Lemma word_eqb_spec (a b : word) : reflect (a = b) (String.eqb a b).
Proof. apply String.eqb_spec. Qed.

Section DictFacts.
Context {K V : Type}.
Variable eqb : K -> K -> bool.
Hypothesis eqb_spec : forall a b, reflect (a = b) (eqb a b).

Local Abbreviation get := (dict_get eqb).
Local Abbreviation set := (dict_set eqb).

Lemma dict_get_in (d : @dict K V) k v : get d k = Some v -> In (k, v) d.
Proof.
  induction d as [|[k' v'] d IH]; simpl; [discriminate|].
  destruct (eqb_spec k' k); intros H.
  - inversion H; subst; auto.
  - auto.
Qed.

Lemma dict_get_none (d : @dict K V) k :
  get d k = None <-> ~ In k (dict_keys d).
Proof.
  induction d as [|[k' v'] d IH]; simpl.
  - tauto.
  - destruct (eqb_spec k' k); split; intros H.
    + discriminate.
    + exfalso; apply H; auto.
    + intros [E|E]; [congruence|]. apply IH in H; auto.
    + apply IH. intros E; apply H; auto.
Qed.

Lemma dict_get_some (d : @dict K V) k :
  In k (dict_keys d) -> exists v, get d k = Some v.
Proof.
  intros H. destruct (get d k) eqn:E; eauto.
  apply dict_get_none in E. contradiction.
Qed.

Lemma dict_mem_in (d : @dict K V) k :
  dict_mem eqb d k = true <-> In k (dict_keys d).
Proof.
  unfold dict_mem. destruct (get d k) eqn:E.
  - split; auto. intros _. apply dict_get_in in E.
    change k with (fst (k, v)). apply in_map; exact E.
  - apply dict_get_none in E. split; [discriminate|contradiction].
Qed.

Lemma dict_mem_false (d : @dict K V) k :
  dict_mem eqb d k = false <-> ~ In k (dict_keys d).
Proof.
  rewrite <- dict_mem_in. destruct (dict_mem eqb d k); split; congruence.
Qed.

Lemma in_dict_get (d : @dict K V) k v :
  NoDup (dict_keys d) -> In (k, v) d -> get d k = Some v.
Proof.
  induction d as [|[k' v'] d IH]; simpl; [tauto|].
  intros ND [E|E]; inversion ND; subst.
  - inversion E; subst. destruct (eqb_spec k k); congruence.
  - destruct (eqb_spec k' k); subst; auto.
    exfalso. apply H1. change k with (fst (k, v)). apply in_map; exact E.
Qed.

Lemma dict_keys_set (d : @dict K V) k v :
  dict_keys (set d k v) =
  if dict_mem eqb d k then dict_keys d else dict_keys d ++ [k].
Proof.
  unfold dict_mem. induction d as [|[k' v'] d IH]; simpl; auto.
  destruct (eqb_spec k' k); simpl; auto.
  rewrite IH. destruct (get d k); auto.
Qed.

Lemma dict_set_fresh (d : @dict K V) k v :
  dict_mem eqb d k = false -> set d k v = d ++ [(k, v)].
Proof.
  unfold dict_mem. induction d as [|[k' v'] d IH]; simpl; auto.
  destruct (eqb_spec k' k); [discriminate|].
  intros H. rewrite IH; auto.
Qed.

Lemma dict_get_set_same (d : @dict K V) k v : get (set d k v) k = Some v.
Proof.
  induction d as [|[k' v'] d IH]; simpl.
  - destruct (eqb_spec k k); congruence.
  - destruct (eqb_spec k' k) as [E|E]; simpl.
    + destruct (eqb_spec k' k); congruence.
    + destruct (eqb_spec k' k); congruence.
Qed.

Lemma dict_get_set_other (d : @dict K V) k k' v :
  k <> k' -> get (set d k v) k' = get d k'.
Proof.
  intros N. induction d as [|[k0 v0] d IH]; simpl.
  - destruct (eqb_spec k k'); congruence.
  - destruct (eqb_spec k0 k); simpl.
    + subst. destruct (eqb_spec k k'); congruence.
    + destruct (eqb_spec k0 k'); auto.
Qed.

Lemma dict_set_same (d : @dict K V) k v : get d k = Some v -> set d k v = d.
Proof.
  induction d as [|[k' v'] d IH]; simpl; [discriminate|].
  destruct (eqb_spec k' k); intros H.
  - congruence.
  - rewrite IH; auto.
Qed.

Lemma dict_set_set (d : @dict K V) k v v' :
  set (set d k v) k v' = set d k v'.
Proof.
  induction d as [|[k' w] d IH]; simpl.
  - destruct (eqb_spec k k); congruence.
  - destruct (eqb_spec k' k) as [E|E]; simpl.
    + destruct (eqb_spec k' k); congruence.
    + destruct (eqb_spec k' k); congruence.
Qed.

Lemma dict_get_app (d1 d2 : @dict K V) k :
  get (d1 ++ d2) k =
  match get d1 k with Some v => Some v | None => get d2 k end.
Proof.
  induction d1 as [|[k' v'] d1 IH]; simpl; auto.
  destruct (eqb_spec k' k); auto.
Qed.

Lemma dict_set_app_r (d1 d2 : @dict K V) k v :
  ~ In k (dict_keys d1) -> set (d1 ++ d2) k v = d1 ++ set d2 k v.
Proof.
  induction d1 as [|[k' v'] d1 IH]; simpl; auto.
  intros N. destruct (eqb_spec k' k).
  - exfalso; auto.
  - rewrite IH; auto.
Qed.

Lemma dict_remove_snoc (d : @dict K V) k v :
  dict_mem eqb d k = false -> dict_remove eqb (d ++ [(k, v)]) k = d.
Proof.
  unfold dict_mem. induction d as [|[k' v'] d IH]; simpl.
  - destruct (eqb_spec k k); congruence.
  - destruct (eqb_spec k' k); [discriminate|].
    intros H. rewrite IH; auto.
Qed.

Lemma dict_remove_length (d : @dict K V) k :
  dict_mem eqb d k = true ->
  S (List.length (dict_remove eqb d k)) = List.length d.
Proof.
  unfold dict_mem. induction d as [|[k' v'] d IH]; simpl; [discriminate|].
  destruct (eqb_spec k' k); auto.
Qed.

Lemma dict_remove_keys_incl (d : @dict K V) k :
  incl (dict_keys (dict_remove eqb d k)) (dict_keys d).
Proof.
  induction d as [|[k' v'] d IH]; simpl; [apply incl_refl|].
  destruct (eqb_spec k' k).
  - apply incl_tl, incl_refl.
  - simpl. intros x [E|E]; [left; auto | right; apply IH; auto].
Qed.

Lemma dict_remove_in (d : @dict K V) k e :
  In e (dict_remove eqb d k) -> In e d.
Proof.
  induction d as [|[k' v'] d IH]; simpl; auto.
  destruct (eqb_spec k' k); simpl; intuition.
Qed.
End DictFacts.

Lemma existsb_eqb_in {A} (eqb : A -> A -> bool)
      (eqb_spec : forall a b, reflect (a = b) (eqb a b)) a l :
  existsb (eqb a) l = true <-> In a l.
Proof.
  rewrite existsb_exists. split.
  - intros [x [H E]]. destruct (eqb_spec a x); congruence.
  - intros H. exists a. split; auto. destruct (eqb_spec a a); congruence.
Qed.

Lemma nodupb_NoDup {A} (eqb : A -> A -> bool)
      (eqb_spec : forall a b, reflect (a = b) (eqb a b)) l :
  nodupb eqb l = true <-> NoDup l.
Proof.
  induction l as [|a l IH]; simpl.
  - split; auto. constructor.
  - rewrite andb_true_iff, negb_true_iff, IH. split.
    + intros [H1 H2]. constructor; auto.
      rewrite <- (existsb_eqb_in _ eqb_spec). congruence.
    + intros H; inversion H; subst. split; auto.
      destruct (existsb (eqb a) l) eqn:E; auto.
      apply (existsb_eqb_in _ eqb_spec) in E. contradiction.
Qed.

Lemma set_mem_in w s : set_mem w s = true <-> In w s.
Proof. apply (existsb_eqb_in _ word_eqb_spec). Qed.

Lemma set_remove_filter w s :
  set_remove w s = filter (fun w' => negb (String.eqb w' w)) s.
Proof.
  induction s as [|w' s IH]; cbn [set_remove filter]; auto.
  rewrite IH. destruct (String.eqb w' w); reflexivity.
Qed.

(** ** Invariants of the domain store *)

Lemma store_ok_keys d : store_ok d = true -> NoDup (dict_keys d).
Proof.
  unfold store_ok. rewrite andb_true_iff. intros [H _].
  apply (nodupb_NoDup _ var_eqb_spec); exact H.
Qed.

Lemma store_ok_domain d x ws :
  store_ok d = true -> dict_get var_eqb d x = Some ws -> NoDup ws.
Proof.
  unfold store_ok. rewrite andb_true_iff. intros [_ H] G.
  apply (dict_get_in _ var_eqb_spec) in G.
  rewrite forallb_forall in H. apply H in G. simpl in G.
  apply (nodupb_NoDup _ word_eqb_spec); exact G.
Qed.

Lemma node_consistent_domain d x ws w :
  node_consistent d = true -> dict_get var_eqb d x = Some ws -> In w ws ->
  String.length w = var_length x.
Proof.
  unfold node_consistent. intros H G I.
  apply (dict_get_in _ var_eqb_spec) in G.
  rewrite forallb_forall in H. apply H in G. simpl in G.
  rewrite forallb_forall in G. apply G in I. apply Nat.eqb_eq; exact I.
Qed.

(** ** Running monadic code *)

Lemma bind_ok {A B} (m : M A) (k : A -> M B) d a d' :
  m d = Ok (a, d') -> bind m k d = k a d'.
Proof. unfold bind. intros ->. reflexivity. Qed.

Lemma bind_inv {A B} (m : M A) (k : A -> M B) d r :
  bind m k d = Ok r -> exists a d1, m d = Ok (a, d1) /\ k a d1 = Ok r.
Proof.
  unfold bind. destruct (m d) as [[a d1]| |]; try discriminate. eauto.
Qed.

Lemma obind_inv {A B} (m : outcome A) (k : A -> outcome B) r :
  obind m k = Ok r -> exists a, m = Ok a /\ k a = Ok r.
Proof. destruct m; simpl; try discriminate. eauto. Qed.

Lemma lift_inv {A} (o : outcome A) d r d' :
  lift o d = Ok (r, d') -> o = Ok r /\ d' = d.
Proof. unfold lift. destruct o; try discriminate. intros H; inversion H; auto. Qed.

Lemma lift_ok {A} (o : outcome A) d r : o = Ok r -> lift o d = Ok (r, d).
Proof. intros ->. reflexivity. Qed.

Lemma domain_of_inv x d ws d' :
  domain_of x d = Ok (ws, d') -> dict_get var_eqb d x = Some ws /\ d' = d.
Proof.
  unfold domain_of. destruct (dict_get var_eqb d x); try discriminate.
  intros H; inversion H; auto.
Qed.

Lemma domain_of_ok x d ws :
  dict_get var_eqb d x = Some ws -> domain_of x d = Ok (ws, d).
Proof. unfold domain_of. intros ->. reflexivity. Qed.

(** Removing a list of distinct members of [domain[x]] leaves the words
    that are not in the list. *)
Lemma for_each_remove x l :
  forall d ws,
    dict_get var_eqb d x = Some ws -> NoDup l -> incl l ws ->
    for_each l (fun w => domain_remove x w) d =
    Ok (tt, dict_set var_eqb d x (filter (fun w => negb (set_mem w l)) ws)).
Proof.
  induction l as [|w l IH]; intros d ws G ND I; simpl.
  - unfold ret. f_equal. f_equal.
    rewrite forallb_filter_id by (apply forallb_forall; reflexivity).
    symmetry. apply (dict_set_same _ var_eqb_spec); exact G.
  - inversion ND; subst.
    assert (Hw : set_mem w ws = true) by (apply set_mem_in, I; left; auto).
    erewrite bind_ok; [|unfold domain_remove; rewrite G, Hw; reflexivity].
    rewrite (IH _ (set_remove w ws)).
    + rewrite (dict_set_set _ var_eqb_spec). f_equal. f_equal. f_equal.
      rewrite set_remove_filter.
      clear. induction ws as [|a ws IHws]; simpl; auto.
      destruct (String.eqb a w); simpl; rewrite IHws; reflexivity.
    + apply (dict_get_set_same _ var_eqb_spec).
    + exact H2.
    + intros a Ha. rewrite set_remove_filter. apply filter_In. split.
      * apply I; right; auto.
      * apply negb_true_iff. destruct (String.eqb_spec a w); auto.
        subst; contradiction.
Qed.

Lemma filter_mem_filter (p : word -> bool) ws :
  filter (fun w => negb (set_mem w (filter p ws))) ws =
  filter (fun w => negb (p w)) ws.
Proof.
  apply filter_ext_in. intros w I. f_equal.
  destruct (p w) eqn:E.
  - apply set_mem_in, filter_In; auto.
  - destruct (set_mem w (filter p ws)) eqn:F; auto.
    apply set_mem_in, filter_In in F. destruct F; congruence.
Qed.

(** ** enforce_node_consistency *)

Lemma enforce_node_loop (suf : domains) :
  forall pre : domains,
    NoDup (dict_keys (pre ++ suf)) ->
    forallb (fun e => nodupb String.eqb (snd e)) suf = true ->
    for_each (dict_keys suf) (fun var =>
      ws <- domain_of var ;;
      for_each
        (filter (fun w => negb (String.length w =? var_length var)) ws)
        (fun w => domain_remove var w)) (pre ++ suf) =
    Ok (tt, pre ++ node_filter suf).
Proof.
  induction suf as [|[v ws] suf IH]; intros pre ND F; simpl.
  - reflexivity.
  - simpl in F. apply andb_true_iff in F. destruct F as [Fv F].
    apply (nodupb_NoDup _ word_eqb_spec) in Fv.
    assert (Nv : ~ In v (dict_keys pre)).
    { unfold dict_keys in *. rewrite map_app in ND. simpl in ND.
      apply NoDup_remove_2 in ND. intros I. apply ND, in_or_app; auto. }
    assert (G : dict_get var_eqb (pre ++ (v, ws) :: suf) v = Some ws).
    { assert (E : dict_get var_eqb pre v = None)
        by (apply (dict_get_none _ var_eqb_spec); exact Nv).
      rewrite (dict_get_app _ var_eqb_spec), E. simpl. rewrite var_eqb_refl. reflexivity. }
    erewrite bind_ok.
    2:{ erewrite bind_ok; [|apply domain_of_ok; exact G].
        apply (for_each_remove v _ _ ws G).
        - apply NoDup_filter; exact Fv.
        - intros a Ha. apply filter_In in Ha. tauto. }
    rewrite (dict_set_app_r _ var_eqb_spec); auto.
    simpl. rewrite var_eqb_refl.
    rewrite filter_mem_filter.
    assert (Ef : filter (fun w : word =>
                           negb (negb (String.length w =? var_length v))) ws
                 = filter (fun w => String.length w =? var_length v) ws)
      by (apply filter_ext; intros; apply negb_involutive).
    rewrite Ef.
    specialize (IH (pre ++ [(v, filter (fun w => String.length w =? var_length v) ws)])).
    rewrite <- !app_assoc in IH. simpl in IH. apply IH; auto.
    unfold dict_keys in *. rewrite !map_app in *. simpl in *. exact ND.
Qed.

Lemma enforce_node_consistency_run d :
  store_ok d = true ->
  enforce_node_consistency d = Ok (tt, node_filter d).
Proof.
  intros H. unfold enforce_node_consistency.
  erewrite bind_ok; [|reflexivity].
  apply (enforce_node_loop d []).
  - apply store_ok_keys; exact H.
  - unfold store_ok in H. apply andb_true_iff in H. tauto.
Qed.

Lemma node_filter_keys d : dict_keys (node_filter d) = dict_keys d.
Proof. unfold node_filter, dict_keys. rewrite map_map. reflexivity. Qed.

Lemma node_filter_get d x :
  dict_get var_eqb (node_filter d) x =
  option_map (filter (fun w => String.length w =? var_length x))
             (dict_get var_eqb d x).
Proof.
  induction d as [|[v ws] d IH]; simpl; auto.
  destruct (var_eqb_spec v x); subst; auto.
Qed.

Lemma node_filter_consistent d : node_consistent (node_filter d) = true.
Proof.
  unfold node_consistent. induction d as [|[v ws] d IH]; simpl; auto.
  rewrite IH, andb_true_r.
  apply forallb_forall. intros w I. apply filter_In in I. tauto.
Qed.

Lemma node_filter_store_ok d :
  store_ok d = true -> store_ok (node_filter d) = true.
Proof.
  unfold store_ok. rewrite !andb_true_iff. intros [H1 H2]. split.
  - rewrite node_filter_keys. exact H1.
  - clear H1. induction d as [|[v ws] d IH]; simpl in *; auto.
    apply andb_true_iff in H2. destruct H2 as [Hv H2].
    rewrite IH, andb_true_r; auto.
    apply (nodupb_NoDup _ word_eqb_spec), NoDup_filter.
    apply (nodupb_NoDup _ word_eqb_spec), Hv.
Qed.

(** ** revise *)

Lemma get_in_range (w : word) : forall k,
  k < String.length w -> exists c, String.get k w = Some c.
Proof.
  induction w as [|a w IH]; simpl; intros k H; [lia|].
  destruct k; simpl; eauto. apply IH. lia.
Qed.

Lemma char_at_ok w k : k < String.length w -> exists c, char_at w k = Ok c.
Proof.
  intros H. destruct (get_in_range w k H) as [c E].
  exists c. unfold char_at. rewrite E. reflexivity.
Qed.

Lemma revise_inner_acc ox oy xw ys : forall acc b,
  ofold ys acc (fun arc_consistent y_word =>
    cx <~ char_at xw ox ;;
    cy <~ char_at y_word oy ;;
    Ok (if Ascii.eqb cx cy then true else arc_consistent)) = Ok b ->
  b = acc || supported ox oy ys xw.
Proof.
  induction ys as [|yw ys IH]; simpl; intros acc b H.
  - inversion H. rewrite orb_false_r. reflexivity.
  - apply obind_inv in H. destruct H as [acc' [H1 H2]].
    apply obind_inv in H1. destruct H1 as [cx [Hx H1]].
    apply obind_inv in H1. destruct H1 as [cy [Hy H1]].
    inversion H1; subst acc'; clear H1.
    apply IH in H2. subst b.
    unfold char_at in Hx, Hy. unfold char_match.
    destruct (String.get ox xw); try discriminate.
    destruct (String.get oy yw); try discriminate.
    inversion Hx; inversion Hy; subst.
    destruct (Ascii.eqb cx cy); simpl.
    + rewrite orb_true_r. reflexivity.
    + reflexivity.
Qed.

Lemma revise_inner_inv ox oy xw ys b :
  revise_inner ox oy xw ys = Ok b -> b = supported ox oy ys xw.
Proof. intros H. apply revise_inner_acc in H. exact H. Qed.

Lemma revise_inner_total ox oy xw ys :
  ox < String.length xw ->
  (forall yw, In yw ys -> oy < String.length yw) ->
  revise_inner ox oy xw ys = Ok (supported ox oy ys xw).
Proof.
  intros Hx Hy.
  assert (E : exists b, revise_inner ox oy xw ys = Ok b).
  { unfold revise_inner. generalize false.
    destruct (char_at_ok xw ox Hx) as [cx ->].
    induction ys as [|yw ys IH]; simpl; intros acc; eauto.
    destruct (char_at_ok yw oy (Hy yw (or_introl eq_refl))) as [cy ->]. simpl.
    apply (IH (fun y I => Hy y (or_intror I))). }
  destruct E as [b E]. rewrite E. f_equal. apply revise_inner_inv; exact E.
Qed.

Lemma revise_scan_inv ox oy y xs : forall st d st' d',
  revise_scan ox oy y xs st d = Ok (st', d') ->
  d' = d
  /\ Forall (fun xw => dict_get var_eqb d y = Some (dom d y)
                       /\ revise_inner ox oy xw (dom d y)
                          = Ok (supported ox oy (dom d y) xw)) xs
  /\ snd st' = snd st ++ unsupported ox oy (dom d y) xs
  /\ fst st' = fst st || negb (forallb (supported ox oy (dom d y)) xs).
Proof.
  unfold revise_scan.
  induction xs as [|xw xs IH]; simpl; intros st d st' d' H.
  - inversion H; subst. rewrite app_nil_r, orb_false_r. auto.
  - apply bind_inv in H. destruct H as [st1 [d1 [H1 H2]]].
    apply bind_inv in H1. destruct H1 as [ys [d2 [Hy H1]]].
    apply domain_of_inv in Hy. destruct Hy as [Hy ->].
    apply bind_inv in H1. destruct H1 as [b [d3 [Hb H1]]].
    apply lift_inv in Hb. destruct Hb as [Hb ->].
    inversion H1; subst st1 d1; clear H1.
    apply IH in H2. destruct H2 as [-> [HF [Hs Hc]]].
    assert (Ey : dom d y = ys) by (unfold dom; rewrite Hy; reflexivity).
    pose proof (revise_inner_inv _ _ _ _ _ Hb) as Eb.
    split; [reflexivity|]. split; [|split].
    + constructor; auto. rewrite Ey. split; auto. congruence.
    + rewrite Hs. unfold unsupported. simpl. rewrite Ey, <- Eb.
      destruct b; simpl; auto. rewrite <- app_assoc. reflexivity.
    + rewrite Hc. rewrite Ey, <- Eb. destruct b; simpl; auto.
      rewrite orb_true_r. reflexivity.
Qed.

Lemma revise_scan_run ox oy y xs : forall st d,
  Forall (fun xw => dict_get var_eqb d y = Some (dom d y)
                    /\ revise_inner ox oy xw (dom d y)
                       = Ok (supported ox oy (dom d y) xw)) xs ->
  revise_scan ox oy y xs st d =
  Ok ((fst st || negb (forallb (supported ox oy (dom d y)) xs),
       snd st ++ unsupported ox oy (dom d y) xs), d).
Proof.
  unfold revise_scan.
  induction xs as [|xw xs IH]; simpl; intros st d HF.
  - unfold ret. rewrite app_nil_r, orb_false_r. destruct st; reflexivity.
  - inversion HF as [|? ? [Hy Hb] HF']; subst.
    erewrite bind_ok.
    2:{ erewrite bind_ok; [|apply domain_of_ok; exact Hy].
        erewrite bind_ok; [|apply lift_ok; exact Hb]. reflexivity. }
    rewrite IH; auto. unfold unsupported. simpl.
    destruct (supported ox oy (dom d y) xw); simpl.
    + reflexivity.
    + rewrite orb_true_r, <- app_assoc. reflexivity.
Qed.

(** Removing a list of words one by one, when it succeeds, leaves the words
    that are not in the list. *)
Lemma for_each_remove_inv x l : forall d ws d',
  dict_get var_eqb d x = Some ws ->
  for_each l (fun w => domain_remove x w) d = Ok (tt, d') ->
  d' = dict_set var_eqb d x (filter (fun w => negb (set_mem w l)) ws).
Proof.
  induction l as [|w l IH]; intros d ws d' G H; simpl in H.
  - inversion H; subst.
    rewrite forallb_filter_id by (apply forallb_forall; reflexivity).
    symmetry. apply (dict_set_same _ var_eqb_spec); exact G.
  - apply bind_inv in H. destruct H as [[] [d1 [H1 H2]]].
    unfold domain_remove in H1. rewrite G in H1.
    destruct (set_mem w ws); try discriminate.
    inversion H1; subst d1; clear H1.
    apply (IH _ (set_remove w ws) _) in H2.
    2:{ apply (dict_get_set_same _ var_eqb_spec). }
    rewrite H2, (dict_set_set _ var_eqb_spec). f_equal.
    rewrite set_remove_filter.
    clear. induction ws as [|a ws IHws]; simpl; auto.
    destruct (String.eqb a w); simpl; rewrite IHws; reflexivity.
Qed.

Lemma filter_unsupported ox oy ys xs :
  filter (fun w => negb (set_mem w (unsupported ox oy ys xs))) xs =
  filter (supported ox oy ys) xs.
Proof.
  unfold unsupported. rewrite filter_mem_filter.
  apply filter_ext. intros; apply negb_involutive.
Qed.

(** What a normal return of [revise] establishes. *)
Lemma revise_inv cw x y d c d' :
  revise cw x y d = Ok (c, d') ->
  match overlaps cw x y with
  | None => c = false /\ d' = d
  | Some (ox, oy) =>
      exists xs,
        dict_get var_eqb d x = Some xs
        /\ d' = dict_set var_eqb d x (filter (supported ox oy (dom d y)) xs)
        /\ c = negb (forallb (supported ox oy (dom d y)) xs)
        /\ Forall (fun xw => dict_get var_eqb d y = Some (dom d y)
                       /\ revise_inner ox oy xw (dom d y)
                          = Ok (supported ox oy (dom d y) xw)) xs
  end.
Proof.
  unfold revise. destruct (overlaps cw x y) as [[ox oy]|].
  - intros H.
    apply bind_inv in H. destruct H as [xs [d1 [Hx H]]].
    apply domain_of_inv in Hx. destruct Hx as [Hx ->].
    apply bind_inv in H. destruct H as [st [d1 [Hs H]]].
    apply revise_scan_inv in Hs. destruct Hs as [-> [HF [Hr Hc]]].
    apply bind_inv in H. destruct H as [[] [d1 [Hrem H]]].
    inversion H; subst; clear H.
    apply (for_each_remove_inv _ _ _ _ _ Hx) in Hrem.
    simpl in Hr. rewrite Hr, filter_unsupported in Hrem.
    exists xs. repeat split; auto.
  - intros H. inversion H; auto.
Qed.

(* ------------------------------------------------------------------ *)
(** * Well-formed puzzles *)

Lemma var_in_In x l : var_in x l = true <-> In x l.
Proof. apply (existsb_eqb_in _ var_eqb_spec). Qed.

Lemma overlaps_wf cw x y ox oy :
  wf_crossword cw = true ->
  overlaps cw x y = Some (ox, oy) ->
  x <> y /\ In x (variables cw) /\ In y (variables cw)
  /\ ox < var_length x /\ oy < var_length y
  /\ overlaps cw y x = Some (oy, ox).
Proof.
  unfold wf_crossword. rewrite !andb_true_iff. intros [[_ H] _] G.
  unfold overlaps in G. apply (dict_get_in _ arc_eqb_spec) in G.
  rewrite forallb_forall in H. apply H in G. clear H.
  unfold wf_entry in G. simpl in G. rewrite !andb_true_iff in G.
  destruct G as [[[[[N Ix] Iy] Bx] By] S].
  apply negb_true_iff in N.
  destruct (var_eqb_spec x y) as [|N']; [discriminate|].
  apply var_in_In in Ix, Iy. apply Nat.ltb_lt in Bx, By.
  destruct (overlaps cw y x) as [[a b]|]; [|discriminate].
  apply andb_true_iff in S. destruct S as [Sa Sb].
  apply Nat.eqb_eq in Sa, Sb. subst. auto 10.
Qed.

Lemma neighbors_wf cw x y :
  wf_crossword cw = true -> In x (variables cw) -> In y (neighbors cw x) ->
  In y (variables cw) /\ exists ox oy, overlaps cw x y = Some (ox, oy).
Proof.
  intros W Ix Iy. pose proof W as W'.
  unfold wf_crossword in W'. rewrite !andb_true_iff in W'.
  destruct W' as [_ H]. rewrite forallb_forall in H. apply H in Ix.
  unfold wf_neighbors in Ix. rewrite !andb_true_iff in Ix.
  destruct Ix as [[_ H1] _]. rewrite forallb_forall in H1.
  apply H1 in Iy. apply andb_true_iff in Iy. destruct Iy as [Iy S].
  apply var_in_In in Iy. split; auto.
  destruct (overlaps cw y x) as [[a b]|] eqn:E; [|discriminate].
  apply (overlaps_wf _ _ _ _ _ W) in E. exists b, a. tauto.
Qed.

Lemma neighbors_nodup cw x :
  wf_crossword cw = true -> In x (variables cw) -> NoDup (neighbors cw x).
Proof.
  intros W Ix. unfold wf_crossword in W. rewrite !andb_true_iff in W.
  destruct W as [_ H]. rewrite forallb_forall in H. apply H in Ix.
  unfold wf_neighbors in Ix. rewrite !andb_true_iff in Ix.
  apply (nodupb_NoDup _ var_eqb_spec). tauto.
Qed.

Lemma neighbors_complete cw x y ox oy :
  wf_crossword cw = true -> overlaps cw x y = Some (ox, oy) ->
  In y (neighbors cw x).
Proof.
  intros W E. pose proof (overlaps_wf _ _ _ _ _ W E) as [_ [Ix [Iy [_ [_ S]]]]].
  unfold wf_crossword in W. rewrite !andb_true_iff in W.
  destruct W as [_ H]. rewrite forallb_forall in H. apply H in Ix.
  unfold wf_neighbors in Ix. rewrite !andb_true_iff in Ix.
  destruct Ix as [_ H2]. rewrite forallb_forall in H2. apply H2 in Iy.
  rewrite S in Iy. simpl in Iy. apply var_in_In; exact Iy.
Qed.

(* ------------------------------------------------------------------ *)
(** * Properties of the consistency phase *)

Lemma supported_iff ox oy ys w :
  supported ox oy ys w = true <->
  exists yw c, In yw ys /\ String.get ox w = Some c
               /\ String.get oy yw = Some c.
Proof.
  unfold supported. rewrite existsb_exists. unfold char_match. split.
  - intros [yw [I H]].
    destruct (String.get ox w) as [a|]; [|discriminate].
    destruct (String.get oy yw) as [b|] eqn:E; [|discriminate].
    apply Ascii.eqb_eq in H. subst. eauto.
  - intros [yw [c [I [-> E]]]]. exists yw. rewrite E. split; auto.
    apply Ascii.eqb_refl.
Qed.

Lemma dom_set_same (d : domains) x ws : dom (dict_set var_eqb d x ws) x = ws.
Proof. unfold dom. rewrite (dict_get_set_same _ var_eqb_spec). reflexivity. Qed.

Lemma dom_set_other (d : domains) x v ws :
  x <> v -> dom (dict_set var_eqb d x ws) v = dom d v.
Proof.
  intros N. unfold dom. rewrite (dict_get_set_other _ var_eqb_spec); auto.
Qed.

Lemma dict_keys_set_present (d : domains) x ws ws' :
  dict_get var_eqb d x = Some ws ->
  dict_keys (dict_set var_eqb d x ws') = dict_keys d.
Proof.
  intros G. rewrite (dict_keys_set _ var_eqb_spec).
  unfold dict_mem. rewrite G. reflexivity.
Qed.

(** C8.  After [enforce_node_consistency] every candidate left in every
    domain has the length of its variable, and the words removed are exactly
    those of another length: the call returns, keeps the variables, and each
    new domain is the old one restricted to the words of the right length. *)
Theorem enforce_node_consistency_spec (d : domains) :
  store_ok d = true ->
  exists d',
    enforce_node_consistency d = Ok (tt, d')
    /\ dict_keys d' = dict_keys d
    /\ (forall v w, In w (dom d' v) -> String.length w = var_length v)
    /\ (forall v w, In w (dom d' v) <->
                    In w (dom d v) /\ String.length w = var_length v).
Proof.
  intros H. exists (node_filter d).
  assert (D : forall v w, In w (dom (node_filter d) v) <->
                          In w (dom d v) /\ String.length w = var_length v).
  { intros v w. unfold dom. rewrite node_filter_get.
    destruct (dict_get var_eqb d v); simpl.
    - rewrite filter_In, Nat.eqb_eq. tauto.
    - tauto. }
  split; [apply enforce_node_consistency_run; exact H|].
  split; [apply node_filter_keys|].
  split; [|exact D].
  intros v w I. apply D in I. tauto.
Qed.

(** [revise] returns normally on a node-consistent store of a well-formed
    puzzle. *)
Lemma revise_returns cw x y d :
  wf_crossword cw = true -> store_ok d = true -> node_consistent d = true ->
  In x (dict_keys d) -> In y (dict_keys d) ->
  exists changed d', revise cw x y d = Ok (changed, d').
Proof.
  intros W SO NC Ix Iy. unfold revise.
  destruct (overlaps cw x y) as [[ox oy]|] eqn:E; [|unfold ret; eauto].
  destruct (overlaps_wf _ _ _ _ _ W E) as [_ [_ [_ [Bx [By _]]]]].
  destruct (dict_get_some _ var_eqb_spec d x Ix) as [xs Gx].
  destruct (dict_get_some _ var_eqb_spec d y Iy) as [ys Gy].
  assert (Dy : dom d y = ys) by (unfold dom; rewrite Gy; reflexivity).
  erewrite bind_ok; [|apply domain_of_ok; exact Gx].
  erewrite bind_ok.
  2:{ apply revise_scan_run. apply Forall_forall. intros xw I.
      rewrite Dy. split; auto. apply revise_inner_total.
      - rewrite (node_consistent_domain d x xs xw NC Gx I). exact Bx.
      - intros yw J. rewrite (node_consistent_domain d y ys yw NC Gy J).
        exact By. }
  simpl. erewrite bind_ok.
  2:{ apply (for_each_remove x _ d xs Gx).
      - apply NoDup_filter. apply (store_ok_domain d x xs SO Gx).
      - intros a Ha. apply filter_In in Ha. tauto. }
  unfold ret. eauto.
Qed.

Lemma forallb_filter_same {A} (p : A -> bool) l : forallb p (filter p l) = true.
Proof.
  apply forallb_forall. intros a I. apply filter_In in I. tauto.
Qed.

Lemma filter_negb_filter {A} (p : A -> bool) l :
  filter (fun a => negb (p a)) (filter p l) = [].
Proof.
  induction l as [|a l IH]; simpl; auto.
  destruct (p a) eqn:E; simpl; auto. rewrite E. simpl. exact IH.
Qed.

(** A second [revise] right after a first one finds nothing to remove. *)
Lemma revise_again cw x y d changed d' :
  wf_crossword cw = true ->
  revise cw x y d = Ok (changed, d') ->
  revise cw x y d' = Ok (false, d').
Proof.
  intros W H. pose proof (revise_inv _ _ _ _ _ _ H) as I.
  unfold revise. destruct (overlaps cw x y) as [[ox oy]|] eqn:E.
  - destruct I as [xs [Gx [-> [_ HF]]]].
    destruct (overlaps_wf _ _ _ _ _ W E) as [N _].
    set (xs' := filter (supported ox oy (dom d y)) xs).
    erewrite bind_ok.
    2:{ apply domain_of_ok. apply (dict_get_set_same _ var_eqb_spec). }
    erewrite bind_ok.
    2:{ apply revise_scan_run. rewrite dom_set_other by exact N.
        rewrite (dict_get_set_other _ var_eqb_spec) by exact N.
        apply Forall_forall. intros xw J. unfold xs' in J.
        apply filter_In in J. destruct J as [J _].
        rewrite Forall_forall in HF. apply HF; exact J. }
    rewrite dom_set_other by exact N. simpl.
    unfold xs', unsupported.
    rewrite forallb_filter_same, filter_negb_filter. reflexivity.
  - destruct I as [_ ->]. reflexivity.
Qed.

(** C7.  Whenever [revise(x, y)] returns: it never adds a word to
    [domain[x]] and touches no other domain; with an overlap entry
    [(ox, oy)] the words left in [domain[x]] are exactly those with a
    supporting match in [domain[y]] at the overlap offsets, and the result
    tells whether some word was removed; without an overlap entry the store
    is unchanged and the result is [False]; and a second call right after
    removes nothing and returns [False]. *)
Theorem revise_spec (cw : Crossword) (x y : Var) (d d' : domains)
        (changed : bool) :
  wf_crossword cw = true ->
  revise cw x y d = Ok (changed, d') ->
  (forall w, In w (dom d' x) -> In w (dom d x))
  /\ (forall v, v <> x -> dict_get var_eqb d' v = dict_get var_eqb d v)
  /\ dict_keys d' = dict_keys d
  /\ (forall ox oy, overlaps cw x y = Some (ox, oy) ->
        dom d' x = filter (supported ox oy (dom d y)) (dom d x)
        /\ (forall w, In w (dom d' x) <->
              In w (dom d x)
              /\ exists yw c, In yw (dom d y)
                              /\ String.get ox w = Some c
                              /\ String.get oy yw = Some c)
        /\ (changed = true <-> dom d' x <> dom d x))
  /\ (overlaps cw x y = None -> d' = d /\ changed = false)
  /\ revise cw x y d' = Ok (false, d').
Proof.
  intros W H. pose proof (revise_again _ _ _ _ _ _ W H) as Again.
  pose proof (revise_inv _ _ _ _ _ _ H) as I.
  destruct (overlaps cw x y) as [[ox oy]|] eqn:E.
  - destruct I as [xs [Gx [-> [-> _]]]].
    assert (Dx : dom d x = xs) by (unfold dom; rewrite Gx; reflexivity).
    rewrite dom_set_same, Dx.
    split; [intros w J; apply filter_In in J; tauto|].
    split; [intros v N; apply (dict_get_set_other _ var_eqb_spec); auto|].
    split; [apply (dict_keys_set_present _ _ _ _ Gx)|].
    split; [|split; [discriminate|exact Again]].
    intros ox' oy' Eo. inversion Eo; subst ox' oy'.
    split; [reflexivity|]. split.
    + intros w. rewrite filter_In, supported_iff. tauto.
    + rewrite negb_true_iff. split.
      * intros F Q. rewrite <- Q, forallb_filter_same in F. discriminate.
      * intros Q. destruct (forallb (supported ox oy (dom d y)) xs) eqn:F; auto.
        exfalso. apply Q. apply forallb_filter_id. exact F.
  - destruct I as [-> ->].
    split; [auto|]. split; [auto|]. split; [auto|].
    split; [discriminate|]. split; [auto|exact Again].
Qed.

(* ------------------------------------------------------------------ *)
(** * Fuel is never the reason a method stops *)

Lemma osafe_ok {A} (a : A) : osafe (Ok a).
Proof. discriminate. Qed.

Lemma osafe_raise {A} e : osafe (@Raise A e).
Proof. discriminate. Qed.

Lemma osafe_obind {A B} (m : outcome A) (k : A -> outcome B) :
  osafe m -> (forall a, osafe (k a)) -> osafe (obind m k).
Proof. unfold osafe. destruct m; simpl; auto; congruence. Qed.

Lemma osafe_ofold {A S} (body : S -> A -> outcome S) l :
  (forall s a, osafe (body s a)) -> forall s, osafe (ofold l s body).
Proof.
  intros H. induction l as [|a l IH]; simpl; intros s.
  - apply osafe_ok.
  - apply osafe_obind; auto.
Qed.

Lemma osafe_char_at w k : osafe (char_at w k).
Proof. unfold char_at. destruct (String.get k w); discriminate. Qed.

Lemma osafe_dict_item {K V} (eqb : K -> K -> bool) (d : @dict K V) k :
  osafe (dict_item eqb d k).
Proof. unfold dict_item. destruct (dict_get eqb d k); discriminate. Qed.

Lemma osafe_dict_pop {K V} (eqb : K -> K -> bool) (d : @dict K V) k :
  osafe (dict_pop eqb d k).
Proof. unfold dict_pop. destruct (dict_mem eqb d k); discriminate. Qed.

Lemma osafe_py_min {K} (d : list (K * nat)) : osafe (py_min d).
Proof. destruct d as [|[k v] d]; discriminate. Qed.

Lemma osafe_py_max {K} (d : list (K * nat)) : osafe (py_max d).
Proof. destruct d as [|[k v] d]; discriminate. Qed.

Lemma safe_ret {A} (a : A) : safe (ret a).
Proof. intros d. discriminate. Qed.

Lemma safe_bind {A B} (m : M A) (k : A -> M B) :
  safe m -> (forall a, safe (k a)) -> safe (bind m k).
Proof.
  unfold safe, bind. intros Hm Hk d.
  specialize (Hm d). destruct (m d) as [[a d']| |]; auto. discriminate.
Qed.

Lemma safe_lift {A} (o : outcome A) : osafe o -> safe (lift o).
Proof. unfold safe, lift, osafe. intros H d. destruct o; congruence. Qed.

Lemma safe_domain_of x : safe (domain_of x).
Proof.
  intros d. unfold domain_of. destruct (dict_get var_eqb d x); discriminate.
Qed.

Lemma safe_domain_remove x w : safe (domain_remove x w).
Proof.
  intros d. unfold domain_remove.
  destruct (dict_get var_eqb d x); [|discriminate].
  destruct (set_mem w l); discriminate.
Qed.

Lemma safe_domain_keys : safe domain_keys.
Proof. intros d. discriminate. Qed.

Lemma safe_domain_count : safe domain_count.
Proof. intros d. discriminate. Qed.

Lemma safe_for_each {A} (body : A -> M unit) l :
  (forall a, safe (body a)) -> safe (for_each l body).
Proof.
  intros H. induction l as [|a l IH]; simpl.
  - apply safe_ret.
  - apply safe_bind; auto.
Qed.

Lemma safe_for_fold {A S} (body : S -> A -> M S) l :
  (forall s a, safe (body s a)) -> forall s, safe (for_fold l s body).
Proof.
  intros H. induction l as [|a l IH]; simpl; intros s.
  - apply safe_ret.
  - apply safe_bind; auto.
Qed.

Create HintDb safe.
#[export] Hint Resolve osafe_ok osafe_raise osafe_char_at osafe_dict_item
  osafe_dict_pop osafe_py_min osafe_py_max safe_ret safe_domain_of
  safe_domain_remove safe_domain_keys safe_domain_count : safe.

Ltac safe_step :=
  first
    [ apply safe_bind; [|intros ?]
    | apply safe_for_each; intros ?
    | apply safe_for_fold; intros ? ?
    | apply safe_lift
    | apply osafe_obind; [|intros ?]
    | apply osafe_ofold; intros ? ?
    | solve [auto with safe] ].

Lemma safe_revise cw x y : safe (revise cw x y).
Proof.
  unfold revise. destruct (overlaps cw x y) as [[ox oy]|]; [|auto with safe].
  unfold revise_inner. repeat safe_step.
Qed.

Lemma safe_enforce_node_consistency : safe enforce_node_consistency.
Proof. unfold enforce_node_consistency. repeat safe_step. Qed.

(* ------------------------------------------------------------------ *)
(** * ac3 *)

Lemma ac3_step_inv cw a rest d r d' :
  ac3_step cw a rest d = Ok (r, d') ->
  exists changed,
    revise cw (fst a) (snd a) d = Ok (changed, d')
    /\ (changed = false -> r = Some rest)
    /\ (changed = true ->
        exists xs, dict_get var_eqb d' (fst a) = Some xs
                   /\ r = if List.length xs =? 0 then None
                          else Some (requeue cw (fst a) (snd a) rest)).
Proof.
  unfold ac3_step. intros H.
  apply bind_inv in H. destruct H as [changed [d1 [R H]]].
  destruct changed.
  - apply bind_inv in H. destruct H as [xs [d2 [Hx H]]].
    apply domain_of_inv in Hx. destruct Hx as [Hx ->].
    exists true.
    destruct (List.length xs =? 0) eqn:E; inversion H; subst;
      (split; [exact R|split; [discriminate|]]);
      intros _; exists xs; rewrite E; auto.
  - inversion H; subst. exists false.
    split; [exact R|split; [reflexivity|discriminate]].
Qed.

(** The loop answers [False] only right after reading an empty
    [self.domains[x]]. *)
Lemma ac3_loop_false cw : forall fuel arc_list d d',
  ac3_loop cw fuel arc_list d = Ok (false, d') ->
  exists x, dict_get var_eqb d' x = Some [].
Proof.
  induction fuel as [|fuel IH]; intros [|a rest] d d' H; simpl in H;
    try discriminate.
  apply bind_inv in H. destruct H as [r [d1 [St H]]].
  destruct r as [al|].
  - apply IH in H. exact H.
  - inversion H; subst d1; clear H.
    apply ac3_step_inv in St. destruct St as [changed [_ [Hf Ht]]].
    destruct changed; [|specialize (Hf eq_refl); discriminate].
    destruct (Ht eq_refl) as [xs [G E]].
    destruct xs as [|w xs]; [|discriminate].
    exists (fst a). exact G.
Qed.

Lemma ac3_false_inv cw arcs d d' :
  ac3 cw arcs d = Ok (false, d') ->
  exists x, In x (dict_keys d') /\ dict_get var_eqb d' x = Some [].
Proof.
  unfold ac3. intros H.
  apply bind_inv in H. destruct H as [al [d1 [_ H]]].
  apply ac3_loop_false in H. destruct H as [x G].
  exists x. split; auto.
  apply (dict_mem_in _ var_eqb_spec). unfold dict_mem. rewrite G. reflexivity.
Qed.

(** C6.  Whatever the initial arcs, when [ac3] returns [False] some
    variable's domain is empty in the store it leaves. *)
Theorem ac3_false_empty_domain (cw : Crossword) (arcs : option (list arc))
        (d d' : domains) :
  ac3 cw arcs d = Ok (false, d') ->
  exists x, In x (dict_keys d') /\ dict_get var_eqb d' x = Some [].
Proof.
  intros H. destruct (ac3_false_inv cw arcs d d' H) as [x [I G]].
  exists x. split; [exact I|exact G].
Qed.

(** ** Termination of the worklist loop *)

Lemma total_size_set (d : domains) x xs xs' :
  dict_get var_eqb d x = Some xs ->
  total_size (dict_set var_eqb d x xs') + List.length xs =
  total_size d + List.length xs'.
Proof.
  induction d as [|[k v] d IH]; simpl; [discriminate|].
  destruct (var_eqb_spec k x); intros H.
  - inversion H; subst. simpl. lia.
  - simpl. specialize (IH H). lia.
Qed.

Lemma filter_length_lt {A} (p : A -> bool) l :
  forallb p l = false -> List.length (filter p l) < List.length l.
Proof.
  induction l as [|a l IH]; simpl; [discriminate|].
  destruct (p a); simpl; intros H.
  - apply IH in H. lia.
  - pose proof (filter_length_le p l). lia.
Qed.

Lemma revise_measure cw x y d changed d' :
  revise cw x y d = Ok (changed, d') ->
  dict_keys d' = dict_keys d
  /\ total_size d' + (if changed then 1 else 0) <= total_size d
  /\ (changed = true -> In x (dict_keys d)).
Proof.
  intros H. apply revise_inv in H.
  destruct (overlaps cw x y) as [[ox oy]|].
  - destruct H as [xs [G [-> [-> _]]]].
    split; [apply (dict_keys_set_present _ _ _ _ G)|].
    pose proof (total_size_set d x xs
                  (filter (supported ox oy (dom d y)) xs) G) as T.
    split.
    + destruct (forallb (supported ox oy (dom d y)) xs) eqn:F; simpl.
      * pose proof (filter_length_le (supported ox oy (dom d y)) xs). lia.
      * pose proof (filter_length_lt _ _ F). lia.
    + intros _. apply (dict_mem_in _ var_eqb_spec).
      unfold dict_mem. rewrite G. reflexivity.
  - destruct H as [-> ->]. split; auto. split; [lia|discriminate].
Qed.

Lemma requeue_length cw x y : forall arc_list,
  List.length (requeue cw x y arc_list)
  <= List.length arc_list + List.length (neighbors cw x).
Proof.
  unfold requeue. induction (neighbors cw x) as [|v l IH]; simpl; intros al.
  - lia.
  - specialize (IH (if negb (var_eqb v y) then (x, v) :: al else al)).
    destruct (negb (var_eqb v y)); simpl in IH; lia.
Qed.

Lemma list_max_in (f : Var -> nat) l x :
  In x l -> f x <= list_max (map f l).
Proof.
  induction l as [|a l IH]; simpl; [tauto|].
  intros [->|I]; [lia|]. specialize (IH I). lia.
Qed.

Lemma max_degree_keys cw d d' :
  dict_keys d' = dict_keys d -> max_degree cw d' = max_degree cw d.
Proof. unfold max_degree. intros ->. reflexivity. Qed.

Lemma safe_ac3_step cw a rest : safe (ac3_step cw a rest).
Proof.
  unfold ac3_step. apply safe_bind; [apply safe_revise|].
  intros [|]; repeat safe_step.
  destruct (_ =? _); auto with safe.
Qed.

Lemma ac3_loop_terminates cw : forall fuel arc_list d,
  ac3_budget cw arc_list d <= fuel ->
  ac3_loop cw fuel arc_list d <> OutOfFuel.
Proof.
  unfold ac3_budget.
  induction fuel as [|fuel IH]; intros [|a rest] d B; simpl;
    try discriminate.
  - simpl in B. lia.
  - unfold bind.
    destruct (ac3_step cw a rest d) as [[r d1]| |] eqn:St;
      [|discriminate|exfalso; exact (safe_ac3_step cw a rest d St)].
    destruct r as [al|]; [|discriminate].
    apply IH.
    apply ac3_step_inv in St. destruct St as [changed [R [Hf Ht]]].
    apply revise_measure in R. destruct R as [K [T I]].
    rewrite (max_degree_keys cw _ _ K).
    destruct changed.
    + specialize (I eq_refl). destruct (Ht eq_refl) as [xs [_ E]].
      destruct (List.length xs =? 0); inversion E; subst al.
      pose proof (requeue_length cw (fst a) (snd a) rest) as L.
      assert (Dg : List.length (neighbors cw (fst a)) <= max_degree cw d)
        by (unfold max_degree;
            apply (list_max_in (fun x => List.length (neighbors cw x))); exact I).
      simpl in B. nia.
    + specialize (Hf eq_refl). inversion Hf; subst al.
      simpl in B. nia.
Qed.

(** [ac3] always stops: it returns a result or raises. *)
Lemma ac3_terminates cw arcs d : ac3 cw arcs d <> OutOfFuel.
Proof.
  unfold ac3, bind.
  destruct arcs as [al|]; simpl; apply ac3_loop_terminates; lia.
Qed.

(* ------------------------------------------------------------------ *)
(** * Loop rules for code that only reads the store *)

Lemma for_fold_pres {A S} (I : S -> Prop) (body : S -> A -> M S) d l :
  (forall s a s' d', In a l -> I s -> body s a d = Ok (s', d') ->
                     d' = d /\ I s') ->
  forall s s' d', I s -> for_fold l s body d = Ok (s', d') -> d' = d /\ I s'.
Proof.
  induction l as [|a l IH]; simpl; intros Hb s s' d' Hs H.
  - inversion H; subst; auto.
  - apply bind_inv in H. destruct H as [s1 [d1 [H1 H2]]].
    destruct (Hb s a s1 d1 (or_introl eq_refl) Hs H1) as [-> Hs1].
    apply (IH (fun s0 a0 s0' d0' I0 => Hb s0 a0 s0' d0' (or_intror I0))
              s1 s' d' Hs1 H2).
Qed.

Lemma for_fold_total {A S} (I : S -> Prop) (body : S -> A -> M S) d l :
  (forall s a, In a l -> I s -> exists s', body s a d = Ok (s', d) /\ I s') ->
  forall s, I s -> exists s', for_fold l s body d = Ok (s', d) /\ I s'.
Proof.
  induction l as [|a l IH]; simpl; intros Hb s Hs.
  - exists s. auto.
  - destruct (Hb s a (or_introl eq_refl) Hs) as [s1 [H1 Hs1]].
    erewrite bind_ok; [|exact H1].
    apply IH; auto.
Qed.

Lemma ofold_pres {A S} (I : S -> Prop) (body : S -> A -> outcome S) l :
  (forall s a s', In a l -> I s -> body s a = Ok s' -> I s') ->
  forall s s', I s -> ofold l s body = Ok s' -> I s'.
Proof.
  induction l as [|a l IH]; simpl; intros Hb s s' Hs H.
  - inversion H; subst; auto.
  - apply obind_inv in H. destruct H as [s1 [H1 H2]].
    apply (IH (fun s0 a0 s0' I0 => Hb s0 a0 s0' (or_intror I0)) s1 s'); auto.
    apply (Hb s a s1); auto.
Qed.

Lemma ofold_total {A S} (I : S -> Prop) (body : S -> A -> outcome S) l :
  (forall s a, In a l -> I s -> exists s', body s a = Ok s' /\ I s') ->
  forall s, I s -> exists s', ofold l s body = Ok s' /\ I s'.
Proof.
  induction l as [|a l IH]; simpl; intros Hb s Hs.
  - exists s. auto.
  - destruct (Hb s a (or_introl eq_refl) Hs) as [s1 [H1 Hs1]].
    rewrite H1. simpl. apply IH; auto.
Qed.

(* ------------------------------------------------------------------ *)
(** * min and max over a dictionary of counters *)

Section MinMaxFacts.
Context {K : Type}.

Lemma first_min_spec (d : list (K * nat)) : forall k v,
  exists m, In (first_min k v d, m) ((k, v) :: d)
            /\ forall k2 v2, In (k2, v2) ((k, v) :: d) -> m <= v2.
Proof.
  induction d as [|[k' v'] d IH]; simpl; intros k v.
  - exists v. split; auto. intros k2 v2 [E|[]]. inversion E; lia.
  - destruct (Nat.ltb_spec v' v).
    + destruct (IH k' v') as [m [I L]]. exists m. split.
      * simpl in I. tauto.
      * intros k2 v2 [E|[E|E]].
        -- inversion E; subst. specialize (L k' v' (or_introl eq_refl)). lia.
        -- apply (L k2 v2). left; auto.
        -- apply (L k2 v2). right; auto.
    + destruct (IH k v) as [m [I L]]. exists m. split.
      * simpl in I. tauto.
      * intros k2 v2 [E|[E|E]].
        -- apply (L k2 v2). left; auto.
        -- inversion E; subst. specialize (L k v (or_introl eq_refl)). lia.
        -- apply (L k2 v2). right; auto.
Qed.

Lemma py_min_spec (d : list (K * nat)) k :
  py_min d = Ok k ->
  exists m, In (k, m) d /\ forall k2 v2, In (k2, v2) d -> m <= v2.
Proof.
  destruct d as [|[k0 v0] d]; simpl; [discriminate|].
  intros H; inversion H; subst. apply first_min_spec.
Qed.

Lemma py_min_ok (d : list (K * nat)) : d <> [] -> exists k, py_min d = Ok k.
Proof. destruct d as [|[k0 v0] d]; simpl; [congruence|eauto]. Qed.

Lemma first_max_in (d : list (K * nat)) : forall k v,
  In (first_max k v d) (k :: map fst d).
Proof.
  induction d as [|[k' v'] d IH]; simpl; intros k v; auto.
  destruct (v <? v').
  - destruct (IH k' v'); auto.
  - destruct (IH k v); auto.
Qed.

Lemma py_max_in (d : list (K * nat)) k : py_max d = Ok k -> In k (map fst d).
Proof.
  destruct d as [|[k0 v0] d]; simpl; [discriminate|].
  intros H; inversion H; subst. apply (first_max_in d k0 v0).
Qed.

Lemma py_max_ok (d : list (K * nat)) : d <> [] -> exists k, py_max d = Ok k.
Proof. destruct d as [|[k0 v0] d]; simpl; [congruence|eauto]. Qed.
End MinMaxFacts.

Section DictFacts2.
Context {K V : Type}.
Variable eqb : K -> K -> bool.
Hypothesis eqb_spec : forall a b, reflect (a = b) (eqb a b).

Lemma dict_set_in (d : @dict K V) k v e :
  In e (dict_set eqb d k v) -> In e d \/ e = (k, v).
Proof.
  induction d as [|[k' v'] d IH]; simpl.
  - intros [E|[]]; auto.
  - destruct (eqb_spec k' k); simpl.
    + subst. intros [E|E]; auto.
    + intros [E|E]; auto. apply IH in E. tauto.
Qed.

Lemma dict_set_keys_incl (d : @dict K V) k v :
  incl (dict_keys d) (dict_keys (dict_set eqb d k v)).
Proof.
  rewrite (dict_keys_set _ eqb_spec). destruct (dict_mem eqb d k).
  - apply incl_refl.
  - apply incl_appl, incl_refl.
Qed.

Lemma dict_set_key_in (d : @dict K V) k v :
  In k (dict_keys (dict_set eqb d k v)).
Proof.
  apply (dict_mem_in _ eqb_spec). unfold dict_mem.
  rewrite (dict_get_set_same _ eqb_spec). reflexivity.
Qed.

Lemma dict_set_nodup (d : @dict K V) k v :
  NoDup (dict_keys d) -> NoDup (dict_keys (dict_set eqb d k v)).
Proof.
  intros ND. rewrite (dict_keys_set _ eqb_spec).
  destruct (dict_mem eqb d k) eqn:E; auto.
  apply (dict_mem_false _ eqb_spec) in E.
  apply NoDup_app; auto.
  - constructor; [intros []|constructor].
  - intros x I [J|[]]. subst. contradiction.
Qed.

Lemma dict_set_length (d : @dict K V) k v :
  List.length d <= List.length (dict_set eqb d k v).
Proof.
  induction d as [|[k' v'] d IH]; simpl; [lia|].
  destruct (eqb k' k); simpl; lia.
Qed.

Lemma dict_item_inv (d : @dict K V) k v :
  dict_item eqb d k = Ok v -> dict_get eqb d k = Some v.
Proof.
  unfold dict_item. destruct (dict_get eqb d k); [|discriminate].
  intros H; inversion H; reflexivity.
Qed.

Lemma dict_pop_inv (d d' : @dict K V) k :
  dict_pop eqb d k = Ok d' ->
  d' = dict_remove eqb d k /\ In k (dict_keys d).
Proof.
  unfold dict_pop. destruct (dict_mem eqb d k) eqn:E; [|discriminate].
  intros H; inversion H. split; auto. apply (dict_mem_in _ eqb_spec); auto.
Qed.

Lemma dict_pop_ok (d : @dict K V) k :
  In k (dict_keys d) -> dict_pop eqb d k = Ok (dict_remove eqb d k).
Proof.
  intros I. unfold dict_pop.
  apply (dict_mem_in _ eqb_spec) in I. rewrite I. reflexivity.
Qed.

Lemma dict_item_ok (d : @dict K V) k :
  In k (dict_keys d) -> exists v, dict_item eqb d k = Ok v.
Proof.
  intros I. destruct (dict_get_some _ eqb_spec d k I) as [v G].
  exists v. unfold dict_item. rewrite G. reflexivity.
Qed.

Lemma in_dict_keys (d : @dict K V) k v : In (k, v) d -> In k (dict_keys d).
Proof. intros I. change k with (fst (k, v)). apply in_map; exact I. Qed.

Lemma dict_keys_set_mem (d : @dict K V) k v0 v :
  dict_get eqb d k = Some v0 -> dict_keys (dict_set eqb d k v) = dict_keys d.
Proof.
  intros G. rewrite (dict_keys_set _ eqb_spec). unfold dict_mem.
  rewrite G. reflexivity.
Qed.
End DictFacts2.

(* ------------------------------------------------------------------ *)
(** * select_unassigned_variable *)

Lemma collect_unassigned_inv a d vars : forall uv0 uv d',
  collect_unassigned a vars uv0 d = Ok (uv, d') ->
  d' = d
  /\ (forall k n, In (k, n) uv ->
        In (k, n) uv0
        \/ (~ In k (dict_keys a) /\ In k (dict_keys d)
            /\ n = List.length (dom d k)))
  /\ (forall k, In k (dict_keys uv0)
                \/ (In k vars /\ ~ In k (dict_keys a)) ->
                In k (dict_keys uv)).
Proof.
  unfold collect_unassigned.
  induction vars as [|var vars IH]; simpl; intros uv0 uv d' H.
  - inversion H; subst. split; auto. split; auto. intros k [I|[[] _]]; auto.
  - apply bind_inv in H. destruct H as [uv1 [d1 [H1 H2]]].
    destruct (dict_mem var_eqb a var) eqn:E; simpl in H1.
    + inversion H1; subst uv1 d1; clear H1.
      apply IH in H2. destruct H2 as [-> [HA HB]].
      split; auto. split; auto.
      intros k [I|[[->|I] N]]; auto.
      apply (dict_mem_in _ var_eqb_spec) in E. contradiction.
    + apply bind_inv in H1. destruct H1 as [ws [d2 [Hw H1]]].
      apply domain_of_inv in Hw. destruct Hw as [Hw ->].
      inversion H1; subst uv1 d1; clear H1.
      apply IH in H2. destruct H2 as [-> [HA HB]].
      split; auto.
      apply (dict_mem_false _ var_eqb_spec) in E. split.
      * intros k n I. apply HA in I. destruct I as [I|I]; auto.
        apply dict_set_in in I; auto using var_eqb_spec.
        destruct I as [I|I]; auto. inversion I; subst. right.
        split; auto. split.
        -- apply (dict_mem_in _ var_eqb_spec). unfold dict_mem.
           rewrite Hw. reflexivity.
        -- unfold dom. rewrite Hw. reflexivity.
      * intros k [I|[[->|I] N]]; apply HB; auto.
        -- left. apply (dict_set_keys_incl _ var_eqb_spec); exact I.
        -- left. apply (dict_set_key_in _ var_eqb_spec).
Qed.

Lemma collect_unassigned_total a d vars :
  (forall k, In k vars -> In k (dict_keys d)) ->
  forall uv0, exists uv, collect_unassigned a vars uv0 d = Ok (uv, d).
Proof.
  unfold collect_unassigned.
  induction vars as [|var vars IH]; simpl; intros Hk uv0.
  - unfold ret. eauto.
  - destruct (dict_mem var_eqb a var); simpl.
    + apply IH. auto.
    + destruct (dict_get_some _ var_eqb_spec d var (Hk var (or_introl eq_refl)))
        as [ws G].
      erewrite bind_ok.
      2:{ erewrite bind_ok; [|apply domain_of_ok; exact G]. reflexivity. }
      apply IH. auto.
Qed.

(** Once the sentinel is gone the loop only adds variables whose count
    equals [min_domains]. *)
Lemma select_loop_keep cw : forall n uv vo m vo',
  select_loop cw n uv vo (Z.of_nat m) = Ok vo' ->
  forall k, In k (dict_keys vo') ->
            In k (dict_keys vo) \/ In (k, m) uv.
Proof.
  induction n as [|n IH]; simpl; intros uv vo m vo' H k I.
  - inversion H; subst. auto.
  - apply obind_inv in H. destruct H as [mv [Hm H]].
    apply obind_inv in H. destruct H as [mvv [Hv H]].
    apply obind_inv in H. destruct H as [uv' [Hp H]].
    apply dict_item_inv in Hv.
    apply (dict_get_in _ var_eqb_spec) in Hv.
    apply (dict_pop_inv _ var_eqb_spec) in Hp. destruct Hp as [-> _].
    destruct (Z.eqb_spec (Z.of_nat m) (-1)); [lia|].
    destruct (Z.eqb_spec (Z.of_nat m) (Z.of_nat mvv)).
    + assert (m = mvv) by lia. subst mvv.
      destruct (IH _ _ _ _ H k I) as [J|J].
      * rewrite (dict_keys_set _ var_eqb_spec) in J.
        destruct (dict_mem var_eqb vo mv); auto.
        apply in_app_or in J. destruct J as [J|[J|[]]]; auto.
        subst. auto.
      * right. apply (dict_remove_in _ var_eqb_spec) in J. exact J.
    + inversion H; subst. auto.
Qed.

Lemma select_loop_grows cw : forall n uv vo md vo',
  select_loop cw n uv vo md = Ok vo' -> List.length vo <= List.length vo'.
Proof.
  induction n as [|n IH]; simpl; intros uv vo md vo' H.
  - inversion H; subst. lia.
  - apply obind_inv in H. destruct H as [mv [Hm H]].
    apply obind_inv in H. destruct H as [mvv [Hv H]].
    apply obind_inv in H. destruct H as [uv' [Hp H]].
    pose proof (dict_set_length var_eqb vo mv
                  (List.length (neighbors cw mv))) as L.
    destruct (md =? -1)%Z; [apply IH in H; lia|].
    destruct (md =? Z.of_nat mvv)%Z; [apply IH in H; lia|].
    inversion H; subst. lia.
Qed.

Lemma select_loop_total cw : forall n uv vo md,
  n <= List.length uv -> exists vo', select_loop cw n uv vo md = Ok vo'.
Proof.
  induction n as [|n IH]; simpl; intros uv vo md L; eauto.
  destruct (py_min_ok uv) as [mv Hm]; [destruct uv; simpl in *; [lia|congruence]|].
  rewrite Hm. simpl.
  destruct (py_min_spec uv mv Hm) as [m [I _]].
  pose proof (in_dict_keys uv mv m I) as Ik.
  destruct (dict_item_ok _ var_eqb_spec uv mv Ik) as [mvv Hv].
  rewrite Hv. simpl.
  rewrite (dict_pop_ok _ var_eqb_spec uv mv Ik). simpl.
  assert (L' : n <= List.length (dict_remove var_eqb uv mv)).
  { apply (dict_mem_in _ var_eqb_spec) in Ik.
    pose proof (dict_remove_length _ var_eqb_spec uv mv Ik). lia. }
  destruct (md =? -1)%Z; [apply IH; exact L'|].
  destruct (md =? Z.of_nat mvv)%Z; [apply IH; exact L'|eauto].
Qed.

(** The options kept by the loop are variables of minimal count. *)
Lemma select_loop_min cw n uv vo' :
  NoDup (dict_keys uv) ->
  select_loop cw n uv [] (-1) = Ok vo' ->
  forall k, In k (dict_keys vo') ->
    exists m, In (k, m) uv /\ forall k2 m2, In (k2, m2) uv -> m <= m2.
Proof.
  intros ND H k I. destruct n as [|n]; simpl in H.
  - inversion H; subst. destruct I.
  - apply obind_inv in H. destruct H as [mv [Hm H]].
    apply obind_inv in H. destruct H as [mvv [Hv H]].
    apply obind_inv in H. destruct H as [uv' [Hp H]].
    apply (dict_pop_inv _ var_eqb_spec) in Hp. destruct Hp as [-> _].
    apply dict_item_inv in Hv.
    destruct (py_min_spec uv mv Hm) as [m [Im Lm]].
    rewrite (in_dict_get _ var_eqb_spec uv mv m ND Im) in Hv.
    inversion Hv; subst mvv.
    simpl in H. exists m.
    destruct (select_loop_keep _ _ _ _ _ _ H k I) as [J|J].
    + simpl in J. destruct J as [<-|[]]. auto.
    + apply (dict_remove_in _ var_eqb_spec) in J. auto.
Qed.

Lemma collect_unassigned_nodup a d vars : forall uv0 uv d',
  NoDup (dict_keys uv0) ->
  collect_unassigned a vars uv0 d = Ok (uv, d') -> NoDup (dict_keys uv).
Proof.
  intros uv0 uv d' ND H.
  apply (for_fold_pres (fun uv => NoDup (dict_keys uv)) _ d vars) in H; auto.
  - tauto.
  - intros s v s' d1 _ Hs Hb.
    destruct (negb (dict_mem var_eqb a v)).
    + apply bind_inv in Hb. destruct Hb as [ws [d2 [Hw Hb]]].
      apply domain_of_inv in Hw. destruct Hw as [_ ->].
      inversion Hb; subst. split; auto.
      apply (dict_set_nodup _ var_eqb_spec); exact Hs.
    + inversion Hb; subst. auto.
Qed.

(** What a normal return of the selection gives: an unassigned variable of
    the store with the fewest remaining values. *)
Lemma select_inv cw a d v d' :
  select_unassigned_variable cw a d = Ok (v, d') ->
  d' = d /\ In v (dict_keys d) /\ ~ In v (dict_keys a)
  /\ forall x, In x (dict_keys d) -> ~ In x (dict_keys a) ->
               List.length (dom d v) <= List.length (dom d x).
Proof.
  unfold select_unassigned_variable. intros H.
  apply bind_inv in H. destruct H as [vars [d1 [Hk H]]].
  inversion Hk; subst vars d1; clear Hk.
  apply bind_inv in H. destruct H as [uv [d1 [Hc H]]].
  pose proof (collect_unassigned_nodup a d (dict_keys d) [] uv d1
                (NoDup_nil _) Hc) as ND.
  apply collect_unassigned_inv in Hc. destruct Hc as [-> [HA HB]].
  apply bind_inv in H. destruct H as [vo [d1 [Hl H]]].
  apply lift_inv in Hl. destruct Hl as [Hl ->].
  apply lift_inv in H. destruct H as [Hmax ->].
  apply py_max_in in Hmax.
  destruct (select_loop_min _ _ _ _ ND Hl v Hmax) as [m [Im Lm]].
  destruct (HA v m Im) as [[]|[Na [Id Em]]].
  split; auto. split; auto. split; auto.
  intros x Ix Nx.
  assert (Jx : In x (dict_keys uv)) by (apply HB; right; auto).
  destruct (dict_get_some _ var_eqb_spec uv x Jx) as [n Gn].
  apply (dict_get_in _ var_eqb_spec) in Gn.
  specialize (Lm x n Gn).
  destruct (HA x n Gn) as [[]|[_ [_ En]]]. lia.
Qed.

Lemma select_total cw a d :
  (exists x, In x (dict_keys d) /\ ~ In x (dict_keys a)) ->
  exists v, select_unassigned_variable cw a d = Ok (v, d).
Proof.
  intros [x [Ix Nx]]. unfold select_unassigned_variable.
  erewrite bind_ok; [|reflexivity].
  destruct (collect_unassigned_total a d (dict_keys d) (fun k I => I) [])
    as [uv Hc].
  erewrite bind_ok; [|exact Hc].
  apply collect_unassigned_inv in Hc. destruct Hc as [_ [_ HB]].
  assert (Jx : In x (dict_keys uv)) by (apply HB; right; auto).
  destruct (select_loop_total cw (List.length uv) uv [] (-1)%Z (le_n _))
    as [vo Hl].
  erewrite bind_ok; [|apply lift_ok; exact Hl].
  assert (Nvo : vo <> []).
  { destruct uv as [|e uv]; [destruct Jx|].
    simpl in Hl.
    apply obind_inv in Hl. destruct Hl as [mv [_ Hl]].
    apply obind_inv in Hl. destruct Hl as [mvv [_ Hl]].
    apply obind_inv in Hl. destruct Hl as [uv' [_ Hl]].
    simpl in Hl. apply select_loop_grows in Hl.
    destruct vo; simpl in Hl; [lia|congruence]. }
  destruct (py_max_ok vo Nvo) as [v Hv].
  exists v. apply lift_ok. exact Hv.
Qed.

(* ------------------------------------------------------------------ *)
(** * order_domain_values *)

Lemma init_counter_keys ws : forall ud w,
  In w (dict_keys (init_counter ws ud)) -> In w (dict_keys ud) \/ In w ws.
Proof.
  unfold init_counter.
  induction ws as [|a ws IH]; simpl; intros ud w I; auto.
  apply IH in I. destruct I as [I|I]; auto.
  rewrite (dict_keys_set _ word_eqb_spec) in I.
  match type of I with
  | context [if ?b then _ else _] => destruct b
  end; auto.
  apply in_app_or in I. destruct I as [I|[I|[]]]; auto.
Qed.

Lemma count_conflict_keys overlap ud w nw ud' :
  count_conflict overlap ud w nw = Ok ud' -> dict_keys ud' = dict_keys ud.
Proof.
  unfold count_conflict. destruct overlap as [[o0 o1]|]; [|discriminate].
  intros H.
  apply obind_inv in H. destruct H as [c0 [_ H]].
  apply obind_inv in H. destruct H as [c1 [_ H]].
  destruct (negb (Ascii.eqb c0 c1)).
  - apply obind_inv in H. destruct H as [n [Hn H]].
    inversion H; subst. apply dict_item_inv in Hn.
    apply (dict_keys_set_mem _ word_eqb_spec _ _ _ _ Hn).
  - inversion H; reflexivity.
Qed.

Lemma count_conflict_ok o0 o1 ud w nw :
  o0 < String.length w -> o1 < String.length nw -> In w (dict_keys ud) ->
  exists ud', count_conflict (Some (o0, o1)) ud w nw = Ok ud'.
Proof.
  intros H0 H1 I. unfold count_conflict.
  destruct (char_at_ok w o0 H0) as [c0 ->].
  destruct (char_at_ok nw o1 H1) as [c1 ->]. simpl.
  destruct (negb (Ascii.eqb c0 c1)); eauto.
  destruct (dict_item_ok _ word_eqb_spec ud w I) as [n ->]. simpl. eauto.
Qed.

Lemma count_neighbour_inv cw var nb ud d ud' d' :
  count_neighbour cw var nb ud d = Ok (ud', d') ->
  d' = d /\ dict_keys ud' = dict_keys ud.
Proof.
  unfold count_neighbour. intros H.
  apply (for_fold_pres (fun s => dict_keys s = dict_keys ud) _ d) in H; auto.
  intros s w s' d1 _ Hs Hb.
  apply bind_inv in Hb. destruct Hb as [nws [d2 [Hw Hb]]].
  apply domain_of_inv in Hw. destruct Hw as [_ ->].
  apply lift_inv in Hb. destruct Hb as [Hb ->]. split; auto.
  apply (ofold_pres (fun s => dict_keys s = dict_keys ud)) in Hb; auto.
  intros s0 nw s0' _ Hs0 Hc. apply count_conflict_keys in Hc. congruence.
Qed.

Lemma count_neighbour_total cw var nb o0 o1 ud d :
  overlaps cw var nb = Some (o0, o1) ->
  In nb (dict_keys d) ->
  (forall w, In w (dict_keys ud) -> o0 < String.length w) ->
  (forall nw, In nw (dom d nb) -> o1 < String.length nw) ->
  exists ud', count_neighbour cw var nb ud d = Ok (ud', d)
              /\ dict_keys ud' = dict_keys ud.
Proof.
  intros E Inb Hw Hn. unfold count_neighbour. rewrite E.
  destruct (dict_get_some _ var_eqb_spec d nb Inb) as [nws G].
  assert (Dn : dom d nb = nws) by (unfold dom; rewrite G; reflexivity).
  apply (for_fold_total (fun s => dict_keys s = dict_keys ud)); auto.
  intros s w Iw Hs.
  erewrite bind_ok; [|apply domain_of_ok; exact G].
  destruct (ofold_total (fun s => dict_keys s = dict_keys ud)
              (fun ud0 nw => count_conflict (Some (o0, o1)) ud0 w nw) nws)
    with (s := s) as [s' [Hs' Ks']]; auto.
  - intros s0 nw Inw Hs0.
    destruct (count_conflict_ok o0 o1 s0 w nw) as [s1 H1].
    + apply Hw; exact Iw.
    + apply Hn. rewrite Dn. exact Inw.
    + rewrite Hs0. exact Iw.
    + exists s1. split; auto.
      apply count_conflict_keys in H1. congruence.
  - exists s'. split; auto. apply lift_ok. exact Hs'.
Qed.

Lemma lcv_drain_in : forall fuel ud ordered res,
  lcv_drain fuel ud ordered = Ok res ->
  forall w, In w res -> In w ordered \/ In w (dict_keys ud).
Proof.
  induction fuel as [|fuel IH]; intros [|e ud] ordered res H w I;
    simpl in H; try discriminate.
  - inversion H; subst; auto.
  - inversion H; subst; auto.
  - apply obind_inv in H. destruct H as [lc [Hm H]].
    apply obind_inv in H. destruct H as [ud' [Hp H]].
    apply (dict_pop_inv _ word_eqb_spec) in Hp. destruct Hp as [-> Ik].
    destruct (IH _ _ _ H w I) as [J|J].
    + apply in_app_or in J. destruct J as [J|[J|[]]]; auto. subst. auto.
    + right. apply (dict_remove_keys_incl _ word_eqb_spec) in J. exact J.
Qed.

Lemma lcv_drain_total : forall fuel ud ordered,
  List.length ud <= fuel -> exists res, lcv_drain fuel ud ordered = Ok res.
Proof.
  induction fuel as [|fuel IH]; intros [|e ud] ordered L;
    cbn [lcv_drain]; eauto.
  - simpl in L. lia.
  - destruct (py_min_ok (e :: ud)) as [lc Hm]; [discriminate|].
    rewrite Hm. cbn [obind].
    destruct (py_min_spec _ lc Hm) as [m [I _]].
    pose proof (in_dict_keys _ lc m I) as Ik.
    rewrite (dict_pop_ok _ word_eqb_spec _ lc Ik). simpl.
    apply IH.
    apply (dict_mem_in _ word_eqb_spec) in Ik.
    pose proof (dict_remove_length _ word_eqb_spec _ lc Ik) as R.
    simpl in L, R. lia.
Qed.

Lemma order_unfold cw var a :
  order_domain_values cw var a =
  (ws <- domain_of var ;;
   unordered <-
     for_fold (neighbors cw var) (init_counter ws []) (fun ud neighbour =>
       if negb (dict_mem var_eqb a neighbour)
       then count_neighbour cw var neighbour ud
       else ret ud) ;;
   lift (lcv_drain (List.length unordered) unordered [])).
Proof. reflexivity. Qed.

(** The ordered candidates are words of the variable's domain. *)
Lemma order_inv cw var a d ws d' :
  order_domain_values cw var a d = Ok (ws, d') ->
  d' = d /\ In var (dict_keys d) /\ forall w, In w ws -> In w (dom d var).
Proof.
  rewrite order_unfold. intros H.
  apply bind_inv in H. destruct H as [ws0 [d1 [Hw H]]].
  apply domain_of_inv in Hw. destruct Hw as [Hw ->].
  apply bind_inv in H. destruct H as [ud [d1 [Hc H]]].
  apply lift_inv in H. destruct H as [Hd ->].
  apply (for_fold_pres
           (fun s => dict_keys s = dict_keys (init_counter ws0 [])) _ d)
    in Hc; auto.
  - destruct Hc as [-> Hk]. split; auto. split.
    + apply (dict_mem_in _ var_eqb_spec). unfold dict_mem. rewrite Hw.
      reflexivity.
    + intros w I. destruct (lcv_drain_in _ _ _ _ Hd w I) as [[]|J].
      rewrite Hk in J. apply init_counter_keys in J.
      destruct J as [[]|J]. unfold dom. rewrite Hw. exact J.
  - intros s nb s' d2 _ Hs Hb.
    destruct (negb (dict_mem var_eqb a nb)).
    + apply count_neighbour_inv in Hb. destruct Hb as [-> Hb].
      split; auto. congruence.
    + inversion Hb; subst. auto.
Qed.

(** An empty domain yields no candidate, and nothing faults. *)
Lemma order_empty cw var a d :
  dict_get var_eqb d var = Some [] ->
  order_domain_values cw var a d = Ok ([], d).
Proof.
  intros G. rewrite order_unfold.
  erewrite bind_ok; [|apply domain_of_ok; exact G].
  destruct (for_fold_total (fun s : @dict word nat => s = [])
              (fun ud neighbour =>
                 if negb (dict_mem var_eqb a neighbour)
                 then count_neighbour cw var neighbour ud
                 else ret ud) d (neighbors cw var))
    with (s := @nil (word * nat)) as [s' [Hs' E]]; auto.
  - intros s nb _ ->. exists []. split; auto.
    destruct (negb (dict_mem var_eqb a nb)); reflexivity.
  - simpl. erewrite bind_ok; [|exact Hs']. subst s'. reflexivity.
Qed.

(** On a node-consistent store of a well-formed puzzle the ordering
    returns. *)
Lemma order_total cw var a d :
  wf_crossword cw = true -> node_consistent d = true ->
  In var (variables cw) ->
  (forall x, In x (variables cw) -> In x (dict_keys d)) ->
  exists ws, order_domain_values cw var a d = Ok (ws, d).
Proof.
  intros W NC Iv Hk. rewrite order_unfold.
  destruct (dict_get_some _ var_eqb_spec d var (Hk var Iv)) as [ws0 G].
  erewrite bind_ok; [|apply domain_of_ok; exact G].
  set (K := dict_keys (init_counter ws0 [])).
  assert (HK : forall w, In w K -> String.length w = var_length var).
  { intros w I. apply init_counter_keys in I. destruct I as [[]|I].
    apply (node_consistent_domain d var ws0 w NC G I). }
  destruct (for_fold_total (fun s : @dict word nat => dict_keys s = K)
              (fun ud neighbour =>
                 if negb (dict_mem var_eqb a neighbour)
                 then count_neighbour cw var neighbour ud
                 else ret ud) d (neighbors cw var))
    with (s := init_counter ws0 []) as [ud [Hud _]]; auto.
  - intros s nb Inb Hs.
    destruct (negb (dict_mem var_eqb a nb)); [|exists s; auto].
    destruct (neighbors_wf cw var nb W Iv Inb) as [Jnb [o0 [o1 E]]].
    destruct (overlaps_wf _ _ _ _ _ W E) as [_ [_ [_ [B0 [B1 _]]]]].
    destruct (count_neighbour_total cw var nb o0 o1 s d E (Hk nb Jnb))
      as [s' [Hs' Ks']].
    + intros w I. rewrite Hs in I. rewrite (HK w I). exact B0.
    + intros nw I. unfold dom in I.
      destruct (dict_get var_eqb d nb) as [nws|] eqn:Gn; [|destruct I].
      rewrite (node_consistent_domain d nb nws nw NC Gn I). exact B1.
    + exists s'. split; auto. congruence.
  - erewrite bind_ok; [|exact Hud].
    destruct (lcv_drain_total (List.length ud) ud [] (le_n _)) as [res Hr].
    exists res. apply lift_ok. exact Hr.
Qed.

(* ------------------------------------------------------------------ *)
(** * consistent *)

Lemma char_at_inv w k c : char_at w k = Ok c -> String.get k w = Some c.
Proof.
  unfold char_at. destruct (String.get k w); [|discriminate].
  intros H; inversion H; reflexivity.
Qed.

Lemma consistent_neighbours_inv cw a var : forall nbs,
  consistent_neighbours cw a var nbs = Ok true ->
  forall nb, In nb nbs -> In nb (dict_keys a) ->
    exists o0 o1 wv wn c,
      overlaps cw var nb = Some (o0, o1)
      /\ dict_get var_eqb a var = Some wv
      /\ dict_get var_eqb a nb = Some wn
      /\ String.get o0 wv = Some c /\ String.get o1 wn = Some c.
Proof.
  induction nbs as [|n nbs IH]; simpl; intros H nb I J; [destruct I|].
  destruct (dict_mem var_eqb a n) eqn:E.
  - destruct (overlaps cw var n) as [[o0 o1]|] eqn:O; [|discriminate].
    apply obind_inv in H. destruct H as [wv [Hv H]].
    apply obind_inv in H. destruct H as [c0 [H0 H]].
    apply obind_inv in H. destruct H as [wn [Hn H]].
    apply obind_inv in H. destruct H as [c1 [H1 H]].
    destruct (Ascii.eqb c0 c1) eqn:C; simpl in H; [|discriminate].
    destruct I as [->|I]; [|apply IH; auto].
    apply Ascii.eqb_eq in C. subst c1.
    apply dict_item_inv in Hv, Hn. apply char_at_inv in H0, H1.
    exists o0, o1, wv, wn, c0. auto.
  - destruct I as [->|I]; [|apply IH; auto].
    apply (dict_mem_false _ var_eqb_spec) in E. contradiction.
Qed.

Lemma consistent_loop_inv cw a : forall todo used,
  consistent_loop cw a todo used = Ok true ->
  NoDup used ->
  exists ws,
    Forall2 (fun v w => dict_get var_eqb a v = Some w
                        /\ var_length v = String.length w
                        /\ consistent_neighbours cw a v (neighbors cw v)
                           = Ok true) todo ws
    /\ NoDup (used ++ ws).
Proof.
  induction todo as [|var todo IH]; simpl; intros used H ND.
  - exists []. rewrite app_nil_r. split; auto.
  - apply obind_inv in H. destruct H as [w [Hw H]].
    apply dict_item_inv in Hw.
    destruct (set_mem w used) eqn:E; [discriminate|].
    destruct (Nat.eqb_spec (var_length var) (String.length w)) as [L|L];
      simpl in H; [|discriminate].
    apply obind_inv in H. destruct H as [ok [Hn H]].
    destruct ok; [|discriminate].
    assert (ND' : NoDup (used ++ [w])).
    { apply NoDup_app; auto.
      - constructor; [intros []|constructor].
      - intros x I [J|[]]. subst x.
        apply set_mem_in in I. congruence. }
    destruct (IH _ H ND') as [ws [F N]].
    exists (w :: ws). split; [constructor; auto|].
    rewrite <- app_assoc in N. exact N.
Qed.

Lemma lookup_all_values (a l : assignment) : forall ws,
  (forall e, In e l -> dict_get var_eqb a (fst e) = Some (snd e)) ->
  Forall2 (fun v w => dict_get var_eqb a v = Some w) (dict_keys l) ws ->
  ws = map snd l.
Proof.
  induction l as [|e l IH]; simpl; intros ws Hl F; inversion F; subst; auto.
  rewrite (Hl e (or_introl eq_refl)) in H1. inversion H1; subst.
  f_equal. apply IH; auto.
Qed.

Lemma NoDup_map_inj {A B} (f : A -> B) l :
  NoDup (map f l) ->
  forall x y, In x l -> In y l -> f x = f y -> x = y.
Proof.
  induction l as [|a l IH]; simpl; intros ND x y Ix Iy E; [destruct Ix|].
  inversion ND; subst.
  destruct Ix as [->|Ix], Iy as [->|Iy]; auto.
  - exfalso. apply H1. rewrite E. apply in_map; exact Iy.
  - exfalso. apply H1. rewrite <- E. apply in_map; exact Ix.
Qed.

Lemma Forall2_entries {A B} (P : A -> B -> Prop) (l : list (A * B)) :
  Forall2 P (map fst l) (map snd l) -> forall v w, In (v, w) l -> P v w.
Proof.
  induction l as [|[v0 w0] l IH]; simpl; intros F v w I; [destruct I|].
  inversion F; subst. destruct I as [I|I]; auto.
  inversion I; subst. assumption.
Qed.

(** The check of the code implies consistency as the spec defines it. *)
Lemma consistent_sound cw a :
  wf_crossword cw = true -> NoDup (dict_keys a) ->
  consistent cw a = Ok true -> consistent_assignment cw a.
Proof.
  intros W ND H. unfold consistent in H.
  apply consistent_loop_inv in H; [|constructor].
  destruct H as [ws [F N]]. simpl in N.
  assert (Ews : ws = map snd a).
  { apply (lookup_all_values a a).
    - intros [v w] I. apply (in_dict_get _ var_eqb_spec); auto.
    - revert F. apply Forall2_impl. tauto. }
  subst ws.
  assert (Hall : forall v w, dict_get var_eqb a v = Some w ->
             var_length v = String.length w
             /\ consistent_neighbours cw a v (neighbors cw v) = Ok true).
  { intros v w G. pose proof (dict_get_in _ var_eqb_spec _ _ _ G) as I.
    apply (Forall2_entries _ a F v w) in I. tauto. }
  split; [|split].
  - intros x y w Gx Gy.
    apply (dict_get_in _ var_eqb_spec) in Gx, Gy.
    pose proof (NoDup_map_inj snd a N (x, w) (y, w) Gx Gy eq_refl) as E.
    inversion E; reflexivity.
  - intros v w G. destruct (Hall v w G). auto.
  - intros x y ox oy wx wy O Gx Gy.
    destruct (Hall x wx Gx) as [_ C].
    pose proof (neighbors_complete cw x y ox oy W O) as Iy.
    assert (Ky : In y (dict_keys a)).
    { apply (dict_mem_in _ var_eqb_spec). unfold dict_mem. rewrite Gy.
      reflexivity. }
    destruct (consistent_neighbours_inv cw a x _ C y Iy Ky)
      as [o0 [o1 [wv [wn [c [O' [Gv [Gn [C0 C1]]]]]]]]].
    rewrite O in O'. inversion O'; subst o0 o1.
    rewrite Gx in Gv. rewrite Gy in Gn. inversion Gv; inversion Gn; subst.
    exists c. auto.
Qed.

Lemma consistent_neighbours_total cw a var wv :
  wf_crossword cw = true -> In var (variables cw) ->
  dict_get var_eqb a var = Some wv ->
  String.length wv = var_length var ->
  (forall v w, In (v, w) a -> String.length w = var_length v) ->
  forall nbs, incl nbs (neighbors cw var) ->
    exists b, consistent_neighbours cw a var nbs = Ok b.
Proof.
  intros W Iv Gv Lv Hl.
  induction nbs as [|n nbs IH]; simpl; intros Hn; eauto.
  assert (IHn : exists b, consistent_neighbours cw a var nbs = Ok b)
    by (apply IH; intros z Iz; apply Hn; right; exact Iz).
  destruct (dict_mem var_eqb a n) eqn:E; auto.
  destruct (neighbors_wf cw var n W Iv (Hn n (or_introl eq_refl)))
    as [_ [o0 [o1 O]]].
  rewrite O.
  destruct (overlaps_wf _ _ _ _ _ W O) as [_ [_ [_ [B0 [B1 _]]]]].
  unfold dict_item. rewrite Gv. simpl.
  destruct (char_at_ok wv o0) as [c0 ->]; [lia|]. simpl.
  unfold dict_mem in E.
  destruct (dict_get var_eqb a n) as [wn|] eqn:Gn; [|discriminate]. simpl.
  pose proof (Hl n wn (dict_get_in _ var_eqb_spec _ _ _ Gn)) as Ln.
  destruct (char_at_ok wn o1) as [c1 ->]; [lia|]. simpl.
  destruct (negb (Ascii.eqb c0 c1)); eauto.
Qed.

(** [consistent] returns on assignments of right-sized words to variables
    of a well-formed puzzle. *)
Lemma consistent_total cw a :
  wf_crossword cw = true ->
  (forall v w, In (v, w) a ->
               In v (variables cw) /\ String.length w = var_length v) ->
  exists b, consistent cw a = Ok b.
Proof.
  intros W Ha. unfold consistent.
  assert (Hk : forall v, In v (dict_keys a) -> exists w, In (v, w) a
                /\ dict_get var_eqb a v = Some w).
  { intros v I. destruct (dict_get_some _ var_eqb_spec a v I) as [w G].
    exists w. split; auto. apply (dict_get_in _ var_eqb_spec); exact G. }
  revert Hk. generalize (dict_keys a) as todo. generalize (@nil string).
  intros used todo. revert used.
  induction todo as [|var todo IH]; simpl; intros used Hk; eauto.
  destruct (Hk var (or_introl eq_refl)) as [w [I G]].
  unfold dict_item. rewrite G. simpl.
  destruct (set_mem w used); eauto.
  destruct (negb (var_length var =? String.length w)); eauto.
  destruct (Ha var w I) as [Iv Lw].
  destruct (consistent_neighbours_total cw a var w W Iv G Lw
              (fun v0 w0 I0 => proj2 (Ha v0 w0 I0))
              (neighbors cw var) (incl_refl _)) as [b ->].
  simpl. destruct b; eauto.
Qed.

(* ------------------------------------------------------------------ *)
(** * backtrack *)

Lemma dom_in_keys d v w : In w (dom d v) -> In v (dict_keys d).
Proof.
  unfold dom. destruct (dict_get var_eqb d v) eqn:G; [|intros []].
  intros _. apply (dict_mem_in _ var_eqb_spec). unfold dict_mem.
  rewrite G. reflexivity.
Qed.

Lemma asg_ok_nil d : asg_ok d [].
Proof. split; [constructor|intros v w []]. Qed.

Lemma asg_ok_set d a var w :
  asg_ok d a -> In w (dom d var) -> ~ In var (dict_keys a) ->
  dict_set var_eqb a var w = a ++ [(var, w)]
  /\ asg_ok d (a ++ [(var, w)]).
Proof.
  intros [ND Ha] Iw Nv.
  assert (E : dict_set var_eqb a var w = a ++ [(var, w)])
    by (apply (dict_set_fresh _ var_eqb_spec), (dict_mem_false _ var_eqb_spec);
        exact Nv).
  split; auto. split.
  - rewrite <- E. apply (dict_set_nodup _ var_eqb_spec); exact ND.
  - intros v0 w0 I. apply in_app_or in I. destruct I as [I|[I|[]]]; auto.
    inversion I; subst; auto.
Qed.

Lemma pop_after_set (a : assignment) var w :
  ~ In var (dict_keys a) ->
  dict_pop var_eqb (a ++ [(var, w)]) var = Ok a.
Proof.
  intros Nv. rewrite (dict_pop_ok _ var_eqb_spec).
  - rewrite (dict_remove_snoc _ var_eqb_spec); auto.
    apply (dict_mem_false _ var_eqb_spec); exact Nv.
  - unfold dict_keys. rewrite map_app. apply in_or_app. right. left. reflexivity.
Qed.

Lemma backtrack_try_sound cw search var :
  search_contract cw search ->
  forall cands a d r d',
    asg_ok d a -> ~ In var (dict_keys a) ->
    (forall w, In w cands -> In w (dom d var)) ->
    backtrack_try cw search var cands a d = Ok (r, d') ->
    d' = d
    /\ (snd r = None -> fst r = a)
    /\ (forall res, snd r = Some res -> solved cw d res).
Proof.
  intros HS.
  induction cands as [|w cands IH]; simpl; intros a d r d' Ha Nv Hc H.
  - inversion H; subst. simpl. split; auto. split; auto. discriminate.
  - destruct (asg_ok_set d a var w Ha (Hc w (or_introl eq_refl)) Nv)
      as [E Ha1].
    rewrite E in H.
    apply bind_inv in H. destruct H as [ok [d1 [Hk H]]].
    apply lift_inv in Hk. destruct Hk as [Hk ->].
    destruct ok; simpl in H.
    + apply bind_inv in H. destruct H as [r1 [d1 [Hr H]]].
      destruct (HS _ _ _ _ Ha1 Hk Hr) as [-> [Hn Hs]].
      destruct (snd r1) as [res|] eqn:Er.
      * inversion H; subst. simpl. split; auto. split; [discriminate|].
        intros res' Q. inversion Q; subst. apply Hs. reflexivity.
      * rewrite (Hn eq_refl) in H.
        apply bind_inv in H. destruct H as [a2 [d1 [Hp H]]].
        apply lift_inv in Hp. destruct Hp as [Hp ->].
        rewrite (pop_after_set a var w Nv) in Hp. inversion Hp; subst a2.
        apply (IH a d r d'); auto.
    + apply bind_inv in H. destruct H as [a2 [d1 [Hp H]]].
      apply lift_inv in Hp. destruct Hp as [Hp ->].
      rewrite (pop_after_set a var w Nv) in Hp. inversion Hp; subst a2.
      apply (IH a d r d'); auto.
Qed.

Lemma backtrack_unfold cw fuel a :
  backtrack cw fuel a =
  (n <- domain_count ;;
   if List.length a =? n then ret (a, Some a)
   else
     var <- select_unassigned_variable cw a ;;
     candidates <- order_domain_values cw var a ;;
     backtrack_try cw
       (match fuel with
        | 0 => fun _ _ => OutOfFuel
        | S fuel' => backtrack cw fuel'
        end) var candidates a).
Proof. destruct fuel; reflexivity. Qed.

Lemma backtrack_contract cw : forall fuel,
  search_contract cw (backtrack cw fuel).
Proof.
  assert (Step : forall search, search_contract cw search ->
            search_contract cw (fun a =>
              n <- domain_count ;;
              if List.length a =? n then ret (a, Some a)
              else
                var <- select_unassigned_variable cw a ;;
                candidates <- order_domain_values cw var a ;;
                backtrack_try cw search var candidates a)).
  { intros search HS a d r d' Ha Hk H.
    apply bind_inv in H. destruct H as [n [d1 [Hn H]]].
    inversion Hn; subst n d1; clear Hn.
    destruct (Nat.eqb_spec (List.length a) (List.length d)) as [L|L].
    - inversion H; subst. simpl. split; auto. split; [discriminate|].
      intros res Q. inversion Q; subst. repeat split; auto; apply Ha.
    - apply bind_inv in H. destruct H as [var [d1 [Hv H]]].
      apply select_inv in Hv. destruct Hv as [-> [_ [Nv _]]].
      apply bind_inv in H. destruct H as [cands [d1 [Ho H]]].
      apply order_inv in Ho. destruct Ho as [-> [_ Hc]].
      apply (backtrack_try_sound cw search var HS cands a d r d'); auto. }
  induction fuel as [|fuel IH]; intros a d r d' Ha Hk H;
    rewrite backtrack_unfold in H.
  - apply (Step (fun _ _ => OutOfFuel)) in H; auto.
    intros a0 d0 r0 d0' _ _ Q. discriminate.
  - apply (Step (backtrack cw fuel)) in H; auto.
Qed.

Lemma store_for_inv cw d :
  store_for cw d = true ->
  store_ok d = true /\ NoDup (dict_keys d)
  /\ (forall v, In v (variables cw) <-> In v (dict_keys d)).
Proof.
  unfold store_for. rewrite !andb_true_iff, !forallb_forall.
  intros [[S H1] H2]. split; auto. split; [apply store_ok_keys; exact S|].
  intros v. split; intros I.
  - apply var_in_In, H1, I.
  - apply var_in_In, H2, I.
Qed.

Lemma asg_ok_keys d a : asg_ok d a -> incl (dict_keys a) (dict_keys d).
Proof.
  intros [_ Ha] v I.
  destruct (dict_get_some _ var_eqb_spec a v I) as [w G].
  apply (dict_get_in _ var_eqb_spec) in G.
  apply (dom_in_keys d v w). apply Ha; exact G.
Qed.

Lemma solved_complete d (res : assignment) :
  NoDup (dict_keys d) -> asg_ok d res ->
  List.length res = List.length d ->
  forall v, In v (dict_keys d) -> exists w, dict_get var_eqb res v = Some w.
Proof.
  intros ND Ha L v I.
  apply (dict_get_some _ var_eqb_spec).
  apply (@NoDup_length_incl _ (dict_keys res) (dict_keys d)); auto.
  - apply Ha.
  - unfold dict_keys. rewrite !length_map. lia.
  - apply asg_ok_keys; exact Ha.
Qed.

(** C1.  An assignment returned by [backtrack] started from the empty
    assignment is complete and consistent: it gives every variable a word,
    no word serves two variables, every word has the length of its
    variable, and assigned variables that overlap agree on the shared
    cell. *)
Theorem backtrack_sound (cw : Crossword) (d d' : domains) (fuel : nat)
        (a' res : assignment) :
  wf_crossword cw = true ->
  store_for cw d = true ->
  backtrack cw fuel [] d = Ok ((a', Some res), d') ->
  complete cw res /\ consistent_assignment cw res.
Proof.
  intros W SF H. apply store_for_inv in SF. destruct SF as [_ [ND K]].
  destruct (backtrack_contract cw fuel [] d _ d' (asg_ok_nil d) eq_refl H)
    as [_ [_ Hs]].
  destruct (Hs res eq_refl) as [C [L Ha]].
  split.
  - intros v I. apply (solved_complete d res ND Ha L). apply K; exact I.
  - apply consistent_sound; auto. apply Ha.
Qed.

(** ** The search returns *)

Lemma dom_length d v w :
  node_consistent d = true -> In w (dom d v) ->
  String.length w = var_length v.
Proof.
  intros NC I. unfold dom in I.
  destruct (dict_get var_eqb d v) as [ws|] eqn:G; [|destruct I].
  apply (node_consistent_domain d v ws w NC G I).
Qed.

Lemma exists_unassigned (d : domains) (a : assignment) :
  NoDup (dict_keys d) -> List.length a < List.length d ->
  exists x, In x (dict_keys d) /\ ~ In x (dict_keys a).
Proof.
  intros ND L.
  destruct (find (fun x => negb (var_in x (dict_keys a))) (dict_keys d))
    as [x|] eqn:F.
  - apply find_some in F. destruct F as [I N]. exists x. split; auto.
    apply negb_true_iff in N. intros J. apply var_in_In in J. congruence.
  - exfalso.
    assert (Inc : incl (dict_keys d) (dict_keys a)).
    { intros x I. pose proof (find_none _ _ F x I) as N. simpl in N.
      apply negb_false_iff in N. apply var_in_In; exact N. }
    pose proof (NoDup_incl_length ND Inc) as Q.
    unfold dict_keys in Q. rewrite !length_map in Q. lia.
Qed.

Lemma asg_ok_length d a :
  asg_ok d a -> List.length a <= List.length d.
Proof.
  intros Ha. pose proof (NoDup_incl_length (proj1 Ha) (asg_ok_keys d a Ha)) as Q.
  unfold dict_keys in Q. rewrite !length_map in Q. exact Q.
Qed.

Section SearchReturns.
Variable cw : Crossword.
Variable d : domains.
Hypothesis W : wf_crossword cw = true.
Hypothesis SF : store_for cw d = true.
Hypothesis NC : node_consistent d = true.

Lemma asg_ok_sized a v w :
  asg_ok d a -> In (v, w) a ->
  In v (variables cw) /\ String.length w = var_length v.
Proof.
  intros [_ Ha] I. apply Ha in I. split.
  - apply (proj2 (proj2 (store_for_inv cw d SF))).
    apply (dom_in_keys d v w I).
  - apply (dom_length d v w NC I).
Qed.

Lemma backtrack_try_total search var a :
  search_contract cw search ->
  asg_ok d a -> ~ In var (dict_keys a) ->
  (forall w, In w (dom d var) ->
             exists r, search (a ++ [(var, w)]) d = Ok (r, d)) ->
  forall cands,
    (forall w, In w cands -> In w (dom d var)) ->
    exists r, backtrack_try cw search var cands a d = Ok (r, d).
Proof.
  intros HS Ha Nv HT.
  induction cands as [|w cands IH]; simpl; intros Hc.
  - unfold ret. eauto.
  - assert (Iw : In w (dom d var)) by (apply Hc; left; reflexivity).
    assert (IHc : exists r, backtrack_try cw search var cands a d = Ok (r, d))
      by (apply IH; intros; apply Hc; right; assumption).
    destruct (asg_ok_set d a var w Ha Iw Nv) as [E Ha1]. rewrite E.
    destruct (consistent_total cw (a ++ [(var, w)]) W) as [ok Hk].
    { intros v0 w0 I. apply (asg_ok_sized _ _ _ Ha1 I). }
    erewrite bind_ok; [|apply lift_ok; exact Hk].
    destruct ok; simpl.
    + destruct (HT w Iw) as [r1 Hr].
      erewrite bind_ok; [|exact Hr].
      destruct (HS _ _ _ _ Ha1 Hk Hr) as [_ [Hn _]].
      destruct (snd r1) as [res|]; [unfold ret; eauto|].
      rewrite (Hn eq_refl).
      erewrite bind_ok; [|apply lift_ok; apply pop_after_set; exact Nv].
      exact IHc.
    + erewrite bind_ok; [|apply lift_ok; apply pop_after_set; exact Nv].
      exact IHc.
Qed.

Lemma backtrack_total : forall fuel a,
  asg_ok d a -> List.length d <= fuel + List.length a ->
  exists r, backtrack cw fuel a d = Ok (r, d).
Proof.
  destruct (store_for_inv cw d SF) as [_ [ND K]].
  induction fuel as [|fuel IH]; intros a Ha L; rewrite backtrack_unfold;
    (erewrite bind_ok; [|reflexivity]);
    pose proof (asg_ok_length d a Ha) as La;
    (destruct (Nat.eqb_spec (List.length a) (List.length d)) as [Q|Q];
     [unfold ret; eauto|]).
  - simpl in L. lia.
  - destruct (select_total cw a d) as [var Hv];
      [apply exists_unassigned; auto; lia|].
    erewrite bind_ok; [|exact Hv].
    apply select_inv in Hv. destruct Hv as [_ [Iv [Nv _]]].
    destruct (order_total cw var a d W NC) as [cands Ho];
      [apply K; exact Iv|intros x; apply K|].
    erewrite bind_ok; [|exact Ho].
    apply order_inv in Ho. destruct Ho as [_ [_ Hc]].
    apply backtrack_try_total; auto.
    + apply backtrack_contract.
    + intros w Iw. apply IH.
      * apply (asg_ok_set d a var w Ha Iw Nv).
      * rewrite length_app. simpl. lia.
Qed.
End SearchReturns.

(* ------------------------------------------------------------------ *)
(** * Which methods write the domain store *)

Lemma readonly_shrinks {A} (m : M A) : readonly m -> shrinks m.
Proof. intros H d r d' E. apply H in E. subst. auto. Qed.

Lemma readonly_ret {A} (a : A) : readonly (ret a).
Proof. intros d r d' E. inversion E; reflexivity. Qed.

Lemma readonly_lift {A} (o : outcome A) : readonly (lift o).
Proof. intros d r d' E. apply lift_inv in E. tauto. Qed.

Lemma readonly_bind {A B} (m : M A) (k : A -> M B) :
  readonly m -> (forall a, readonly (k a)) -> readonly (bind m k).
Proof.
  intros Hm Hk d r d' E. apply bind_inv in E.
  destruct E as [a [d1 [E1 E2]]]. apply Hm in E1. subst d1.
  apply (Hk a) in E2. exact E2.
Qed.

Lemma readonly_domain_of x : readonly (domain_of x).
Proof. intros d r d' E. apply domain_of_inv in E. tauto. Qed.

Lemma readonly_domain_keys : readonly domain_keys.
Proof. intros d r d' E. inversion E; reflexivity. Qed.

Lemma readonly_domain_count : readonly domain_count.
Proof. intros d r d' E. inversion E; reflexivity. Qed.

Lemma readonly_for_fold {A S} (body : S -> A -> M S) l :
  (forall s a, readonly (body s a)) -> forall s, readonly (for_fold l s body).
Proof.
  intros H. induction l as [|a l IH]; simpl; intros s.
  - apply readonly_ret.
  - apply readonly_bind; auto.
Qed.

Lemma shrinks_bind {A B} (m : M A) (k : A -> M B) :
  shrinks m -> (forall a, shrinks (k a)) -> shrinks (bind m k).
Proof.
  intros Hm Hk d r d' E. apply bind_inv in E.
  destruct E as [a [d1 [E1 E2]]].
  apply Hm in E1. apply (Hk a) in E2.
  destruct E1 as [K1 S1], E2 as [K2 S2]. split; [congruence|auto].
Qed.

Lemma shrinks_for_each {A} (body : A -> M unit) l :
  (forall a, shrinks (body a)) -> shrinks (for_each l body).
Proof.
  intros H. induction l as [|a l IH]; simpl.
  - apply readonly_shrinks, readonly_ret.
  - apply shrinks_bind; auto.
Qed.

Lemma shrinks_domain_remove x w : shrinks (domain_remove x w).
Proof.
  intros d r d' E. unfold domain_remove in E.
  destruct (dict_get var_eqb d x) as [ws|] eqn:G; [|discriminate].
  destruct (set_mem w ws); [|discriminate].
  inversion E; subst. split.
  - apply (dict_keys_set_present _ _ _ _ G).
  - intros v w0 I. destruct (var_eqb_spec x v) as [->|N].
    + rewrite dom_set_same in I. unfold dom. rewrite G.
      rewrite set_remove_filter in I. apply filter_In in I. tauto.
    + rewrite dom_set_other in I; auto.
Qed.

Lemma shrinks_enforce_node_consistency : shrinks enforce_node_consistency.
Proof.
  unfold enforce_node_consistency.
  apply shrinks_bind; [apply readonly_shrinks, readonly_domain_keys|].
  intros vars. apply shrinks_for_each. intros var.
  apply shrinks_bind; [apply readonly_shrinks, readonly_domain_of|].
  intros ws. apply shrinks_for_each. intros w. apply shrinks_domain_remove.
Qed.

Lemma shrinks_revise cw x y : shrinks (revise cw x y).
Proof.
  unfold revise. destruct (overlaps cw x y) as [[ox oy]|].
  - apply shrinks_bind; [apply readonly_shrinks, readonly_domain_of|].
    intros xs. apply shrinks_bind.
    + apply readonly_shrinks, readonly_for_fold. intros st xw.
      apply readonly_bind; [apply readonly_domain_of|].
      intros ys. apply readonly_bind; [apply readonly_lift|].
      intros b. apply readonly_ret.
    + intros st. apply shrinks_bind.
      * apply shrinks_for_each. intros w. apply shrinks_domain_remove.
      * intros _. apply readonly_shrinks, readonly_ret.
  - apply readonly_shrinks, readonly_ret.
Qed.

Lemma shrinks_ac3_step cw a rest : shrinks (ac3_step cw a rest).
Proof.
  unfold ac3_step. apply shrinks_bind; [apply shrinks_revise|].
  intros [|]; apply readonly_shrinks.
  - apply readonly_bind; [apply readonly_domain_of|].
    intros xs. destruct (_ =? _); apply readonly_ret.
  - apply readonly_ret.
Qed.

Lemma shrinks_ac3_loop cw : forall fuel arc_list,
  shrinks (ac3_loop cw fuel arc_list).
Proof.
  induction fuel as [|fuel IH]; intros [|a rest]; simpl;
    try (apply readonly_shrinks, readonly_ret).
  - intros d r d' E. discriminate.
  - apply shrinks_bind; [apply shrinks_ac3_step|].
    intros [al|]; [apply IH|apply readonly_shrinks, readonly_ret].
Qed.

Lemma shrinks_ac3 cw arcs : shrinks (ac3 cw arcs).
Proof.
  unfold ac3. apply shrinks_bind.
  - apply readonly_shrinks. destruct arcs; [apply readonly_ret|].
    unfold all_arcs. apply readonly_bind; [apply readonly_domain_keys|].
    intros vars. apply readonly_ret.
  - intros al d r d' E. apply (shrinks_ac3_loop cw _ al d r d' E).
Qed.

Lemma readonly_select cw a : readonly (select_unassigned_variable cw a).
Proof. intros d r d' E. apply select_inv in E. tauto. Qed.

Lemma readonly_order cw var a : readonly (order_domain_values cw var a).
Proof. intros d r d' E. apply order_inv in E. tauto. Qed.

Lemma readonly_backtrack_try cw search var :
  (forall a, readonly (search a)) ->
  forall cands a, readonly (backtrack_try cw search var cands a).
Proof.
  intros HS. induction cands as [|w cands IH]; simpl; intros a.
  - apply readonly_ret.
  - apply readonly_bind; [apply readonly_lift|].
    intros ok. destruct ok; simpl.
    + apply readonly_bind; [apply HS|].
      intros r. destruct (snd r); [apply readonly_ret|].
      apply readonly_bind; [apply readonly_lift|]. intros a2. apply IH.
    + apply readonly_bind; [apply readonly_lift|]. intros a2. apply IH.
Qed.

Lemma readonly_backtrack cw : forall fuel a, readonly (backtrack cw fuel a).
Proof.
  induction fuel as [|fuel IH]; intros a; rewrite backtrack_unfold;
    (apply readonly_bind; [apply readonly_domain_count|]);
    intros n; (destruct (_ =? _); [apply readonly_ret|]);
    (apply readonly_bind; [apply readonly_select|]); intros var;
    (apply readonly_bind; [apply readonly_order|]); intros cands;
    apply readonly_backtrack_try.
  - intros a0 d r d' E. discriminate.
  - exact IH.
Qed.

(** C9.  The search only reads the domain store: [backtrack] and the
    operations it calls ([select_unassigned_variable],
    [order_domain_values], [consistent]) return with [self.domains] exactly
    as they found it.  The writers are the methods of the consistency
    phase, [enforce_node_consistency] and [revise] (through [ac3]), which
    keep the variables and only take words away. *)
Theorem search_reads_domains_only (cw : Crossword) :
  (forall fuel a, readonly (backtrack cw fuel a))
  /\ (forall a, readonly (backtrack_search cw a))
  /\ (forall a, readonly (select_unassigned_variable cw a))
  /\ (forall var a, readonly (order_domain_values cw var a))
  /\ (forall a, readonly (lift (consistent cw a)))
  /\ shrinks enforce_node_consistency
  /\ (forall x y, shrinks (revise cw x y))
  /\ (forall arcs, shrinks (ac3 cw arcs)).
Proof.
  split; [apply readonly_backtrack|].
  split.
  { intros a. unfold backtrack_search.
    apply readonly_bind; [apply readonly_domain_count|].
    intros n. apply readonly_backtrack. }
  split; [apply readonly_select|].
  split; [apply readonly_order|].
  split; [intros a; apply readonly_lift|].
  split; [apply shrinks_enforce_node_consistency|].
  split; [apply shrinks_revise|apply shrinks_ac3].
Qed.

(* ------------------------------------------------------------------ *)
(** * An empty domain stops the search at once *)

Lemma partial_assignment_short d a x :
  store_ok d = true -> partial_assignment d a = true ->
  In x (dict_keys d) -> ~ In x (dict_keys a) ->
  List.length a < List.length d.
Proof.
  intros SO PA Ix Nx. unfold partial_assignment in PA.
  apply andb_true_iff in PA. destruct PA as [ND Inc].
  apply (nodupb_NoDup _ var_eqb_spec) in ND.
  rewrite forallb_forall in Inc.
  assert (ND' : NoDup (x :: dict_keys a)) by (constructor; auto).
  assert (Inc' : incl (x :: dict_keys a) (dict_keys d)).
  { intros v [<-|I]; auto. apply var_in_In, Inc, I. }
  pose proof (NoDup_incl_length ND' Inc') as Q.
  unfold dict_keys in Q. simpl in Q. rewrite !length_map in Q. lia.
Qed.

Lemma select_empty cw d a x :
  dict_get var_eqb d x = Some [] -> ~ In x (dict_keys a) ->
  exists v, select_unassigned_variable cw a d = Ok (v, d)
            /\ dict_get var_eqb d v = Some []
            /\ ~ In v (dict_keys a).
Proof.
  intros G Nx.
  assert (Ix : In x (dict_keys d)).
  { apply (dict_mem_in _ var_eqb_spec). unfold dict_mem. rewrite G.
    reflexivity. }
  destruct (select_total cw a d) as [v Hv]; [exists x; auto|].
  exists v. split; auto.
  apply select_inv in Hv. destruct Hv as [_ [Iv [Nv Min]]].
  split; auto.
  specialize (Min x Ix Nx). unfold dom in Min. rewrite G in Min.
  destruct (dict_get_some _ var_eqb_spec d v Iv) as [ws Gv].
  rewrite Gv in *. destruct ws; simpl in Min; [reflexivity|lia].
Qed.

(** ** solve after a failed propagation *)

Lemma solve_with_after cw search d d1 b d2 :
  enforce_node_consistency d = Ok (tt, d1) ->
  ac3 cw None d1 = Ok (b, d2) ->
  solve_with cw search d = (r <- search [] ;; ret (snd r)) d2.
Proof.
  intros E A. unfold solve_with.
  erewrite bind_ok; [|exact E].
  erewrite bind_ok; [|exact A]. reflexivity.
Qed.

Lemma failed_store_search cw d d1 d2 :
  store_ok d = true ->
  enforce_node_consistency d = Ok (tt, d1) ->
  ac3 cw None d1 = Ok (false, d2) ->
  backtrack_search cw [] d2 = Ok (([], None), d2).
Proof.
  intros SO E A.
  rewrite (enforce_node_consistency_run d SO) in E.
  inversion E; subst d1; clear E.
  pose proof (node_filter_store_ok d SO) as SO1.
  destruct (shrinks_ac3 cw None _ _ _ A) as [K Sub].
  destruct (ac3_false_inv cw None _ _ A) as [x [Ix Gx]].
  unfold backtrack_search. erewrite bind_ok; [|reflexivity].
  rewrite backtrack_unfold. erewrite bind_ok; [|reflexivity].
  destruct d2 as [|e d2]; [destruct Ix|]. simpl (List.length []).
  simpl (0 =? _).
  destruct (select_empty cw (e :: d2) [] x Gx (fun I => I)) as [v [Hv [Gv _]]].
  erewrite bind_ok; [|exact Hv].
  erewrite bind_ok; [|apply order_empty; exact Gv].
  reflexivity.
Qed.

Lemma solve_none_after_failure cw d d1 d2 :
  store_ok d = true ->
  enforce_node_consistency d = Ok (tt, d1) ->
  ac3 cw None d1 = Ok (false, d2) ->
  solve cw d = Ok (None, d2).
Proof.
  intros SO E A.
  pose proof (failed_store_search cw d d1 d2 SO E A) as B.
  unfold solve. rewrite (solve_with_after cw _ d d1 false d2 E A).
  erewrite bind_ok; [|exact B]. reflexivity.
Qed.

(** C3, as the code has it.  When [ac3] returns [False] inside [solve],
    the search is still entered: [solve] goes on to call the search on the
    empty assignment over the store [ac3] left, and returns what that call
    returns.  With [backtrack] as the search that call returns [None] at
    once, so [solve] reports no solution. *)
Theorem solve_after_ac3_failure (cw : Crossword) (d d1 d2 : domains) :
  store_ok d = true ->
  enforce_node_consistency d = Ok (tt, d1) ->
  ac3 cw None d1 = Ok (false, d2) ->
  (forall search,
      solve_with cw search d = (r <- search [] ;; ret (snd r)) d2)
  /\ backtrack_search cw [] d2 = Ok (([], None), d2)
  /\ solve cw d = Ok (None, d2).
Proof.
  intros SO E A.
  pose proof (failed_store_search cw d d1 d2 SO E A) as B.
  split; [intros search; apply (solve_with_after cw search d d1 false d2 E A)|].
  split; [exact B|].
  apply (solve_none_after_failure cw d d1 d2 SO E A).
Qed.

(** C10.  When some variable outside the partial assignment has an empty
    domain, the selection picks a variable with an empty domain, the value
    ordering yields no candidate, and [backtrack] returns [None] at once
    (at any depth budget), leaving the assignment as it was.  Hence [solve],
    which discards the result of [ac3], still reports no solution when
    [ac3] has failed. *)
Theorem backtrack_empty_domain (cw : Crossword) (d : domains)
        (a : assignment) (x : Var) (fuel : nat) :
  store_ok d = true ->
  partial_assignment d a = true ->
  dict_get var_eqb d x = Some [] ->
  dict_mem var_eqb a x = false ->
  exists v,
    select_unassigned_variable cw a d = Ok (v, d)
    /\ dict_get var_eqb d v = Some []
    /\ order_domain_values cw v a d = Ok ([], d)
    /\ backtrack cw fuel a d = Ok ((a, None), d)
    /\ forall d0 d1 d2,
         store_ok d0 = true ->
         enforce_node_consistency d0 = Ok (tt, d1) ->
         ac3 cw None d1 = Ok (false, d2) ->
         solve cw d0 = Ok (None, d2).
Proof.
  intros SO PA G Nx. apply (dict_mem_false _ var_eqb_spec) in Nx.
  assert (Ix : In x (dict_keys d)).
  { apply (dict_mem_in _ var_eqb_spec). unfold dict_mem. rewrite G.
    reflexivity. }
  pose proof (partial_assignment_short d a x SO PA Ix Nx) as L.
  destruct (select_empty cw d a x G Nx) as [v [Hv [Gv Nv]]].
  exists v. split; auto. split; auto.
  pose proof (order_empty cw v a d Gv) as Ho. split; auto.
  split; [|apply solve_none_after_failure].
  rewrite backtrack_unfold.
  erewrite bind_ok; [|reflexivity].
  destruct (Nat.eqb_spec (List.length a) (List.length d)); [lia|].
  erewrite bind_ok; [|exact Hv].
  erewrite bind_ok; [|exact Ho].
  reflexivity.
Qed.


(** The arcs put back on the worklist all leave [x]: they are [(x, z)] for
    the neighbours [z] of [x] other than [y], the last one iterated coming
    first. *)
Lemma requeue_spec cw x y arc_list :
  requeue cw x y arc_list =
  rev (map (fun z => (x, z))
           (filter (fun z => negb (var_eqb z y)) (neighbors cw x)))
  ++ arc_list.
Proof.
  unfold requeue. revert arc_list.
  induction (neighbors cw x) as [|z l IH]; simpl; intros al; auto.
  rewrite IH. destruct (negb (var_eqb z y)); simpl; auto.
  rewrite <- app_assoc. reflexivity.
Qed.

(* ------------------------------------------------------------------ *)
(** * The solver's run on a puzzle without solution *)

(** On a node-consistent store with one domain per variable, an exhausted
    search returns [None] within a depth budget of the number of
    variables. *)
Lemma backtrack_none_on_store cw d fuel :
  wf_crossword cw = true ->
  store_for cw d = true ->
  node_consistent d = true ->
  List.length (variables cw) <= fuel ->
  (forall a, drawn_from d a -> complete cw a ->
             consistent_assignment cw a -> False) ->
  backtrack cw fuel [] d = Ok (([], None), d).
Proof.
  intros W SF NC L NoSol.
  destruct (store_for_inv cw d SF) as [_ [ND K]].
  assert (Ld : List.length d <= fuel + 0).
  { assert (Inc : incl (dict_keys d) (variables cw))
      by (intros x I; apply K; exact I).
    pose proof (NoDup_incl_length ND Inc) as Q.
    unfold dict_keys in Q. rewrite length_map in Q. lia. }
  destruct (backtrack_total cw d W SF NC fuel [] (asg_ok_nil d) Ld) as [r H].
  destruct (backtrack_contract cw fuel [] d r d (asg_ok_nil d) eq_refl H)
    as [_ [Hn Hs]].
  destruct r as [a' [res|]]; simpl in *.
  - exfalso. destruct (Hs res eq_refl) as [C [Lr Ha]].
    apply (NoSol res).
    + intros v w G. apply (proj2 Ha). apply (dict_get_in _ var_eqb_spec); auto.
    + intros v I. apply (solved_complete d res ND Ha Lr). apply K; exact I.
    + apply consistent_sound; auto. apply Ha.
  - rewrite (Hn eq_refl) in H. exact H.
Qed.

Lemma store_ok_set (d : domains) x xs xs' :
  store_ok d = true -> dict_get var_eqb d x = Some xs -> NoDup xs' ->
  store_ok (dict_set var_eqb d x xs') = true.
Proof.
  unfold store_ok. rewrite !andb_true_iff. intros [K F] G ND.
  split; [rewrite (dict_keys_set_present _ _ _ _ G); exact K|].
  clear K. revert G F.
  induction d as [|[k v] d IH]; simpl; [discriminate|].
  destruct (var_eqb k x); simpl; rewrite !andb_true_iff; intros G [F1 F2].
  - split; auto. apply (nodupb_NoDup _ word_eqb_spec); exact ND.
  - split; auto.
Qed.

Lemma node_consistent_set (d : domains) x xs xs' :
  node_consistent d = true -> dict_get var_eqb d x = Some xs ->
  incl xs' xs ->
  node_consistent (dict_set var_eqb d x xs') = true.
Proof.
  unfold node_consistent. intros F G Inc. revert G F.
  induction d as [|[k v] d IH]; simpl; [discriminate|].
  destruct (var_eqb k x); simpl; rewrite !andb_true_iff; intros G [F1 F2].
  - split; auto. inversion G; subst v.
    rewrite forallb_forall in *. intros w I. apply F1, Inc, I.
  - split; auto.
Qed.

Lemma store_for_keys cw d d' :
  store_for cw d = true -> store_ok d' = true ->
  dict_keys d' = dict_keys d -> store_for cw d' = true.
Proof.
  unfold store_for. rewrite !andb_true_iff. intros [[_ A] B] S K.
  rewrite K. auto.
Qed.

Lemma revise_keeps_store cw x y d changed d' :
  solver_store cw d -> revise cw x y d = Ok (changed, d') ->
  solver_store cw d'.
Proof.
  intros [SF NC] H. pose proof (store_for_inv cw d SF) as [SO _].
  apply revise_inv in H. destruct (overlaps cw x y) as [[ox oy]|].
  - destruct H as [xs [G [-> _]]]. split.
    + apply (store_for_keys cw d); auto.
      * apply (store_ok_set d x xs); auto.
        apply NoDup_filter, (store_ok_domain d x xs SO G).
      * apply (dict_keys_set_present _ _ _ _ G).
    + apply (node_consistent_set d x xs); auto.
      intros w I. apply filter_In in I. tauto.
  - destruct H as [_ ->]. split; auto.
Qed.

Lemma requeue_arcs_ok cw x y arc_list :
  wf_crossword cw = true -> In x (variables cw) ->
  arcs_ok cw arc_list -> arcs_ok cw (requeue cw x y arc_list).
Proof.
  intros W Ix Ha a I. rewrite requeue_spec in I.
  apply in_app_or in I. destruct I as [I|I]; [|apply Ha; exact I].
  apply in_rev, in_map_iff in I. destruct I as [z [<- I]].
  apply filter_In in I. destruct I as [I _]. simpl. split; auto.
  apply (neighbors_wf cw x z W Ix I).
Qed.

Lemma all_arcs_ok cw d :
  wf_crossword cw = true -> store_for cw d = true ->
  exists al, all_arcs cw d = Ok (al, d) /\ arcs_ok cw al.
Proof.
  intros W SF. destruct (store_for_inv cw d SF) as [_ [_ K]].
  eexists. split; [reflexivity|].
  intros [x y] I. apply in_flat_map in I. destruct I as [x' [Ix I]].
  apply in_map_iff in I. destruct I as [z [E I]]. inversion E; subst x' z.
  apply K in Ix. simpl. split; auto. apply (neighbors_wf cw x y W Ix I).
Qed.

Lemma ac3_step_returns cw a rest d :
  wf_crossword cw = true -> solver_store cw d ->
  arcs_ok cw (a :: rest) ->
  exists r d', ac3_step cw a rest d = Ok (r, d')
               /\ solver_store cw d'
               /\ forall al, r = Some al -> arcs_ok cw al.
Proof.
  intros W St Ha. pose proof St as [SF NC].
  destruct (store_for_inv cw d SF) as [SO [_ K]].
  destruct (Ha a (or_introl eq_refl)) as [Ix Iy].
  assert (Hrest : arcs_ok cw rest) by (intros b I; apply Ha; right; exact I).
  destruct (revise_returns cw (fst a) (snd a) d W SO NC) as [c [d' R]];
    [apply K; exact Ix|apply K; exact Iy|].
  pose proof (revise_keeps_store cw _ _ _ _ _ St R) as St'.
  unfold ac3_step. erewrite bind_ok; [|exact R].
  destruct c.
  - destruct St' as [SF' NC'].
    destruct (store_for_inv cw d' SF') as [_ [_ K']].
    destruct (dict_get_some _ var_eqb_spec d' (fst a)) as [xs G];
      [apply K'; exact Ix|].
    erewrite bind_ok; [|apply domain_of_ok; exact G].
    destruct (List.length xs =? 0); eexists; eexists;
      (split; [reflexivity|split; [split; assumption|]]).
    + discriminate.
    + intros al E. inversion E; subst al. apply requeue_arcs_ok; auto.
  - eexists; eexists. split; [reflexivity|split; [exact St'|]].
    intros al E. inversion E; subst al. exact Hrest.
Qed.

Lemma ac3_loop_returns cw : forall fuel arc_list d,
  wf_crossword cw = true ->
  ac3_budget cw arc_list d <= fuel ->
  solver_store cw d -> arcs_ok cw arc_list ->
  exists b d', ac3_loop cw fuel arc_list d = Ok (b, d')
               /\ solver_store cw d'.
Proof.
  intros fuel arc_list d W B St Ha.
  pose proof (ac3_loop_terminates cw fuel arc_list d B) as T. clear B.
  revert arc_list d St Ha T.
  induction fuel as [|fuel IH]; intros [|a rest] d St Ha T; simpl in *;
    try (unfold ret; eauto; fail).
  - congruence.
  - destruct (ac3_step_returns cw a rest d W St Ha) as [r [d1 [R [St1 Hr]]]].
    unfold bind in *. rewrite R in *.
    destruct r as [al|]; [|unfold ret; eauto].
    apply IH; auto.
Qed.

Lemma ac3_returns cw d :
  wf_crossword cw = true -> solver_store cw d ->
  exists b d', ac3 cw None d = Ok (b, d') /\ solver_store cw d'.
Proof.
  intros W St. unfold ac3.
  destruct (all_arcs_ok cw d W (proj1 St)) as [al [E Ha]].
  erewrite bind_ok; [|exact E].
  apply ac3_loop_returns; auto.
Qed.

Lemma enforce_returns cw d :
  store_for cw d = true ->
  enforce_node_consistency d = Ok (tt, node_filter d)
  /\ solver_store cw (node_filter d).
Proof.
  intros SF. destruct (store_for_inv cw d SF) as [SO _].
  split; [apply enforce_node_consistency_run; exact SO|].
  split; [|apply node_filter_consistent].
  apply (store_for_keys cw d); auto.
  - apply node_filter_store_ok; exact SO.
  - apply node_filter_keys.
Qed.

(** C4.  Take any puzzle and any store of candidate sets for its variables
    from which no complete consistent assignment can be drawn.  Then the
    solver's run does not fault: node consistency and [ac3] return, and
    [backtrack], started from the empty assignment on the store they leave,
    returns [None] with any depth budget of at least the number of
    variables, so the recursion never goes deeper than that; [solve]
    returns [None].  The same holds for [backtrack] on every
    node-consistent store of the puzzle whose domains are within the given
    ones. *)
Theorem backtrack_no_solution (cw : Crossword) (d0 : domains) :
  wf_crossword cw = true ->
  store_for cw d0 = true ->
  (forall a, drawn_from d0 a -> complete cw a ->
             consistent_assignment cw a -> False) ->
  (forall d fuel,
      store_for cw d = true -> node_consistent d = true ->
      (forall v w, In w (dom d v) -> In w (dom d0 v)) ->
      List.length (variables cw) <= fuel ->
      backtrack cw fuel [] d = Ok (([], None), d))
  /\ exists d1 b d2,
       enforce_node_consistency d0 = Ok (tt, d1)
       /\ ac3 cw None d1 = Ok (b, d2)
       /\ (forall fuel, List.length (variables cw) <= fuel ->
                        backtrack cw fuel [] d2 = Ok (([], None), d2))
       /\ solve cw d0 = Ok (None, d2).
Proof.
  intros W SF NoSol.
  assert (A : forall d fuel,
             store_for cw d = true -> node_consistent d = true ->
             (forall v w, In w (dom d v) -> In w (dom d0 v)) ->
             List.length (variables cw) <= fuel ->
             backtrack cw fuel [] d = Ok (([], None), d)).
  { intros d fuel SFd NCd Sub L.
    apply backtrack_none_on_store; auto.
    intros a D. apply NoSol. intros v w G. apply Sub, D, G. }
  split; [exact A|].
  destruct (enforce_returns cw d0 SF) as [E St1].
  destruct (ac3_returns cw _ W St1) as [b [d2 [Ac [SF2 NC2]]]].
  destruct (shrinks_enforce_node_consistency _ _ _ E) as [_ S1].
  destruct (shrinks_ac3 cw None _ _ _ Ac) as [_ S2].
  assert (B : forall fuel, List.length (variables cw) <= fuel ->
                           backtrack cw fuel [] d2 = Ok (([], None), d2))
    by (intros fuel L; apply A; auto).
  exists (node_filter d0), b, d2.
  split; [exact E|]. split; [exact Ac|]. split; [exact B|].
  unfold solve. rewrite (solve_with_after cw _ d0 _ b d2 E Ac).
  unfold backtrack_search.
  erewrite bind_ok.
  2:{ erewrite bind_ok; [|reflexivity]. apply B.
      destruct (store_for_inv cw d2 SF2) as [_ [_ K]].
      assert (NDv : NoDup (variables cw)).
      { unfold wf_crossword in W. rewrite !andb_true_iff in W.
        apply (nodupb_NoDup _ var_eqb_spec). tauto. }
      assert (Inc : incl (variables cw) (dict_keys d2))
        by (intros x I; apply K; exact I).
      pose proof (NoDup_incl_length NDv Inc) as Q.
      unfold dict_keys in Q. rewrite length_map in Q. exact Q. }
  reflexivity.
Qed.

(* ================================================================== *)
(** * The worklist of ac3 on a concrete grid *)

(** C2 (the code at the failing input).  On the three-slot grid with the
    words ABA and CDE, the left down slot iterated first, [ac3] returns
    [True] although CDE is still a candidate of the left down slot and no
    candidate left for the across slot starts with C: the store it leaves is
    not arc consistent. *)
Theorem ac3_true_not_arc_consistent :
  ac3 GridRuns.two_words None (init_domains GridRuns.two_words)
  = Ok (true, GridRuns.two_words_left)
  /\ wf_crossword GridRuns.two_words = true
  /\ overlaps GridRuns.two_words Grid.down_left Grid.across = Some (0, 0)
  /\ In "CDE"%string (dom GridRuns.two_words_left Grid.down_left)
  /\ supported 0 0 (dom GridRuns.two_words_left Grid.across) "CDE" = false
  /\ arc_consistent GridRuns.two_words GridRuns.two_words_left = false.
Proof.
  split; [vm_compute; reflexivity|].
  split; [vm_compute; reflexivity|].
  split; [vm_compute; reflexivity|].
  split; [simpl; auto|].
  split; vm_compute; reflexivity.
Qed.

(** C5 (the code at the failing input).  On the same grid, when the arc
    (across, right down) is popped, [revise] removes CDE from the across
    slot and leaves ABA; the arc put back on the worklist is
    (across, left down), not (left down, across). *)
Theorem ac3_step_requeues_outgoing_arc :
  exists d',
    ac3_step GridRuns.two_words (Grid.across, Grid.down_right)
             [(Grid.down_right, Grid.across)]
             (init_domains GridRuns.two_words)
    = Ok (Some [(Grid.across, Grid.down_left);
                (Grid.down_right, Grid.across)], d')
    /\ dom d' Grid.across = ["ABA"%string]
    /\ dom (init_domains GridRuns.two_words) Grid.across
       = ["ABA"%string; "CDE"%string].
Proof.
  eexists. split; [vm_compute; reflexivity|].
  split; vm_compute; reflexivity.
Qed.

(** C3 does not hold as stated: on the one-word puzzle [ac3] fails, and
    [solve] still hands the empty assignment to the search and returns its
    answer. *)
Lemma solve_enters_search_after_failure :
  ~ fails_without_search GridRuns.one_word (init_domains GridRuns.one_word).
Proof.
  intros H.
  specialize (H (fun a => ret (a, Some a))
                (init_domains GridRuns.one_word) GridRuns.one_word_failed).
  assert (E : solve_with GridRuns.one_word (fun a => ret (a, Some a))
                         (init_domains GridRuns.one_word)
              = Ok (Some [], GridRuns.one_word_failed))
    by (vm_compute; reflexivity).
  rewrite E in H.
  assert (Q : Ok (Some (@nil (Var * string)), GridRuns.one_word_failed)
              = Ok (None, GridRuns.one_word_failed))
    by (apply H; vm_compute; reflexivity).
  discriminate Q.
Qed.

(* ================================================================== *)
(** * The theorems at work on the concrete grid *)

(** The two-word puzzle has no solution: with ABA across, the left down
    slot would need ABA again; with CDE across, the right down slot would
    need a word starting with E. *)
Lemma two_words_no_solution :
  forall a, drawn_from (init_domains GridRuns.two_words) a ->
            complete GridRuns.two_words a ->
            consistent_assignment GridRuns.two_words a -> False.
Proof.
  intros a D C [U [_ O]].
  destruct (C Grid.across) as [w1 G1]; [simpl; auto|].
  destruct (C Grid.down_left) as [w2 G2]; [simpl; auto|].
  destruct (C Grid.down_right) as [w3 G3]; [simpl; auto|].
  pose proof (D _ _ G1) as I1. pose proof (D _ _ G2) as I2.
  pose proof (D _ _ G3) as I3.
  vm_compute in I1, I2, I3.
  destruct (O Grid.across Grid.down_left 0 0 _ _ eq_refl G1 G2)
    as [c [E1 E2]].
  destruct (O Grid.across Grid.down_right 2 0 _ _ eq_refl G1 G3)
    as [c' [E3 E4]].
  destruct I1 as [<-|[<-|[]]]; destruct I2 as [<-|[<-|[]]];
    destruct I3 as [<-|[<-|[]]];
    vm_compute in E1, E2, E3, E4; try congruence;
    pose proof (U _ _ _ G1 G2) as Q; discriminate Q.
Qed.

Lemma backtrack_sound_witness :
  complete GridRuns.four_words GridRuns.four_words_solution
  /\ consistent_assignment GridRuns.four_words GridRuns.four_words_solution.
Proof.
  apply (backtrack_sound GridRuns.four_words
           (init_domains GridRuns.four_words)
           (init_domains GridRuns.four_words) 3
           GridRuns.four_words_solution GridRuns.four_words_solution).
  - vm_compute; reflexivity.
  - vm_compute; reflexivity.
  - vm_compute; reflexivity.
Defined.

Lemma solve_after_ac3_failure_witness :
  solve GridRuns.one_word (init_domains GridRuns.one_word)
  = Ok (None, GridRuns.one_word_failed).
Proof.
  apply (solve_after_ac3_failure GridRuns.one_word
           (init_domains GridRuns.one_word)
           (init_domains GridRuns.one_word) GridRuns.one_word_failed).
  - vm_compute; reflexivity.
  - vm_compute; reflexivity.
  - vm_compute; reflexivity.
Defined.

Lemma backtrack_no_solution_witness :
  (forall d fuel,
      store_for GridRuns.two_words d = true -> node_consistent d = true ->
      (forall v w, In w (dom d v) ->
                   In w (dom (init_domains GridRuns.two_words) v)) ->
      List.length (variables GridRuns.two_words) <= fuel ->
      backtrack GridRuns.two_words fuel [] d = Ok (([], None), d))
  /\ exists d1 b d2,
       enforce_node_consistency (init_domains GridRuns.two_words)
       = Ok (tt, d1)
       /\ ac3 GridRuns.two_words None d1 = Ok (b, d2)
       /\ (forall fuel,
             List.length (variables GridRuns.two_words) <= fuel ->
             backtrack GridRuns.two_words fuel [] d2 = Ok (([], None), d2))
       /\ solve GridRuns.two_words (init_domains GridRuns.two_words)
          = Ok (None, d2).
Proof.
  apply (backtrack_no_solution GridRuns.two_words
           (init_domains GridRuns.two_words)).
  - vm_compute; reflexivity.
  - vm_compute; reflexivity.
  - exact two_words_no_solution.
Defined.

Lemma ac3_false_empty_domain_witness :
  exists x, In x (dict_keys GridRuns.one_word_failed)
            /\ dict_get var_eqb GridRuns.one_word_failed x = Some [].
Proof.
  apply (ac3_false_empty_domain GridRuns.one_word None
           (init_domains GridRuns.one_word) GridRuns.one_word_failed).
  vm_compute; reflexivity.
Defined.

Lemma revise_spec_witness :
  dom (dict_set var_eqb (init_domains GridRuns.two_words) Grid.across
                ["ABA"%string]) Grid.across
  = filter (supported 2 0 (dom (init_domains GridRuns.two_words)
                               Grid.down_right))
           (dom (init_domains GridRuns.two_words) Grid.across).
Proof.
  apply (revise_spec GridRuns.two_words Grid.across Grid.down_right
           (init_domains GridRuns.two_words)
           (dict_set var_eqb (init_domains GridRuns.two_words) Grid.across
                     ["ABA"%string]) true).
  - vm_compute; reflexivity.
  - vm_compute; reflexivity.
  - vm_compute; reflexivity.
Defined.

Lemma enforce_node_consistency_spec_witness :
  exists d',
    enforce_node_consistency
      (init_domains (Grid.puzzle ["AB"%string; "ABC"%string; "ABCD"%string]))
    = Ok (tt, d')
    /\ dict_keys d'
       = dict_keys (init_domains
                      (Grid.puzzle ["AB"%string; "ABC"%string; "ABCD"%string]))
    /\ (forall v w, In w (dom d' v) -> String.length w = var_length v)
    /\ (forall v w,
          In w (dom d' v) <->
          In w (dom (init_domains
                       (Grid.puzzle ["AB"%string; "ABC"%string; "ABCD"%string]))
                    v)
          /\ String.length w = var_length v).
Proof.
  apply (enforce_node_consistency_spec
           (init_domains
              (Grid.puzzle ["AB"%string; "ABC"%string; "ABCD"%string]))).
  vm_compute; reflexivity.
Defined.

Lemma backtrack_empty_domain_witness :
  exists v,
    select_unassigned_variable GridRuns.one_word [] GridRuns.one_word_failed
    = Ok (v, GridRuns.one_word_failed)
    /\ dict_get var_eqb GridRuns.one_word_failed v = Some []
    /\ order_domain_values GridRuns.one_word v [] GridRuns.one_word_failed
       = Ok ([], GridRuns.one_word_failed)
    /\ backtrack GridRuns.one_word 0 [] GridRuns.one_word_failed
       = Ok (([], None), GridRuns.one_word_failed)
    /\ forall d0 d1 d2,
         store_ok d0 = true ->
         enforce_node_consistency d0 = Ok (tt, d1) ->
         ac3 GridRuns.one_word None d1 = Ok (false, d2) ->
         solve GridRuns.one_word d0 = Ok (None, d2).
Proof.
  apply (backtrack_empty_domain GridRuns.one_word GridRuns.one_word_failed
           [] Grid.across 0).
  - vm_compute; reflexivity.
  - vm_compute; reflexivity.
  - vm_compute; reflexivity.
  - vm_compute; reflexivity.
Defined.

(* ================================================================== *)
(** * Further properties of the solver *)

(** ** consistent decides consistency *)

Lemma consistent_neighbours_complete cw a var wv :
  wf_crossword cw = true -> In var (variables cw) ->
  consistent_assignment cw a ->
  dict_get var_eqb a var = Some wv ->
  forall nbs, incl nbs (neighbors cw var) ->
    consistent_neighbours cw a var nbs = Ok true.
Proof.
  intros W Iv [_ [_ O]] Gv.
  induction nbs as [|n nbs IH]; simpl; intros Hn; auto.
  assert (IHn : consistent_neighbours cw a var nbs = Ok true)
    by (apply IH; intros z Iz; apply Hn; right; exact Iz).
  unfold dict_mem.
  destruct (dict_get var_eqb a n) as [wn|] eqn:Gn; auto.
  destruct (neighbors_wf cw var n W Iv (Hn n (or_introl eq_refl)))
    as [_ [o0 [o1 E]]].
  rewrite E.
  destruct (O var n o0 o1 wv wn E Gv Gn) as [c [C0 C1]].
  unfold dict_item. rewrite Gv, Gn. simpl.
  unfold char_at. rewrite C0, C1. simpl.
  rewrite Ascii.eqb_refl. simpl. exact IHn.
Qed.

Lemma consistent_loop_complete cw a :
  wf_crossword cw = true -> consistent_assignment cw a ->
  forall todo used,
    NoDup todo ->
    (forall v, In v todo -> In v (dict_keys a) /\ In v (variables cw)) ->
    (forall v w, In v todo -> dict_get var_eqb a v = Some w ->
                 ~ In w used) ->
    consistent_loop cw a todo used = Ok true.
Proof.
  intros W C. pose proof C as [U [L _]].
  induction todo as [|var todo IH]; simpl; intros used ND Hk Hu; auto.
  inversion ND as [|? ? Nv ND']; subst.
  destruct (Hk var (or_introl eq_refl)) as [Ka Kv].
  destruct (dict_get_some _ var_eqb_spec a var Ka) as [w G].
  unfold dict_item. rewrite G. simpl.
  destruct (set_mem w used) eqn:E.
  { exfalso. apply set_mem_in in E.
    apply (Hu var w (or_introl eq_refl) G E). }
  rewrite (L var w G), Nat.eqb_refl. simpl.
  rewrite (consistent_neighbours_complete cw a var w W Kv C G _
             (incl_refl _)).
  simpl. apply IH; [exact ND'| |].
  - intros v I. apply Hk. right; exact I.
  - intros v w' I G' J. apply in_app_or in J. destruct J as [J|[J|[]]].
    + apply (Hu v w' (or_intror I) G' J).
    + subst w'. pose proof (U _ _ _ G G') as Q. subst v. contradiction.
Qed.

Lemma consistent_complete cw a :
  wf_crossword cw = true -> NoDup (dict_keys a) ->
  (forall v, In v (dict_keys a) -> In v (variables cw)) ->
  consistent_assignment cw a -> consistent cw a = Ok true.
Proof.
  intros W ND K C. unfold consistent.
  apply consistent_loop_complete; auto.
Qed.

(** X4.  On an assignment over variables of the puzzle, [consistent]
    answers [True] exactly when no word is used twice, every word has the
    length of its variable and overlapping variables agree on their shared
    cell. *)
Theorem consistent_decides (cw : Crossword) (a : assignment) :
  wf_crossword cw = true ->
  nodupb var_eqb (dict_keys a) = true ->
  forallb (fun v => var_in v (variables cw)) (dict_keys a) = true ->
  (consistent cw a = Ok true <-> consistent_assignment cw a).
Proof.
  intros W ND K. apply (nodupb_NoDup _ var_eqb_spec) in ND.
  rewrite forallb_forall in K. split.
  - apply consistent_sound; auto.
  - apply consistent_complete; auto.
    intros v I. apply var_in_In, K, I.
Qed.

(** ** order_domain_values sorts the domain by conflicts *)

Lemma count_word overlap w nws : forall ud ud' n,
  ofold nws ud (fun ud0 nw => count_conflict overlap ud0 w nw) = Ok ud' ->
  dict_get String.eqb ud w = Some n ->
  ud' = dict_set String.eqb ud w
          (n + match overlap with
               | Some (o0, o1) =>
                   List.length (filter (char_mismatch o0 o1 w) nws)
               | None => 0
               end).
Proof.
  induction nws as [|nw nws IH]; simpl; intros ud ud' n H G.
  - inversion H; subst.
    replace (n + match overlap with Some (_, _) => 0 | None => 0 end) with n
      by (destruct overlap as [[? ?]|]; lia).
    symmetry. apply (dict_set_same _ word_eqb_spec); exact G.
  - apply obind_inv in H. destruct H as [ud1 [H1 H2]].
    unfold count_conflict in H1.
    destruct overlap as [[o0 o1]|]; [|discriminate].
    apply obind_inv in H1. destruct H1 as [c0 [C0 H1]].
    apply obind_inv in H1. destruct H1 as [c1 [C1 H1]].
    apply char_at_inv in C0, C1.
    unfold char_mismatch at 1. rewrite C0, C1.
    destruct (negb (Ascii.eqb c0 c1)).
    + apply obind_inv in H1. destruct H1 as [m [Hm H1]].
      apply dict_item_inv in Hm. rewrite G in Hm. inversion Hm; subst m.
      inversion H1; subst ud1; clear H1.
      apply (IH _ _ (n + 1)) in H2.
      2:{ apply (dict_get_set_same _ word_eqb_spec). }
      rewrite H2, (dict_set_set _ word_eqb_spec). f_equal. simpl. lia.
    + inversion H1; subst ud1. apply (IH _ _ n H2 G).
Qed.

Lemma count_neighbour_loop cw var nb d (suf : @dict string nat) :
  forall pre ud' d',
    NoDup (dict_keys (pre ++ suf)) ->
    for_fold (dict_keys suf) (pre ++ suf) (fun ud w =>
      nws <- domain_of nb ;;
      lift (ofold nws ud (fun ud0 nw =>
              count_conflict (overlaps cw var nb) ud0 w nw))) d
    = Ok (ud', d') ->
    ud' = pre ++ bump (ruled_out cw d var nb) suf.
Proof.
  induction suf as [|[k v] suf IH]; simpl; intros pre ud' d' ND H.
  - inversion H; reflexivity.
  - apply bind_inv in H. destruct H as [ud1 [d1 [H1 H2]]].
    apply bind_inv in H1. destruct H1 as [nws [d2 [Hn H1]]].
    apply domain_of_inv in Hn. destruct Hn as [Hn ->].
    apply lift_inv in H1. destruct H1 as [H1 ->].
    assert (Nk : ~ In k (dict_keys pre)).
    { unfold dict_keys in *. rewrite map_app in ND. simpl in ND.
      apply NoDup_remove_2 in ND. intros I. apply ND, in_or_app; auto. }
    assert (G : dict_get String.eqb (pre ++ (k, v) :: suf) k = Some v).
    { assert (E : dict_get String.eqb pre k = None)
        by (apply (dict_get_none _ word_eqb_spec); exact Nk).
      rewrite (dict_get_app _ word_eqb_spec), E. simpl.
      rewrite String.eqb_refl. reflexivity. }
    apply (count_word _ _ _ _ _ _ H1) in G. subst ud1.
    assert (E : match overlaps cw var nb with
                | Some (o0, o1) =>
                    List.length (filter (char_mismatch o0 o1 k) nws)
                | None => 0
                end = ruled_out cw d var nb k)
      by (unfold ruled_out, dom; rewrite Hn; reflexivity).
    rewrite E in H2.
    rewrite (dict_set_app_r _ word_eqb_spec) in H2 by exact Nk.
    simpl in H2. rewrite String.eqb_refl in H2.
    specialize (IH (pre ++ [(k, v + ruled_out cw d var nb k)]) ud' d').
    rewrite <- app_assoc in IH. simpl in IH.
    rewrite IH; auto.
    + rewrite <- app_assoc. reflexivity.
    + unfold dict_keys in *. rewrite !map_app in *. simpl in *. exact ND.
Qed.

Lemma bump_keys f ud : dict_keys (bump f ud) = dict_keys ud.
Proof. unfold bump, dict_keys. rewrite map_map. reflexivity. Qed.

Lemma bump_bump f g ud : bump g (bump f ud) = bump (fun w => f w + g w) ud.
Proof.
  unfold bump. rewrite map_map. apply map_ext. intros [k v]. simpl.
  f_equal. lia.
Qed.

Lemma bump_zero ud : bump (fun _ => 0) ud = ud.
Proof.
  unfold bump. rewrite <- (map_id ud) at 2. apply map_ext.
  intros [k v]. simpl. f_equal. lia.
Qed.

Lemma count_all_neighbours cw var (a : assignment) d : forall nbs ud ud' d',
  NoDup (dict_keys ud) ->
  for_fold nbs ud (fun ud0 neighbour =>
    if negb (dict_mem var_eqb a neighbour)
    then count_neighbour cw var neighbour ud0
    else ret ud0) d = Ok (ud', d') ->
  ud' = bump (fun w =>
                list_sum (map (fun nb => if negb (dict_mem var_eqb a nb)
                                         then ruled_out cw d var nb w else 0)
                              nbs)) ud.
Proof.
  induction nbs as [|nb nbs IH]; simpl; intros ud ud' d' ND H.
  - inversion H; subst. symmetry. apply bump_zero.
  - apply bind_inv in H. destruct H as [ud1 [d1 [H1 H2]]].
    destruct (negb (dict_mem var_eqb a nb)).
    + pose proof (count_neighbour_inv _ _ _ _ _ _ _ H1) as [-> _].
      apply (count_neighbour_loop cw var nb d ud []) in H1; auto.
      simpl in H1. subst ud1.
      apply IH in H2; [|rewrite bump_keys; exact ND].
      rewrite H2, bump_bump. reflexivity.
    + inversion H1; subst ud1 d1. apply IH in H2; auto.
Qed.

Lemma init_counter_fresh ws : forall ud,
  NoDup ws -> (forall w, In w ws -> ~ In w (dict_keys ud)) ->
  init_counter ws ud = ud ++ map (fun w => (w, 0)) ws.
Proof.
  unfold init_counter.
  induction ws as [|w ws IH]; simpl; intros ud ND Hf.
  - rewrite app_nil_r. reflexivity.
  - inversion ND; subst.
    rewrite (dict_set_fresh _ word_eqb_spec)
      by (apply (dict_mem_false _ word_eqb_spec), Hf; left; reflexivity).
    rewrite IH; auto.
    + rewrite <- app_assoc. reflexivity.
    + intros w' I J. unfold dict_keys in J. rewrite map_app in J.
      apply in_app_or in J. destruct J as [J|[J|[]]].
      * apply (Hf w' (or_intror I) J).
      * simpl in J. subst w'. contradiction.
Qed.

Lemma dict_remove_perm {V} (ud : @dict string V) k :
  In k (dict_keys ud) ->
  Permutation (dict_keys ud) (k :: dict_keys (dict_remove String.eqb ud k)).
Proof.
  induction ud as [|[k' v'] ud IH]; simpl; intros I; [destruct I|].
  destruct (String.eqb_spec k' k).
  - subst. apply Permutation_refl.
  - simpl. destruct I as [I|I]; [contradiction|].
    eapply Permutation_trans; [apply perm_skip, IH, I|apply perm_swap].
Qed.

Lemma lcv_drain_sorted (f : word -> nat) : forall fuel ud ordered res,
  lcv_drain fuel ud ordered = Ok res ->
  (forall k v, In (k, v) ud -> v = f k) ->
  exists res',
    res = ordered ++ res'
    /\ Permutation res' (dict_keys ud)
    /\ StronglySorted (fun w1 w2 => f w1 <= f w2) res'.
Proof.
  induction fuel as [|fuel IH]; intros [|e ud] ordered res H Hf;
    cbn [lcv_drain] in H; try discriminate.
  - inversion H; subst. exists []. rewrite app_nil_r.
    split; auto. split; constructor.
  - inversion H; subst. exists []. rewrite app_nil_r.
    split; auto. split; constructor.
  - apply obind_inv in H. destruct H as [lc [Hm H]].
    apply obind_inv in H. destruct H as [ud' [Hp H]].
    apply (dict_pop_inv _ word_eqb_spec) in Hp. destruct Hp as [-> Ik].
    destruct (py_min_spec _ lc Hm) as [m [Im Lm]].
    apply IH in H.
    2:{ intros k v I. apply Hf. apply (dict_remove_in _ word_eqb_spec) in I.
        exact I. }
    destruct H as [r [-> [P S]]].
    exists (lc :: r). split; [rewrite <- app_assoc; reflexivity|].
    split.
    + eapply Permutation_trans;
        [apply perm_skip, P|apply Permutation_sym, dict_remove_perm, Ik].
    + constructor; auto.
      apply Forall_forall. intros b Ib.
      apply (Permutation_in _ P) in Ib.
      destruct (dict_get_some _ word_eqb_spec _ b Ib) as [v G].
      apply (dict_get_in _ word_eqb_spec) in G.
      apply (dict_remove_in _ word_eqb_spec) in G.
      rewrite <- (Hf lc m Im), <- (Hf b v G). apply (Lm b v G).
Qed.

Lemma order_sorted cw var a d ws d' :
  store_ok d = true ->
  order_domain_values cw var a d = Ok (ws, d') ->
  Permutation ws (dom d var)
  /\ StronglySorted (fun w1 w2 => conflicts cw d a var w1
                                  <= conflicts cw d a var w2) ws.
Proof.
  intros SO H. rewrite order_unfold in H.
  apply bind_inv in H. destruct H as [ws0 [d1 [Hw H]]].
  apply domain_of_inv in Hw. destruct Hw as [Hw ->].
  apply bind_inv in H. destruct H as [ud [d1 [Hc H]]].
  apply lift_inv in H. destruct H as [Hd ->].
  pose proof (store_ok_domain d var ws0 SO Hw) as NDw.
  rewrite (init_counter_fresh ws0 [] NDw) in Hc by (intros w _ []).
  simpl in Hc.
  assert (Hc' := Hc).
  apply (for_fold_pres (fun _ => True)) in Hc'; auto.
  2:{ intros s nb s' d2 _ _ Hb. destruct (negb (dict_mem var_eqb a nb)).
      - apply count_neighbour_inv in Hb. tauto.
      - inversion Hb; auto. }
  destruct Hc' as [-> _].
  apply count_all_neighbours in Hc.
  2:{ unfold dict_keys. rewrite map_map. simpl. rewrite map_id. exact NDw. }
  subst ud.
  apply (lcv_drain_sorted (conflicts cw d a var)) in Hd.
  - destruct Hd as [r [E [P S]]]. simpl in E. subst r.
    rewrite bump_keys in P. unfold dict_keys in P.
    rewrite map_map in P. simpl in P. rewrite map_id in P.
    unfold dom. rewrite Hw. auto.
  - intros k v I. unfold bump in I. rewrite map_map in I.
    apply in_map_iff in I. destruct I as [w [E _]]. simpl in E.
    inversion E; subst. reflexivity.
Qed.

(** X7.  [order_domain_values] returns every word of the variable's domain
    exactly once, least constraining first: the words are in ascending
    order of the number of candidates they rule out among the unassigned
    neighbours. *)
Theorem order_least_constraining_first (cw : Crossword) (var : Var)
        (a : assignment) (d d' : domains) (ws : list word) :
  store_ok d = true ->
  order_domain_values cw var a d = Ok (ws, d') ->
  Permutation ws (dom d var)
  /\ StronglySorted (fun w1 w2 => conflicts cw d a var w1
                                  <= conflicts cw d a var w2) ws.
Proof. intros SO H. apply (order_sorted cw var a d ws d' SO H). Qed.

(** ** select_unassigned_variable: fewest values, then highest degree *)

Lemma dict_remove_in_or {V} (uv : @dict Var V) k e :
  In e uv -> In e (dict_remove var_eqb uv k) \/ fst e = k.
Proof.
  induction uv as [|[k' v'] uv IH]; simpl; intros I; [destruct I|].
  destruct (var_eqb_spec k' k).
  - destruct I as [<-|I]; auto.
  - destruct I as [<-|I]; [left; left; reflexivity|].
    destruct (IH I); auto. left. right. assumption.
Qed.

Lemma py_max_spec {K} (d : list (K * nat)) k :
  py_max d = Ok k ->
  exists g, In (k, g) d /\ forall k2 g2, In (k2, g2) d -> g2 <= g.
Proof.
  destruct d as [|[k0 v0] d]; simpl; [discriminate|].
  intros H; inversion H; subst; clear H.
  revert k0 v0. induction d as [|[k' v'] d IH]; simpl; intros k0 v0.
  - exists v0. split; auto. intros k2 g2 [E|[]]. inversion E; lia.
  - destruct (Nat.ltb_spec v0 v').
    + destruct (IH k' v') as [g [I L]]. exists g. split.
      * simpl in I. tauto.
      * intros k2 g2 [E|[E|E]].
        -- inversion E; subst. specialize (L k' v' (or_introl eq_refl)). lia.
        -- apply (L k2 g2). left; auto.
        -- apply (L k2 g2). right; auto.
    + destruct (IH k0 v0) as [g [I L]]. exists g. split.
      * simpl in I. tauto.
      * intros k2 g2 [E|[E|E]].
        -- apply (L k2 g2). left; auto.
        -- inversion E; subst. specialize (L k0 v0 (or_introl eq_refl)). lia.
        -- apply (L k2 g2). right; auto.
Qed.

Lemma dict_remove_nodup {V} (uv : @dict Var V) k :
  NoDup (dict_keys uv) -> NoDup (dict_keys (dict_remove var_eqb uv k)).
Proof.
  induction uv as [|[k' v'] uv IH]; simpl; intros ND; auto.
  inversion ND; subst.
  destruct (var_eqb k' k); simpl; auto.
  constructor; auto.
  intros I. apply H1. apply (dict_remove_keys_incl _ var_eqb_spec uv k).
  exact I.
Qed.

(** Past the sentinel the loop collects every variable whose count equals
    [min_domains], as long as no count is below it. *)
Lemma select_loop_all cw : forall n uv vo m vo',
  select_loop cw n uv vo (Z.of_nat m) = Ok vo' ->
  n = List.length uv ->
  NoDup (dict_keys uv) ->
  (forall k v, In (k, v) uv -> m <= v) ->
  (forall k, In (k, m) uv -> In k (dict_keys vo'))
  /\ incl (dict_keys vo) (dict_keys vo').
Proof.
  induction n as [|n IH]; simpl; intros uv vo m vo' H L ND Hm.
  - inversion H; subst. destruct uv; [|discriminate].
    split; [intros k []|apply incl_refl].
  - apply obind_inv in H. destruct H as [mv [Hmin H]].
    apply obind_inv in H. destruct H as [mvv [Hv H]].
    apply obind_inv in H. destruct H as [uv' [Hp H]].
    apply dict_item_inv in Hv.
    apply (dict_pop_inv _ var_eqb_spec) in Hp. destruct Hp as [-> Ik].
    destruct (py_min_spec uv mv Hmin) as [m1 [I1 L1]].
    rewrite (in_dict_get _ var_eqb_spec uv mv m1 ND I1) in Hv.
    inversion Hv; subst mvv; clear Hv.
    destruct (Z.eqb_spec (Z.of_nat m) (-1)); [lia|].
    destruct (Z.eqb_spec (Z.of_nat m) (Z.of_nat m1)).
    + assert (m = m1) by lia. subst m1.
      apply IH in H.
      * destruct H as [HA HB]. split.
        -- intros k I.
           destruct (dict_remove_in_or uv mv (k, m) I) as [J|J]; auto.
           simpl in J. subst k. apply HB.
           apply (dict_set_key_in _ var_eqb_spec).
        -- intros k I. apply HB.
           apply (dict_set_keys_incl _ var_eqb_spec); exact I.
      * apply (dict_mem_in _ var_eqb_spec) in Ik.
        pose proof (dict_remove_length _ var_eqb_spec uv mv Ik). lia.
      * apply dict_remove_nodup; exact ND.
      * intros k v I. apply (Hm k v).
        apply (dict_remove_in _ var_eqb_spec) in I. exact I.
    + inversion H; subst vo'. split; [|apply incl_refl].
      intros k I. exfalso.
      pose proof (L1 k m I). pose proof (Hm mv m1 I1). lia.
Qed.

Lemma select_loop_values cw : forall n uv vo md vo',
  select_loop cw n uv vo md = Ok vo' ->
  forall k g, In (k, g) vo' ->
              In (k, g) vo \/ g = List.length (neighbors cw k).
Proof.
  induction n as [|n IH]; simpl; intros uv vo md vo' H k g I.
  - inversion H; subst. auto.
  - apply obind_inv in H. destruct H as [mv [Hmin H]].
    apply obind_inv in H. destruct H as [mvv [Hv H]].
    apply obind_inv in H. destruct H as [uv' [Hp H]].
    assert (Step : forall md',
      select_loop cw n uv'
        (dict_set var_eqb vo mv (List.length (neighbors cw mv))) md' = Ok vo' ->
      In (k, g) vo \/ g = List.length (neighbors cw k)).
    { intros md' Q. destruct (IH _ _ _ _ Q k g I) as [J|J]; auto.
      apply (dict_set_in _ var_eqb_spec) in J.
      destruct J as [J|J]; auto. inversion J; subst. auto. }
    destruct (md =? -1)%Z; [apply (Step _ H)|].
    destruct (md =? Z.of_nat mvv)%Z; [apply (Step _ H)|].
    inversion H; subst. auto.
Qed.

Lemma select_degree cw a d v d' :
  select_unassigned_variable cw a d = Ok (v, d') ->
  forall x, In x (dict_keys d) -> ~ In x (dict_keys a) ->
            List.length (dom d x) = List.length (dom d v) ->
            List.length (neighbors cw x) <= List.length (neighbors cw v).
Proof.
  unfold select_unassigned_variable. intros H x Ix Nx Ex.
  apply bind_inv in H. destruct H as [vars [d1 [Hk H]]].
  inversion Hk; subst vars d1; clear Hk.
  apply bind_inv in H. destruct H as [uv [d1 [Hc H]]].
  pose proof (collect_unassigned_nodup a d (dict_keys d) [] uv d1
                (NoDup_nil _) Hc) as ND.
  apply collect_unassigned_inv in Hc. destruct Hc as [-> [HA HB]].
  apply bind_inv in H. destruct H as [vo [d1 [Hl H]]].
  apply lift_inv in Hl. destruct Hl as [Hl ->].
  apply lift_inv in H. destruct H as [Hmax _].
  destruct (py_max_spec vo v Hmax) as [g [Ig Lg]].
  pose proof (select_loop_min _ _ _ _ ND Hl v (in_dict_keys vo v g Ig))
    as [m [Im Lm]].
  destruct (HA v m Im) as [[]|[_ [_ Em]]].
  assert (Jx : In x (dict_keys uv)) by (apply HB; right; auto).
  destruct (dict_get_some _ var_eqb_spec uv x Jx) as [n Gn].
  apply (dict_get_in _ var_eqb_spec) in Gn.
  destruct (HA x n Gn) as [[]|[_ [_ En]]].
  assert (Gm : In (x, m) uv) by (replace m with n by lia; exact Gn).
  clear Gn En.
  pose proof (select_loop_values _ _ _ _ _ _ Hl) as Hval.
  assert (Kx : In x (dict_keys vo)).
  { remember (List.length uv) as n0 eqn:Len. destruct n0 as [|n0].
    { destruct uv; [destruct Jx|discriminate]. }
    cbn [select_loop] in Hl.
    apply obind_inv in Hl. destruct Hl as [mv [Hmin Hl]].
    apply obind_inv in Hl. destruct Hl as [mvv [Hv Hl]].
    apply obind_inv in Hl. destruct Hl as [uv' [Hp Hl]].
    apply dict_item_inv in Hv.
    apply (dict_pop_inv _ var_eqb_spec) in Hp. destruct Hp as [-> Ik].
    destruct (py_min_spec _ mv Hmin) as [m1 [I1 L1]].
    rewrite (in_dict_get _ var_eqb_spec _ mv m1 ND I1) in Hv.
    inversion Hv; subst mvv.
    assert (m1 = m).
    { pose proof (L1 _ _ Im). pose proof (Lm _ _ I1). lia. }
    subst m1. rewrite Z.eqb_refl in Hl.
    apply select_loop_all in Hl.
    - destruct Hl as [HAll HInc].
      destruct (dict_remove_in_or uv mv (x, m) Gm) as [J|J].
      + apply HAll; exact J.
      + simpl in J. subst x. apply HInc.
        apply (dict_set_key_in _ var_eqb_spec).
    - apply (dict_mem_in _ var_eqb_spec) in Ik.
      pose proof (dict_remove_length _ var_eqb_spec uv mv Ik) as Q. lia.
    - apply dict_remove_nodup; exact ND.
    - intros k v0 I. apply (dict_remove_in _ var_eqb_spec) in I.
      apply (Lm k v0 I). }
  destruct (dict_get_some _ var_eqb_spec vo x Kx) as [gx Gx].
  apply (dict_get_in _ var_eqb_spec) in Gx.
  pose proof (Lg x gx Gx) as Le.
  destruct (Hval x gx Gx) as [[]|Egx].
  destruct (Hval v g Ig) as [[]|Eg]. subst gx g. exact Le.
Qed.

(** X5.  The variable [select_unassigned_variable] returns is an unassigned
    variable of the store with the fewest remaining values, and among the
    unassigned variables with that many values none has more neighbours. *)
Theorem select_mrv_then_degree (cw : Crossword) (a : assignment)
        (d d' : domains) (v : Var) :
  select_unassigned_variable cw a d = Ok (v, d') ->
  In v (dict_keys d) /\ dict_mem var_eqb a v = false
  /\ (forall x, In x (dict_keys d) -> dict_mem var_eqb a x = false ->
                List.length (dom d v) <= List.length (dom d x))
  /\ (forall x, In x (dict_keys d) -> dict_mem var_eqb a x = false ->
                List.length (dom d x) = List.length (dom d v) ->
                List.length (neighbors cw x) <= List.length (neighbors cw v)).
Proof.
  intros H. pose proof (select_degree cw a d v d' H) as Deg.
  apply select_inv in H. destruct H as [_ [Iv [Nv Min]]].
  split; auto. split; [apply (dict_mem_false _ var_eqb_spec); exact Nv|].
  split.
  - intros x Ix Nx. apply Min; auto.
    apply (dict_mem_false _ var_eqb_spec); exact Nx.
  - intros x Ix Nx. apply Deg; auto.
    apply (dict_mem_false _ var_eqb_spec); exact Nx.
Qed.

Lemma collect_all_assigned a d vars : forall uv0,
  (forall k, In k vars -> dict_mem var_eqb a k = true) ->
  collect_unassigned a vars uv0 d = Ok (uv0, d).
Proof.
  unfold collect_unassigned.
  induction vars as [|var vars IH]; simpl; intros uv0 H; auto.
  rewrite (H var (or_introl eq_refl)). simpl.
  erewrite bind_ok; [|reflexivity]. apply IH. auto.
Qed.

(** X6.  [select_unassigned_variable] has two outcomes.  When every
    variable of the store is assigned it raises [ValueError] (the [max] of
    an empty dictionary); otherwise it returns an unassigned variable of
    the store and leaves the store alone. *)
Theorem select_outcomes (cw : Crossword) (a : assignment) (d : domains) :
  match select_unassigned_variable cw a d with
  | Ok (v, d') =>
      d' = d /\ In v (dict_keys d) /\ dict_mem var_eqb a v = false
      /\ forallb (fun x => dict_mem var_eqb a x) (dict_keys d) = false
  | Raise e =>
      e = ValueError
      /\ forallb (fun x => dict_mem var_eqb a x) (dict_keys d) = true
  | OutOfFuel => False
  end.
Proof.
  destruct (forallb (fun x => dict_mem var_eqb a x) (dict_keys d)) eqn:F.
  - rewrite forallb_forall in F.
    unfold select_unassigned_variable.
    erewrite bind_ok; [|reflexivity].
    erewrite bind_ok; [|apply collect_all_assigned; exact F].
    simpl. auto.
  - assert (E : exists x, In x (dict_keys d) /\ ~ In x (dict_keys a)).
    { clear cw. induction (dict_keys d) as [|k l IH]; simpl in F;
        [discriminate|].
      apply andb_false_iff in F. destruct F as [F|F].
      - exists k. split; [left; reflexivity|].
        apply (dict_mem_false _ var_eqb_spec); exact F.
      - destruct (IH F) as [x [I N]]. exists x. split; auto. right; exact I. }
    destruct (select_total cw a d E) as [v Hv]. rewrite Hv.
    apply select_inv in Hv. destruct Hv as [_ [Iv [Nv _]]].
    split; auto. split; auto. split; auto.
    apply (dict_mem_false _ var_eqb_spec); exact Nv.
Qed.

(** ** backtrack and the caller's dictionary *)

Lemma backtrack_try_dict cw search var :
  (forall a d r d',
      search a d = Ok (r, d') ->
      match snd r with
      | None => fst r = a
      | Some res => res = fst r /\ exists ext, res = a ++ ext
      end) ->
  forall cands a d r d',
    ~ In var (dict_keys a) ->
    backtrack_try cw search var cands a d = Ok (r, d') ->
    match snd r with
    | None => fst r = a
    | Some res => res = fst r /\ exists ext, res = a ++ ext
    end.
Proof.
  intros HS.
  induction cands as [|w cands IH]; simpl; intros a d r d' Nv H.
  - inversion H; subst. reflexivity.
  - rewrite (dict_set_fresh _ var_eqb_spec) in H
      by (apply (dict_mem_false _ var_eqb_spec); exact Nv).
    apply bind_inv in H. destruct H as [ok [d1 [Hk H]]].
    apply lift_inv in Hk. destruct Hk as [Hk ->].
    destruct ok; simpl in H.
    + apply bind_inv in H. destruct H as [r1 [d1 [Hr H]]].
      apply HS in Hr.
      destruct r1 as [a1 [res|]]; simpl in Hr, H.
      * inversion H; subst. simpl. destruct Hr as [E [ext X]].
        split; auto. exists ((var, w) :: ext).
        rewrite X, <- app_assoc. reflexivity.
      * rewrite Hr in H.
        apply bind_inv in H. destruct H as [a2 [d2 [Hp H]]].
        apply lift_inv in Hp. destruct Hp as [Hp ->].
        rewrite (pop_after_set a var w Nv) in Hp. inversion Hp; subst a2.
        apply (IH a d1 r d'); auto.
    + apply bind_inv in H. destruct H as [a2 [d2 [Hp H]]].
      apply lift_inv in Hp. destruct Hp as [Hp ->].
      rewrite (pop_after_set a var w Nv) in Hp. inversion Hp; subst a2.
      apply (IH a d r d'); auto.
Qed.

Lemma backtrack_dict cw : forall fuel a d r d',
  backtrack cw fuel a d = Ok (r, d') ->
  match snd r with
  | None => fst r = a
  | Some res => res = fst r /\ exists ext, res = a ++ ext
  end.
Proof.
  assert (Step : forall search,
    (forall a d r d',
        search a d = Ok (r, d') ->
        match snd r with
        | None => fst r = a
        | Some res => res = fst r /\ exists ext, res = a ++ ext
        end) ->
    forall a d r d',
      (n <- domain_count ;;
       if List.length a =? n then ret (a, Some a)
       else
         var <- select_unassigned_variable cw a ;;
         candidates <- order_domain_values cw var a ;;
         backtrack_try cw search var candidates a) d = Ok (r, d') ->
      match snd r with
      | None => fst r = a
      | Some res => res = fst r /\ exists ext, res = a ++ ext
      end).
  { intros search HS a d r d' H.
    apply bind_inv in H. destruct H as [n [d1 [Hn H]]].
    inversion Hn; subst n d1; clear Hn.
    destruct (List.length a =? List.length d).
    - inversion H; subst. simpl. split; auto. exists [].
      rewrite app_nil_r. reflexivity.
    - apply bind_inv in H. destruct H as [var [d1 [Hv H]]].
      apply select_inv in Hv. destruct Hv as [-> [_ [Nv _]]].
      apply bind_inv in H. destruct H as [cands [d1 [Ho H]]].
      apply (backtrack_try_dict cw search var HS cands a d1 r d' Nv H). }
  induction fuel as [|fuel IH]; intros a d r d' H;
    rewrite backtrack_unfold in H.
  - apply (Step (fun _ _ => OutOfFuel)) in H; auto.
    intros a0 d0 r0 d0' Q. discriminate.
  - apply (Step (backtrack cw fuel)) in H; auto.
Qed.

(** X8.  [backtrack] works on the caller's dictionary and cleans up after
    itself: when it returns [None] the dictionary is as it was passed in
    (every tentative entry has been popped); when it returns an assignment,
    that is the dictionary itself, and it still starts with the entries the
    caller gave. *)
Theorem backtrack_restores_assignment (cw : Crossword) (fuel : nat)
        (a a' : assignment) (result : option assignment) (d d' : domains) :
  backtrack cw fuel a d = Ok ((a', result), d') ->
  match result with
  | None => a' = a
  | Some res => res = a' /\ exists ext, res = a ++ ext
  end.
Proof. intros H. apply (backtrack_dict cw fuel a d _ d' H). Qed.

(** ** The search finds a solution when there is one *)

Lemma drawn_fromb_ok d a : drawn_fromb d a = true -> drawn_from d a.
Proof.
  unfold drawn_fromb. rewrite forallb_forall. intros H v w G.
  apply (dict_get_in _ var_eqb_spec) in G. apply H in G. simpl in G.
  apply set_mem_in; exact G.
Qed.

Lemma completeb_ok cw a : completeb cw a = true -> complete cw a.
Proof.
  unfold completeb. rewrite forallb_forall. intros H v I.
  apply H in I. apply (dict_mem_in _ var_eqb_spec) in I.
  apply (dict_get_some _ var_eqb_spec); exact I.
Qed.

Lemma sub_consistent cw a s :
  NoDup (dict_keys a) -> sub_assignment a s ->
  consistent_assignment cw s -> consistent_assignment cw a.
Proof.
  intros ND Sub [U [L O]].
  assert (G : forall v w, dict_get var_eqb a v = Some w ->
                          dict_get var_eqb s v = Some w).
  { intros v w H. apply Sub. apply (dict_get_in _ var_eqb_spec); exact H. }
  split; [|split].
  - intros x y w Gx Gy. apply (U x y w); auto.
  - intros v w H. apply L; auto.
  - intros x y ox oy wx wy E Gx Gy. apply (O x y ox oy wx wy); auto.
Qed.

Section SearchFinds.
Variable cw : Crossword.
Variable d : domains.
Variable s : assignment.
Hypothesis W : wf_crossword cw = true.
Hypothesis SF : store_for cw d = true.
Hypothesis NC : node_consistent d = true.
Hypothesis Sd : drawn_from d s.
Hypothesis Sc : complete cw s.
Hypothesis Sk : consistent_assignment cw s.

Lemma backtrack_try_finds search var a wstar :
  search_contract cw search ->
  asg_ok d a -> ~ In var (dict_keys a) ->
  sub_assignment (a ++ [(var, wstar)]) s ->
  (forall w, In w (dom d var) ->
             exists r, search (a ++ [(var, w)]) d = Ok (r, d)) ->
  (exists a' res, search (a ++ [(var, wstar)]) d = Ok ((a', Some res), d)) ->
  forall cands,
    (forall w, In w cands -> In w (dom d var)) ->
    In wstar cands ->
    exists a' res,
      backtrack_try cw search var cands a d = Ok ((a', Some res), d).
Proof.
  intros HS Ha Nv Sub HT HF.
  induction cands as [|w cands IH]; simpl; intros Hc Iw; [destruct Iw|].
  assert (Id : In w (dom d var)) by (apply Hc; left; reflexivity).
  destruct (asg_ok_set d a var w Ha Id Nv) as [E Ha1]. rewrite E.
  destruct (String.eqb_spec w wstar) as [->|Nw].
  - assert (Hk : consistent cw (a ++ [(var, wstar)]) = Ok true).
    { apply consistent_complete; auto.
      - apply Ha1.
      - intros v I. apply (proj2 (proj2 (store_for_inv cw d SF))).
        apply (asg_ok_keys d _ Ha1 v I).
      - apply (sub_consistent cw _ s); auto. apply Ha1. }
    erewrite bind_ok; [|apply lift_ok; exact Hk]. simpl.
    destruct HF as [a' [res Hr]].
    erewrite bind_ok; [|exact Hr]. simpl. unfold ret. eauto.
  - assert (IHc : exists a' res,
               backtrack_try cw search var cands a d = Ok ((a', Some res), d)).
    { apply IH; [intros; apply Hc; right; assumption|].
      destruct Iw as [Q|Q]; [congruence|exact Q]. }
    destruct (consistent_total cw (a ++ [(var, w)]) W) as [ok Hk].
    { intros v0 w0 I. apply (asg_ok_sized cw d SF NC _ _ _ Ha1 I). }
    erewrite bind_ok; [|apply lift_ok; exact Hk].
    destruct ok; simpl.
    + destruct (HT w Id) as [r1 Hr].
      erewrite bind_ok; [|exact Hr].
      destruct (HS _ _ _ _ Ha1 Hk Hr) as [_ [Hn _]].
      destruct r1 as [a1 [res|]]; simpl in *; [unfold ret; eauto|].
      rewrite (Hn eq_refl).
      erewrite bind_ok; [|apply lift_ok; apply pop_after_set; exact Nv].
      exact IHc.
    + erewrite bind_ok; [|apply lift_ok; apply pop_after_set; exact Nv].
      exact IHc.
Qed.

Lemma backtrack_finds : forall fuel a,
  asg_ok d a -> sub_assignment a s ->
  List.length d <= fuel + List.length a ->
  exists a' res, backtrack cw fuel a d = Ok ((a', Some res), d).
Proof.
  destruct (store_for_inv cw d SF) as [SO [ND K]].
  induction fuel as [|fuel IH]; intros a Ha Sub L; rewrite backtrack_unfold;
    (erewrite bind_ok; [|reflexivity]);
    pose proof (asg_ok_length d a Ha) as La;
    (destruct (Nat.eqb_spec (List.length a) (List.length d)) as [Q|Q];
     [unfold ret; eauto|]).
  - simpl in L. lia.
  - destruct (select_total cw a d) as [var Hv];
      [apply exists_unassigned; auto; lia|].
    erewrite bind_ok; [|exact Hv].
    apply select_inv in Hv. destruct Hv as [_ [Iv [Nv _]]].
    destruct (order_total cw var a d W NC) as [cands Ho];
      [apply K; exact Iv|intros x; apply K|].
    erewrite bind_ok; [|exact Ho].
    pose proof (order_sorted cw var a d cands d SO Ho) as [P _].
    destruct (Sc var (proj2 (K var) Iv)) as [wstar Gs].
    pose proof (Sd var wstar Gs) as Is.
    assert (Sub1 : sub_assignment (a ++ [(var, wstar)]) s).
    { intros v w I. apply in_app_or in I. destruct I as [I|[I|[]]].
      - apply Sub; exact I.
      - inversion I; subst. exact Gs. }
    apply (backtrack_try_finds _ var a wstar); auto.
    + apply backtrack_contract.
    + intros w Iw. apply (backtrack_total cw d W SF NC).
      * apply (asg_ok_set d a var w Ha Iw Nv).
      * rewrite length_app. simpl. lia.
    + apply IH; auto.
      * apply (asg_ok_set d a var wstar Ha Is Nv).
      * rewrite length_app. simpl. lia.
    + intros w Iw. apply (Permutation_in _ P Iw).
    + apply (Permutation_in _ (Permutation_sym P) Is).
Qed.
End SearchFinds.

Lemma solved_drawn cw d res : solved cw d res -> drawn_from d res.
Proof.
  intros [_ [_ [_ Ha]]] v w G. apply Ha.
  apply (dict_get_in _ var_eqb_spec); exact G.
Qed.

Lemma solved_valid cw d res :
  wf_crossword cw = true -> store_for cw d = true -> solved cw d res ->
  complete cw res /\ consistent_assignment cw res /\ drawn_from d res.
Proof.
  intros W SF S. pose proof (solved_drawn cw d res S) as D.
  destruct (store_for_inv cw d SF) as [_ [ND K]].
  destruct S as [C [L Ha]]. split; [|split; auto].
  - intros v I. apply (solved_complete d res ND Ha L). apply K; exact I.
  - apply consistent_sound; auto. apply Ha.
Qed.

(** X2.  The search is complete: on a node-consistent store with one
    domain per variable, whenever some complete consistent assignment can
    be drawn from the domains, [backtrack] started from the empty
    assignment returns one (within a depth budget of the number of
    variables), and what it returns is complete, consistent and drawn from
    the domains. *)
Theorem backtrack_complete (cw : Crossword) (d : domains) (fuel : nat)
        (s : assignment) :
  wf_crossword cw = true ->
  store_for cw d = true ->
  node_consistent d = true ->
  List.length (variables cw) <= fuel ->
  drawn_from d s -> complete cw s -> consistent_assignment cw s ->
  exists res,
    backtrack cw fuel [] d = Ok ((res, Some res), d)
    /\ complete cw res /\ consistent_assignment cw res /\ drawn_from d res.
Proof.
  intros W SF NC L Sd Sc Sk.
  destruct (store_for_inv cw d SF) as [_ [ND K]].
  assert (Ld : List.length d <= fuel + 0).
  { assert (Inc : incl (dict_keys d) (variables cw))
      by (intros x I; apply K; exact I).
    pose proof (NoDup_incl_length ND Inc) as Q.
    unfold dict_keys in Q. rewrite length_map in Q. lia. }
  destruct (backtrack_finds cw d s W SF NC Sd Sc Sk fuel []
              (asg_ok_nil d) (fun v w I => match I with end) Ld)
    as [a' [res H]].
  pose proof (backtrack_dict cw fuel [] d _ d H) as [E _]. simpl in E.
  subst a'. exists res. split; [exact H|].
  destruct (backtrack_contract cw fuel [] d _ d (asg_ok_nil d) eq_refl H)
    as [_ [_ Hs]].
  apply (solved_valid cw d res W SF). apply Hs. reflexivity.
Qed.

(** ** Propagation keeps every solution *)

Lemma revise_keeps_solution cw x y d changed d' s :
  wf_crossword cw = true ->
  revise cw x y d = Ok (changed, d') ->
  drawn_from d s -> complete cw s -> consistent_assignment cw s ->
  drawn_from d' s.
Proof.
  intros W H Sd Sc [_ [_ O]]. apply revise_inv in H.
  destruct (overlaps cw x y) as [[ox oy]|] eqn:E.
  - destruct H as [xs [G [-> _]]].
    destruct (overlaps_wf _ _ _ _ _ W E) as [_ [_ [Iy _]]].
    intros v w Gs. destruct (var_eqb_spec x v) as [<-|N].
    + rewrite dom_set_same. apply filter_In. split.
      * pose proof (Sd x w Gs) as I. unfold dom in I. rewrite G in I. exact I.
      * destruct (Sc y Iy) as [wy Gy].
        destruct (O x y ox oy w wy E Gs Gy) as [c [C0 C1]].
        apply supported_iff. exists wy, c. split; auto.
    + rewrite dom_set_other by exact N. apply Sd; exact Gs.
  - destruct H as [_ ->]. exact Sd.
Qed.

Lemma ac3_loop_keeps_solution cw s :
  wf_crossword cw = true ->
  complete cw s -> consistent_assignment cw s ->
  forall fuel arc_list d b d',
    ac3_loop cw fuel arc_list d = Ok (b, d') ->
    drawn_from d s -> drawn_from d' s.
Proof.
  intros W Sc Sk.
  induction fuel as [|fuel IH]; intros [|a rest] d b d' H Sd; simpl in H;
    try discriminate.
  - inversion H; subst; exact Sd.
  - inversion H; subst; exact Sd.
  - apply bind_inv in H. destruct H as [r [d1 [St H]]].
    apply ac3_step_inv in St. destruct St as [c [R _]].
    pose proof (revise_keeps_solution cw _ _ _ _ _ s W R Sd Sc Sk) as Sd1.
    destruct r as [al|].
    + apply (IH _ _ _ _ H Sd1).
    + inversion H; subst. exact Sd1.
Qed.

Lemma ac3_keeps_solution cw arcs d b d' s :
  wf_crossword cw = true -> store_for cw d = true ->
  ac3 cw arcs d = Ok (b, d') ->
  drawn_from d s -> complete cw s -> consistent_assignment cw s ->
  drawn_from d' s /\ b = true.
Proof.
  intros W SF H Sd Sc Sk.
  assert (D : drawn_from d' s).
  { unfold ac3 in H. apply bind_inv in H. destruct H as [al [d1 [Ha H]]].
    assert (d1 = d).
    { destruct arcs; [inversion Ha; reflexivity|].
      unfold all_arcs in Ha. apply bind_inv in Ha.
      destruct Ha as [vs [d2 [Hk Ha]]]. inversion Hk; inversion Ha; congruence. }
    subst d1. apply (ac3_loop_keeps_solution cw s W Sc Sk _ _ _ _ _ H Sd). }
  split; auto.
  destruct b; auto. exfalso.
  destruct (ac3_false_inv cw arcs d d' H) as [x [Ix Gx]].
  destruct (shrinks_ac3 cw arcs d _ d' H) as [K _].
  destruct (store_for_inv cw d SF) as [_ [_ Kv]].
  rewrite K in Ix. apply Kv in Ix.
  destruct (Sc x Ix) as [w Gs].
  pose proof (D x w Gs) as I. unfold dom in I. rewrite Gx in I. exact I.
Qed.

(** X3.  Propagation never costs a solution: whatever arcs [ac3] is given,
    every complete consistent assignment that could be drawn from the
    domains before the call can still be drawn from them afterwards, and
    on a puzzle that has one [ac3] does not answer [False]. *)
Theorem ac3_keeps_solutions (cw : Crossword) (arcs : option (list arc))
        (d d' : domains) (b : bool) (s : assignment) :
  wf_crossword cw = true ->
  store_for cw d = true ->
  ac3 cw arcs d = Ok (b, d') ->
  drawn_from d s -> complete cw s -> consistent_assignment cw s ->
  drawn_from d' s /\ b = true.
Proof.
  intros W SF H Sd Sc Sk.
  apply (ac3_keeps_solution cw arcs d b d' s W SF H Sd Sc Sk).
Qed.

(** ** solve, end to end *)

Lemma node_filter_keeps_solution cw d s :
  drawn_from d s -> consistent_assignment cw s ->
  drawn_from (node_filter d) s.
Proof.
  intros Sd [_ [L _]] v w G. unfold dom. rewrite node_filter_get.
  pose proof (Sd v w G) as I. unfold dom in I.
  destruct (dict_get var_eqb d v); simpl; [|exact I].
  apply filter_In. split; auto. apply Nat.eqb_eq. apply L; exact G.
Qed.

Lemma solve_outcome cw d0 :
  wf_crossword cw = true -> store_for cw d0 = true ->
  exists r d2,
    solve cw d0 = Ok (r, d2)
    /\ match r with
       | Some res =>
           complete cw res /\ consistent_assignment cw res
           /\ drawn_from d0 res
       | None =>
           forall s, drawn_from d0 s -> complete cw s ->
                     consistent_assignment cw s -> False
       end.
Proof.
  intros W SF.
  destruct (enforce_returns cw d0 SF) as [E St1].
  destruct (ac3_returns cw _ W St1) as [b [d2 [Ac [SF2 NC2]]]].
  destruct (shrinks_enforce_node_consistency _ _ _ E) as [_ S1].
  destruct (shrinks_ac3 cw None _ _ _ Ac) as [_ S2].
  destruct (backtrack_total cw d2 W SF2 NC2 (List.length d2) []
              (asg_ok_nil d2)) as [r H]; [lia|].
  exists (snd r), d2. split.
  - unfold solve. rewrite (solve_with_after cw _ d0 _ b d2 E Ac).
    unfold backtrack_search.
    erewrite bind_ok; [|erewrite bind_ok; [|reflexivity]; exact H].
    reflexivity.
  - destruct (backtrack_contract cw _ [] d2 r d2 (asg_ok_nil d2) eq_refl H)
      as [_ [_ Hs]].
    destruct r as [a' [res|]]; simpl in *.
    + destruct (solved_valid cw d2 res W SF2 (Hs res eq_refl)) as [C [K D]].
      split; auto. split; auto.
      intros v w G. apply S1, S2, D, G.
    + intros s Sd Sc Sk.
      pose proof (node_filter_keeps_solution cw d0 s Sd Sk) as Sd1.
      destruct (ac3_keeps_solution cw None _ b d2 s W (proj1 St1) Ac Sd1 Sc Sk)
        as [Sd2 _].
      destruct (backtrack_finds cw d2 s W SF2 NC2 Sd2 Sc Sk (List.length d2) []
                  (asg_ok_nil d2) (fun v w I => match I with end))
        as [a1 [res Q]]; [lia|].
      rewrite H in Q. discriminate Q.
Qed.

(** X1.  [solve] is correct on every puzzle and every store of candidate
    sets for its variables: it returns without fault; when it returns an
    assignment, that assignment is complete, consistent and uses for each
    variable a word of its initial domain; when it returns [None], no such
    assignment exists. *)
Theorem solve_correct (cw : Crossword) (d0 : domains) :
  wf_crossword cw = true ->
  store_for cw d0 = true ->
  exists r d2,
    solve cw d0 = Ok (r, d2)
    /\ match r with
       | Some res =>
           complete cw res /\ consistent_assignment cw res
           /\ drawn_from d0 res
       | None =>
           forall s, drawn_from d0 s -> complete cw s ->
                     consistent_assignment cw s -> False
       end.
Proof. intros W SF. apply (solve_outcome cw d0 W SF). Qed.

(** ** A freshly built creator *)

Lemma init_domains_get cw v :
  dict_get var_eqb (init_domains cw) v =
  if var_in v (variables cw) then Some (words cw) else None.
Proof.
  unfold init_domains, var_in.
  induction (variables cw) as [|k l IH]; simpl; auto.
  rewrite IH. destruct (var_eqb_spec k v), (var_eqb_spec v k); simpl;
    congruence.
Qed.

Lemma init_domains_keys cw : dict_keys (init_domains cw) = variables cw.
Proof.
  unfold init_domains, dict_keys. rewrite map_map. simpl. apply map_id.
Qed.

Lemma init_domains_store cw :
  wf_crossword cw = true -> nodupb String.eqb (words cw) = true ->
  store_for cw (init_domains cw) = true.
Proof.
  intros W NW. unfold store_for, store_ok.
  rewrite init_domains_keys.
  assert (NV : nodupb var_eqb (variables cw) = true).
  { unfold wf_crossword in W. rewrite !andb_true_iff in W. tauto. }
  rewrite NV. simpl.
  assert (R : forallb (fun v => var_in v (variables cw)) (variables cw) = true).
  { apply forallb_forall. intros v I. apply var_in_In; exact I. }
  rewrite R, andb_true_r.
  unfold init_domains. clear -NW.
  induction (variables cw) as [|k l IH]; simpl; auto.
  rewrite NW. simpl. exact IH.
Qed.

(** X9.  [__init__] followed by [solve]: a freshly built creator, whose
    every domain is a copy of the word list, solves its puzzle.  [solve]
    returns without fault; an assignment it returns is complete, consistent
    and made of words of the word list; [None] means that no complete
    consistent assignment of listed words to the variables exists. *)
Theorem solve_fresh_creator (cw : Crossword) :
  wf_crossword cw = true ->
  nodupb String.eqb (words cw) = true ->
  dict_keys (init_domains cw) = variables cw
  /\ (forall v, In v (variables cw) -> dom (init_domains cw) v = words cw)
  /\ exists r d2,
       solve cw (init_domains cw) = Ok (r, d2)
       /\ match r with
          | Some res =>
              complete cw res /\ consistent_assignment cw res
              /\ forall v w, dict_get var_eqb res v = Some w ->
                             In v (variables cw) /\ In w (words cw)
          | None =>
              forall s,
                (forall v w, dict_get var_eqb s v = Some w ->
                             In v (variables cw) /\ In w (words cw)) ->
                complete cw s -> consistent_assignment cw s -> False
          end.
Proof.
  intros W NW.
  assert (D : forall v w, In w (dom (init_domains cw) v) <->
                          In v (variables cw) /\ In w (words cw)).
  { intros v w. unfold dom. rewrite init_domains_get.
    destruct (var_in v (variables cw)) eqn:E.
    - apply var_in_In in E. tauto.
    - split; [intros []|]. intros [I _]. apply var_in_In in I. congruence. }
  split; [apply init_domains_keys|]. split.
  { intros v I. unfold dom. rewrite init_domains_get.
    apply var_in_In in I. rewrite I. reflexivity. }
  destruct (solve_outcome cw (init_domains cw) W (init_domains_store cw W NW))
    as [r [d2 [H R]]].
  exists r, d2. split; auto.
  destruct r as [res|].
  - destruct R as [C [K Dr]]. split; auto. split; auto.
    intros v w G. apply D, Dr, G.
  - intros s Hs. apply R. intros v w G. apply D, Hs, G.
Qed.

(** ** assignment_complete *)

(** X10.  [assignment_complete] only compares sizes, and on a partial
    assignment over the variables of the store that is enough: it answers
    [True] exactly when every variable of the store has an entry, and it
    leaves the store alone. *)
Theorem assignment_complete_counts (d : domains) (a : assignment) :
  store_ok d = true ->
  partial_assignment d a = true ->
  assignment_complete a d
  = Ok (forallb (fun v => dict_mem var_eqb a v) (dict_keys d), d).
Proof.
  intros SO PA. unfold assignment_complete.
  erewrite bind_ok; [|reflexivity]. unfold ret. f_equal. f_equal.
  destruct (forallb (fun v => dict_mem var_eqb a v) (dict_keys d)) eqn:F.
  - apply Nat.eqb_eq. rewrite forallb_forall in F.
    pose proof PA as PA'. unfold partial_assignment in PA'.
    apply andb_true_iff in PA'. destruct PA' as [NDa Inc].
    apply (nodupb_NoDup _ var_eqb_spec) in NDa.
    rewrite forallb_forall in Inc.
    pose proof (store_ok_keys d SO) as NDd.
    assert (I1 : incl (dict_keys a) (dict_keys d))
      by (intros v I; apply var_in_In, Inc, I).
    assert (I2 : incl (dict_keys d) (dict_keys a))
      by (intros v I; apply (dict_mem_in _ var_eqb_spec), F, I).
    pose proof (NoDup_incl_length NDa I1) as Q1.
    pose proof (NoDup_incl_length NDd I2) as Q2.
    unfold dict_keys in Q1, Q2. rewrite !length_map in Q1, Q2. lia.
  - apply Nat.eqb_neq.
    assert (E : exists x, In x (dict_keys d) /\ ~ In x (dict_keys a)).
    { clear SO PA. induction (dict_keys d) as [|k l IH]; simpl in F;
        [discriminate|].
      apply andb_false_iff in F. destruct F as [F|F].
      - exists k. split; [left; reflexivity|].
        apply (dict_mem_false _ var_eqb_spec); exact F.
      - destruct (IH F) as [x [I N]]. exists x. split; auto. right; exact I. }
    destruct E as [x [Ix Nx]].
    pose proof (partial_assignment_short d a x SO PA Ix Nx). lia.
Qed.

(** ** revise needs node consistency *)

Lemma get_out_of_range (w : string) : forall k,
  String.length w <= k -> String.get k w = None.
Proof.
  induction w as [|c w IH]; simpl; intros k H; auto.
  destruct k; [lia|]. apply IH. lia.
Qed.

Lemma revise_inner_outcomes ox oy xw ys :
  (exists b, revise_inner ox oy xw ys = Ok b)
  \/ revise_inner ox oy xw ys = Raise IndexError.
Proof.
  unfold revise_inner, char_at. generalize false.
  destruct (String.get ox xw) as [cx|].
  - induction ys as [|yw ys IH]; simpl; intros acc; eauto.
    destruct (String.get oy yw); simpl; auto.
  - destruct ys; simpl; eauto.
Qed.

Lemma revise_scan_short ox oy y d yw ys w :
  dict_get var_eqb d y = Some (yw :: ys) ->
  String.length w <= ox ->
  forall xs st, In w xs ->
    revise_scan ox oy y xs st d = Raise IndexError.
Proof.
  intros Gy Lw. unfold revise_scan.
  induction xs as [|xw xs IH]; simpl; intros st I; [destruct I|].
  unfold bind at 1. unfold bind at 1.
  rewrite (domain_of_ok y d _ Gy).
  destruct (String.eqb_spec xw w) as [->|N].
  - unfold bind at 1. unfold lift, revise_inner. simpl.
    unfold char_at. rewrite (get_out_of_range w ox Lw). reflexivity.
  - destruct I as [I|I]; [congruence|].
    unfold bind at 1.
    destruct (revise_inner_outcomes ox oy xw (yw :: ys)) as [[b E]|E];
      rewrite E; simpl; auto.
Qed.

(** X11.  [revise] relies on node consistency.  If the pair overlaps,
    [domain[y]] is not empty and [domain[x]] holds a word too short to
    have a letter at the overlap offset, [revise(x, y)] raises
    [IndexError] and removes nothing. *)
Theorem revise_short_word_faults (cw : Crossword) (x y : Var) (d : domains)
        (ox oy : nat) (xs ys : list word) (yw w : word) :
  overlaps cw x y = Some (ox, oy) ->
  dict_get var_eqb d x = Some xs ->
  dict_get var_eqb d y = Some (yw :: ys) ->
  In w xs ->
  String.length w <= ox ->
  revise cw x y d = Raise IndexError.
Proof.
  intros E Gx Gy I L. unfold revise. rewrite E.
  unfold bind at 1. rewrite (domain_of_ok x d xs Gx).
  unfold bind at 1.
  pose proof (revise_scan_short ox oy y d yw ys w Gy L xs (false, []) I) as R.
  unfold revise_scan in R. rewrite R. reflexivity.
Qed.

(** ** The worklist loop stops *)

Lemma ac3_loop_more_fuel cw : forall fuel arc_list d,
  ac3_loop cw fuel arc_list d <> OutOfFuel ->
  forall fuel', fuel <= fuel' ->
    ac3_loop cw fuel' arc_list d = ac3_loop cw fuel arc_list d.
Proof.
  induction fuel as [|fuel IH]; intros [|a rest] d H fuel' L.
  - destruct fuel'; reflexivity.
  - simpl in H. congruence.
  - destruct fuel'; reflexivity.
  - destruct fuel' as [|fuel']; [lia|].
    simpl in *. unfold bind in *.
    destruct (ac3_step cw a rest d) as [[[al|] d1]| |]; auto.
    apply IH; [exact H|lia].
Qed.

(** X12.  The worklist loop of [ac3] stops, whatever the arcs and the
    store: it takes at most [len(arcs) + (1 + max degree) * (number of
    candidates in all domains)] turns.  Allowing more turns changes
    nothing. *)
Theorem ac3_loop_bounded (cw : Crossword) (arc_list : list arc)
        (d : domains) (fuel : nat) :
  ac3_budget cw arc_list d <= fuel ->
  ac3_loop cw fuel arc_list d <> OutOfFuel
  /\ ac3_loop cw fuel arc_list d
     = ac3_loop cw (ac3_budget cw arc_list d) arc_list d.
Proof.
  intros L. split.
  - apply ac3_loop_terminates; exact L.
  - apply ac3_loop_more_fuel; auto.
    apply ac3_loop_terminates. apply le_n.
Qed.

(** X13.  On a node-consistent store with one domain per variable, [ac3]
    started from all arcs returns [True] or [False] without fault, and the
    store it leaves is again node-consistent, has the same variables and
    only lost words. *)
Theorem ac3_returns_on_solver_store (cw : Crossword) (d : domains) :
  wf_crossword cw = true ->
  store_for cw d = true ->
  node_consistent d = true ->
  exists b d',
    ac3 cw None d = Ok (b, d')
    /\ store_for cw d' = true /\ node_consistent d' = true
    /\ dict_keys d' = dict_keys d
    /\ forall v w, In w (dom d' v) -> In w (dom d v).
Proof.
  intros W SF NC.
  destruct (ac3_returns cw d W (conj SF NC)) as [b [d' [H [SF' NC']]]].
  exists b, d'. split; auto. split; auto. split; auto.
  apply (shrinks_ac3 cw None d b d' H).
Qed.

(** ** letter_grid *)

Lemma list_set_inv {A} (l : list A) : forall n x l',
  list_set l n x = Ok l' ->
  n < List.length l /\ List.length l' = List.length l
  /\ forall m, nth_error l' m = if m =? n then Some x else nth_error l m.
Proof.
  induction l as [|a l IH]; intros n x l' H; [destruct n; discriminate|].
  destruct n as [|n]; simpl in H.
  - inversion H; subst. simpl. split; [lia|]. split; auto.
    intros [|m]; reflexivity.
  - apply obind_inv in H. destruct H as [l1 [H1 H2]].
    inversion H2; subst. apply IH in H1. destruct H1 as [L [E N]].
    simpl. split; [lia|]. split; [lia|].
    intros [|m]; simpl; auto.
Qed.

Lemma list_set_total {A} (l : list A) : forall n x,
  n < List.length l -> exists l', list_set l n x = Ok l'.
Proof.
  induction l as [|a l IH]; simpl; intros n x L; [lia|].
  destruct n as [|n]; eauto.
  destruct (IH n x) as [l' E]; [lia|]. rewrite E. simpl. eauto.
Qed.

Lemma list_set_fault {A} (l : list A) : forall n x,
  List.length l <= n -> list_set l n x = Raise IndexError.
Proof.
  induction l as [|a l IH]; simpl; intros n x L; [destruct n; reflexivity|].
  destruct n as [|n]; [lia|]. rewrite IH by lia. reflexivity.
Qed.

Lemma grid_shape_row h w g i row :
  grid_shape h w g -> nth_error g i = Some row -> List.length row = w.
Proof.
  intros [_ F] N. rewrite Forall_forall in F. apply F.
  apply (nth_error_In _ _ N).
Qed.

Lemma grid_set_ok h w g i j c :
  grid_shape h w g -> i < h -> j < w ->
  exists g',
    grid_set g i j c = Ok g' /\ grid_shape h w g'
    /\ forall i' j', grid_get g' i' j' =
                     if (i =? i') && (j =? j') then Some c
                     else grid_get g i' j'.
Proof.
  intros S Li Lj. pose proof S as [Lg F].
  unfold grid_set, list_item.
  destruct (nth_error g i) as [row|] eqn:N.
  2:{ apply nth_error_None in N. lia. }
  pose proof (grid_shape_row h w g i row S N) as Lr. simpl.
  destruct (list_set_total row j (Some c)) as [row' Er]; [lia|].
  rewrite Er. simpl.
  destruct (list_set_total g i row') as [g' Eg]; [lia|].
  exists g'. split; auto.
  apply list_set_inv in Er. destruct Er as [_ [Lr' Nr]].
  apply list_set_inv in Eg. destruct Eg as [_ [Lg' Ng]].
  split.
  - split; [lia|]. apply Forall_forall. intros r I.
    apply In_nth_error in I. destruct I as [m Im]. rewrite Ng in Im.
    destruct (m =? i).
    + inversion Im; subst. lia.
    + apply (grid_shape_row h w g m r S Im).
  - intros i' j'. unfold grid_get. rewrite Ng.
    rewrite (Nat.eqb_sym i i'). destruct (Nat.eqb_spec i' i) as [->|Ni]; simpl.
    + rewrite Nr, N. rewrite (Nat.eqb_sym j j').
      destruct (j' =? j); reflexivity.
    + reflexivity.
Qed.

Lemma grid_set_fault h w g i j c :
  grid_shape h w g -> (i <? h) && (j <? w) = false ->
  grid_set g i j c = Raise IndexError.
Proof.
  intros S B. pose proof S as [Lg F].
  unfold grid_set, list_item.
  destruct (nth_error g i) as [row|] eqn:N; [|reflexivity].
  pose proof (grid_shape_row h w g i row S N) as Lr. simpl.
  assert (Li : i < h).
  { rewrite <- Lg. apply nth_error_Some. congruence. }
  apply andb_false_iff in B. destruct B as [B|B];
    apply Nat.ltb_ge in B; [lia|].
  rewrite list_set_fault by lia. reflexivity.
Qed.

Lemma apply_writes_run h w : forall ws g,
  grid_shape h w g ->
  if writes_inside h w ws
  then exists g',
         apply_writes ws g = Ok g' /\ grid_shape h w g'
         /\ forall i j, grid_get g' i j
                        = last_write ws (grid_get g i j) i j
  else apply_writes ws g = Raise IndexError.
Proof.
  unfold apply_writes, last_write.
  induction ws as [|[[i j] c] ws IH]; simpl; intros g S.
  - exists g. auto.
  - destruct ((i <? h) && (j <? w)) eqn:B; simpl.
    + apply andb_true_iff in B. destruct B as [Bi Bj].
      apply Nat.ltb_lt in Bi, Bj.
      destruct (grid_set_ok h w g i j c S Bi Bj) as [g1 [E [S1 G1]]].
      rewrite E. simpl. specialize (IH g1 S1).
      destruct (writes_inside h w ws); auto.
      destruct IH as [g' [E' [S' G']]]. exists g'. split; auto. split; auto.
      intros i' j'. rewrite G', G1. reflexivity.
    + rewrite (grid_set_fault h w g i j c S B). reflexivity.
Qed.

Lemma apply_writes_app ws1 : forall ws2 g,
  apply_writes (ws1 ++ ws2) g
  = (g1 <~ apply_writes ws1 g ;; apply_writes ws2 g1).
Proof.
  unfold apply_writes.
  induction ws1 as [|e ws1 IH]; simpl; intros ws2 g; auto.
  destruct (grid_set g (fst (fst e)) (snd (fst e)) (snd e)); simpl; auto.
Qed.

Lemma write_word_writes v w g :
  write_word v w g = apply_writes (word_writes v w) g.
Proof.
  unfold write_word, word_writes.
  assert (H : forall k, In k (seq 0 (String.length w)) ->
                        k < String.length w)
    by (intros k I; apply in_seq in I; lia).
  revert g H. generalize (seq 0 (String.length w)) as l.
  unfold apply_writes.
  induction l as [|k l IH]; intros g H; [reflexivity|].
  destruct (get_in_range w k (H k (or_introl eq_refl))) as [c E].
  assert (Ec : char_at w k = Ok c) by (unfold char_at; rewrite E; reflexivity).
  cbn [ofold flat_map]. rewrite E, Ec. cbn [obind app ofold fst snd].
  destruct (grid_set g (fst (cell v k)) (snd (cell v k)) c); cbn [obind]; auto.
  apply IH. intros k' I. apply H. right; exact I.
Qed.

Lemma letter_grid_writes h w a :
  letter_grid h w a = apply_writes (writes a) (repeat (repeat None w) h).
Proof.
  unfold letter_grid, writes. generalize (repeat (repeat (@None ascii) w) h).
  induction a as [|[v wd] a IH]; simpl; intros g; auto.
  rewrite apply_writes_app, write_word_writes.
  destruct (apply_writes (word_writes v wd) g); simpl; auto.
Qed.

Lemma blank_grid_shape h w : grid_shape h w (repeat (repeat None w) h).
Proof.
  split; [apply repeat_length|].
  apply Forall_forall. intros row I. apply repeat_spec in I. subst.
  apply repeat_length.
Qed.

Lemma blank_grid_get h w i j :
  grid_get (repeat (repeat None w) h) i j = None.
Proof.
  unfold grid_get.
  destruct (nth_error (repeat (repeat (@None ascii) w) h) i) as [row|] eqn:N;
    auto.
  apply nth_error_In, repeat_spec in N. subst row.
  destruct (nth_error (repeat (@None ascii) w) j) as [c|] eqn:M; auto.
  apply nth_error_In, repeat_spec in M. exact M.
Qed.

Lemma letter_grid_run h w a :
  if writes_inside h w (writes a)
  then exists g,
         letter_grid h w a = Ok g /\ grid_shape h w g
         /\ forall i j, grid_get g i j = last_write (writes a) None i j
  else letter_grid h w a = Raise IndexError.
Proof.
  rewrite letter_grid_writes.
  pose proof (apply_writes_run h w (writes a) _ (blank_grid_shape h w)) as R.
  destruct (writes_inside h w (writes a)); auto.
  destruct R as [g [E [S G]]]. exists g. split; auto. split; auto.
  intros i j. rewrite G, blank_grid_get. reflexivity.
Qed.

(** X14.  [letter_grid] has two outcomes.  If every letter of every
    assigned word falls inside the grid it returns a grid of [height] rows
    of [width] cells in which each cell shows the letter written there
    last, and nothing where no word passes; if some letter falls outside,
    it raises [IndexError]. *)
Theorem letter_grid_outcomes (height width : nat) (a : assignment) :
  match letter_grid height width a with
  | Ok g =>
      writes_inside height width (writes a) = true
      /\ grid_shape height width g
      /\ forall i j, grid_get g i j = last_write (writes a) None i j
  | Raise e => e = IndexError
               /\ writes_inside height width (writes a) = false
  | OutOfFuel => False
  end.
Proof.
  pose proof (letter_grid_run height width a) as R.
  destruct (writes_inside height width (writes a)).
  - destruct R as [g [E [S G]]]. rewrite E. auto.
  - rewrite R. auto.
Qed.

Lemma last_write_some ws i j c : forall acc,
  In ((i, j), c) ws ->
  exists c', last_write ws acc i j = Some c' /\ In ((i, j), c') ws.
Proof.
  unfold last_write.
  assert (Keep : forall (ws : list (nat * nat * ascii)) (c0 : ascii),
            exists c', fold_left (fun acc e =>
                         if (fst (fst e) =? i) && (snd (fst e) =? j)
                         then Some (snd e) else acc) ws (Some c0) = Some c'
                       /\ (c' = c0 \/ In ((i, j), c') ws)).
  { clear. induction ws as [|[[i' j'] c'] ws IH]; simpl; intros c0; eauto.
    destruct (Nat.eqb_spec i' i) as [->|Ni]; simpl.
    - destruct (Nat.eqb_spec j' j) as [->|Nj].
      + destruct (IH c') as [c2 [E [->|I]]]; eauto.
      + destruct (IH c0) as [c2 [E [->|I]]]; eauto.
    - destruct (IH c0) as [c2 [E [->|I]]]; eauto. }
  induction ws as [|[[i' j'] c'] ws IH]; simpl; intros acc I; [destruct I|].
  destruct I as [I|I].
  - inversion I; subst. rewrite !Nat.eqb_refl. simpl.
    destruct (Keep ws c) as [c2 [E [->|J]]]; eauto.
  - destruct (IH (if (i' =? i) && (j' =? j) then Some c' else acc) I)
      as [c2 [E J]]. eauto.
Qed.

Lemma writes_agree_inv ws i j c1 c2 :
  writes_agree ws = true ->
  In ((i, j), c1) ws -> In ((i, j), c2) ws -> c1 = c2.
Proof.
  unfold writes_agree. rewrite forallb_forall. intros H I1 I2.
  apply H in I1. rewrite forallb_forall in I1. apply I1 in I2.
  simpl in I2. rewrite !Nat.eqb_refl in I2. simpl in I2.
  apply Ascii.eqb_eq; exact I2.
Qed.

Lemma in_writes (a : assignment) v wd k c :
  In (v, wd) a -> String.get k wd = Some c -> In (cell v k, c) (writes a).
Proof.
  intros I G. unfold writes. apply in_flat_map. exists (v, wd).
  split; auto. simpl. unfold word_writes. apply in_flat_map. exists k.
  split.
  - apply in_seq. split; [lia|]. simpl.
    destruct (Nat.lt_ge_cases k (String.length wd)) as [L|L]; auto.
    rewrite (get_out_of_range wd k L) in G. discriminate.
  - rewrite G. left. reflexivity.
Qed.

(** X15.  When the words of an assignment agree wherever two of them share
    a cell (as the words of a consistent assignment do), the grid
    [letter_grid] returns shows every letter of every assigned word at its
    cell. *)
Theorem letter_grid_shows_words (height width : nat) (a : assignment)
        (g : grid) :
  letter_grid height width a = Ok g ->
  writes_agree (writes a) = true ->
  forall v wd k c,
    In (v, wd) a -> String.get k wd = Some c ->
    grid_get g (fst (cell v k)) (snd (cell v k)) = Some c.
Proof.
  intros H A v wd k c I G.
  pose proof (letter_grid_run height width a) as R.
  destruct (writes_inside height width (writes a)); [|congruence].
  destruct R as [g' [E [_ Gg]]]. rewrite E in H. inversion H; subst g'.
  rewrite Gg.
  pose proof (in_writes a v wd k c I G) as Iw.
  destruct (cell v k) as [i j] eqn:Ec. simpl.
  destruct (last_write_some (writes a) i j c None Iw) as [c' [El Il]].
  rewrite El. f_equal.
  apply (writes_agree_inv (writes a) i j c' c A Il Iw).
Qed.

(** ** ac3 on a store that is already arc consistent *)

Lemma revise_unchanged cw x y d d' :
  revise cw x y d = Ok (false, d') ->
  d' = d
  /\ forall ox oy w, overlaps cw x y = Some (ox, oy) -> In w (dom d x) ->
                     supported ox oy (dom d y) w = true.
Proof.
  intros H. apply revise_inv in H.
  destruct (overlaps cw x y) as [[ox oy]|].
  - destruct H as [xs [G [-> [C _]]]].
    symmetry in C. apply negb_false_iff in C.
    split.
    + rewrite forallb_filter_id by exact C.
      apply (dict_set_same _ var_eqb_spec); exact G.
    + intros ox' oy' w E I. inversion E; subst ox' oy'.
      unfold dom in I. rewrite G in I.
      rewrite forallb_forall in C. apply C; exact I.
  - destruct H as [_ ->]. split; auto. discriminate.
Qed.

Lemma ac3_loop_size cw : forall fuel arc_list d b d',
  ac3_loop cw fuel arc_list d = Ok (b, d') ->
  total_size d' <= total_size d.
Proof.
  induction fuel as [|fuel IH]; intros [|a rest] d b d' H; simpl in H;
    try discriminate.
  - inversion H; subst; lia.
  - inversion H; subst; lia.
  - apply bind_inv in H. destruct H as [r [d1 [St H]]].
    apply ac3_step_inv in St. destruct St as [c [R _]].
    apply revise_measure in R. destruct R as [_ [T _]].
    destruct r as [al|].
    + apply IH in H. destruct c; lia.
    + inversion H; subst. destruct c; lia.
Qed.

Lemma ac3_loop_no_change cw : forall fuel arc_list d b d',
  ac3_loop cw fuel arc_list d = Ok (b, d') ->
  total_size d <= total_size d' ->
  d' = d /\ b = true
  /\ forall a, In a arc_list ->
               revise cw (fst a) (snd a) d = Ok (false, d).
Proof.
  induction fuel as [|fuel IH]; intros [|a rest] d b d' H L; simpl in H;
    try discriminate.
  - inversion H; subst. split; auto. split; auto. intros a [].
  - inversion H; subst. split; auto. split; auto. intros a [].
  - apply bind_inv in H. destruct H as [r [d1 [St H]]].
    apply ac3_step_inv in St. destruct St as [c [R [Hf Ht]]].
    pose proof (revise_measure _ _ _ _ _ _ R) as [_ [T _]].
    assert (Ld : total_size d' <= total_size d1).
    { destruct r as [al|].
      - apply (ac3_loop_size cw _ _ _ _ _ H).
      - inversion H; subst; lia. }
    destruct c; [lia|].
    destruct (revise_unchanged cw _ _ _ _ R) as [-> _].
    rewrite (Hf eq_refl) in H.
    destruct (IH _ _ _ _ H L) as [-> [-> Hall]].
    split; auto. split; auto.
    intros a' [<-|I]; auto.
Qed.

Lemma ac3_loop_consistent cw d :
  wf_crossword cw = true -> solver_store cw d ->
  arc_consistent_store cw d ->
  forall arc_list fuel,
    arcs_ok cw arc_list -> List.length arc_list <= fuel ->
    ac3_loop cw fuel arc_list d = Ok (true, d).
Proof.
  intros W St AC. pose proof St as [SF NC].
  destruct (store_for_inv cw d SF) as [SO [_ K]].
  induction arc_list as [|a rest IH]; intros fuel Ha L.
  - destruct fuel; reflexivity.
  - destruct fuel as [|fuel]; [simpl in L; lia|].
    destruct (Ha a (or_introl eq_refl)) as [Ix Iy].
    destruct (revise_returns cw (fst a) (snd a) d W SO NC) as [c [d1 R]];
      [apply K; exact Ix|apply K; exact Iy|].
    assert (E : c = false /\ d1 = d).
    { pose proof (revise_inv _ _ _ _ _ _ R) as I.
      destruct (overlaps cw (fst a) (snd a)) as [[ox oy]|] eqn:O.
      - destruct I as [xs [G [-> [-> _]]]].
        assert (F : forallb (supported ox oy (dom d (snd a))) xs = true).
        { apply forallb_forall. intros w I. apply (AC _ _ _ _ _ O).
          unfold dom. rewrite G. exact I. }
        rewrite F. split; auto.
        rewrite forallb_filter_id by exact F.
        apply (dict_set_same _ var_eqb_spec); exact G.
      - tauto. }
    destruct E as [-> ->].
    simpl. erewrite bind_ok.
    2:{ unfold ac3_step. erewrite bind_ok; [|exact R]. reflexivity. }
    apply IH.
    + intros b I. apply Ha. right; exact I.
    + simpl in L. lia.
Qed.

(** X16.  A store of the solver is a fixed point of [ac3] exactly when it
    is arc consistent: on a node-consistent store with one domain per
    variable, [ac3] started from all arcs returns [True] with the store
    unchanged if and only if every word left for a variable has a
    supporting word left for each overlapping variable. *)
Theorem ac3_fixed_point (cw : Crossword) (d : domains) :
  wf_crossword cw = true ->
  store_for cw d = true ->
  node_consistent d = true ->
  (ac3 cw None d = Ok (true, d) <-> arc_consistent_store cw d).
Proof.
  intros W SF NC. destruct (store_for_inv cw d SF) as [_ [_ K]].
  destruct (all_arcs_ok cw d W SF) as [al [Ea Ha]].
  split.
  - intros H x y ox oy w O I.
    unfold ac3 in H. rewrite (bind_ok _ _ _ _ _ Ea) in H.
    destruct (ac3_loop_no_change cw _ _ _ _ _ H (le_n _)) as [_ [_ Hall]].
    destruct (overlaps_wf _ _ _ _ _ W O) as [_ [Ix _]].
    assert (Ia : In (x, y) al).
    { unfold all_arcs in Ea. inversion Ea; subst al.
      apply in_flat_map. exists x. split; [apply K; exact Ix|].
      apply in_map. apply (neighbors_complete cw x y ox oy W O). }
    destruct (revise_unchanged cw x y d d (Hall (x, y) Ia)) as [_ S].
    apply (S ox oy w O I).
  - intros AC. unfold ac3. rewrite (bind_ok _ _ _ _ _ Ea).
    apply ac3_loop_consistent; auto.
    + split; auto.
    + unfold ac3_budget. lia.
Qed.

(* ------------------------------------------------------------------ *)
(** ** The further properties on concrete grids *)

Lemma solve_correct_witness :
  exists r d2,
    solve GridRuns.four_words (init_domains GridRuns.four_words) = Ok (r, d2)
    /\ match r with
       | Some res =>
           complete GridRuns.four_words res
           /\ consistent_assignment GridRuns.four_words res
           /\ drawn_from (init_domains GridRuns.four_words) res
       | None =>
           forall s, drawn_from (init_domains GridRuns.four_words) s ->
                     complete GridRuns.four_words s ->
                     consistent_assignment GridRuns.four_words s -> False
       end.
Proof.
  apply (solve_correct GridRuns.four_words (init_domains GridRuns.four_words)).
  - vm_compute; reflexivity.
  - vm_compute; reflexivity.
Defined.

Lemma backtrack_complete_witness :
  exists res,
    backtrack GridRuns.four_words 3 [] (init_domains GridRuns.four_words)
    = Ok ((res, Some res), init_domains GridRuns.four_words)
    /\ complete GridRuns.four_words res
    /\ consistent_assignment GridRuns.four_words res
    /\ drawn_from (init_domains GridRuns.four_words) res.
Proof.
  apply (backtrack_complete GridRuns.four_words
           (init_domains GridRuns.four_words) 3 GridRuns.four_words_solution).
  - vm_compute; reflexivity.
  - vm_compute; reflexivity.
  - vm_compute; reflexivity.
  - simpl; lia.
  - apply drawn_fromb_ok; vm_compute; reflexivity.
  - apply completeb_ok; vm_compute; reflexivity.
  - apply consistent_sound.
    + vm_compute; reflexivity.
    + apply (nodupb_NoDup _ var_eqb_spec); vm_compute; reflexivity.
    + vm_compute; reflexivity.
Defined.

Lemma ac3_keeps_solutions_witness :
  drawn_from (GridRuns.after_ac3 GridRuns.four_words)
             GridRuns.four_words_solution
  /\ true = true.
Proof.
  apply (ac3_keeps_solutions GridRuns.four_words None
           (init_domains GridRuns.four_words)
           (GridRuns.after_ac3 GridRuns.four_words) true
           GridRuns.four_words_solution).
  - vm_compute; reflexivity.
  - vm_compute; reflexivity.
  - vm_compute; reflexivity.
  - apply drawn_fromb_ok; vm_compute; reflexivity.
  - apply completeb_ok; vm_compute; reflexivity.
  - apply consistent_sound.
    + vm_compute; reflexivity.
    + apply (nodupb_NoDup _ var_eqb_spec); vm_compute; reflexivity.
    + vm_compute; reflexivity.
Defined.

Lemma consistent_decides_witness :
  consistent GridRuns.four_words GridRuns.four_words_solution = Ok true
  <-> consistent_assignment GridRuns.four_words GridRuns.four_words_solution.
Proof.
  apply (consistent_decides GridRuns.four_words GridRuns.four_words_solution).
  - vm_compute; reflexivity.
  - vm_compute; reflexivity.
  - vm_compute; reflexivity.
Defined.

Lemma select_mrv_then_degree_witness :
  In Grid.across (dict_keys GridRuns.two_words_left)
  /\ dict_mem var_eqb ([] : assignment) Grid.across = false
  /\ (forall x, In x (dict_keys GridRuns.two_words_left) ->
                dict_mem var_eqb ([] : assignment) x = false ->
                List.length (dom GridRuns.two_words_left Grid.across)
                <= List.length (dom GridRuns.two_words_left x))
  /\ (forall x, In x (dict_keys GridRuns.two_words_left) ->
                dict_mem var_eqb ([] : assignment) x = false ->
                List.length (dom GridRuns.two_words_left x)
                = List.length (dom GridRuns.two_words_left Grid.across) ->
                List.length (neighbors GridRuns.two_words x)
                <= List.length (neighbors GridRuns.two_words Grid.across)).
Proof.
  apply (select_mrv_then_degree GridRuns.two_words ([] : assignment)
           GridRuns.two_words_left GridRuns.two_words_left Grid.across).
  vm_compute; reflexivity.
Defined.

Lemma order_least_constraining_first_witness :
  Permutation ["ABC"%string; "AXY"%string; "CDE"%string]
              (dom (init_domains
                      (Grid.puzzle ["CDE"%string; "ABC"%string; "AXY"%string]))
                   Grid.down_left)
  /\ StronglySorted
       (fun w1 w2 =>
          conflicts (Grid.puzzle ["CDE"%string; "ABC"%string; "AXY"%string])
                    (init_domains
                       (Grid.puzzle ["CDE"%string; "ABC"%string; "AXY"%string]))
                    [] Grid.down_left w1
          <= conflicts (Grid.puzzle ["CDE"%string; "ABC"%string; "AXY"%string])
                       (init_domains
                          (Grid.puzzle
                             ["CDE"%string; "ABC"%string; "AXY"%string]))
                       [] Grid.down_left w2)
       ["ABC"%string; "AXY"%string; "CDE"%string].
Proof.
  apply (order_least_constraining_first
           (Grid.puzzle ["CDE"%string; "ABC"%string; "AXY"%string])
           Grid.down_left []
           (init_domains
              (Grid.puzzle ["CDE"%string; "ABC"%string; "AXY"%string]))
           (init_domains
              (Grid.puzzle ["CDE"%string; "ABC"%string; "AXY"%string]))
           ["ABC"%string; "AXY"%string; "CDE"%string]).
  - vm_compute; reflexivity.
  - vm_compute; reflexivity.
Defined.

Lemma backtrack_restores_assignment_witness :
  GridRuns.four_words_solution = GridRuns.four_words_solution
  /\ exists ext, GridRuns.four_words_solution = [] ++ ext.
Proof.
  apply (backtrack_restores_assignment GridRuns.four_words 3 []
           GridRuns.four_words_solution (Some GridRuns.four_words_solution)
           (init_domains GridRuns.four_words)
           (init_domains GridRuns.four_words)).
  vm_compute; reflexivity.
Defined.

Lemma solve_fresh_creator_witness :
  dict_keys (init_domains GridRuns.four_words) = variables GridRuns.four_words
  /\ (forall v, In v (variables GridRuns.four_words) ->
                dom (init_domains GridRuns.four_words) v
                = words GridRuns.four_words)
  /\ exists r d2,
       solve GridRuns.four_words (init_domains GridRuns.four_words)
       = Ok (r, d2)
       /\ match r with
          | Some res =>
              complete GridRuns.four_words res
              /\ consistent_assignment GridRuns.four_words res
              /\ forall v w, dict_get var_eqb res v = Some w ->
                             In v (variables GridRuns.four_words)
                             /\ In w (words GridRuns.four_words)
          | None =>
              forall s,
                (forall v w, dict_get var_eqb s v = Some w ->
                             In v (variables GridRuns.four_words)
                             /\ In w (words GridRuns.four_words)) ->
                complete GridRuns.four_words s ->
                consistent_assignment GridRuns.four_words s -> False
          end.
Proof.
  apply (solve_fresh_creator GridRuns.four_words).
  - vm_compute; reflexivity.
  - vm_compute; reflexivity.
Defined.

Lemma assignment_complete_counts_witness :
  assignment_complete [(Grid.across, "ABC"%string)]
                      (init_domains GridRuns.four_words)
  = Ok (forallb (fun v => dict_mem var_eqb [(Grid.across, "ABC"%string)] v)
                (dict_keys (init_domains GridRuns.four_words)),
        init_domains GridRuns.four_words).
Proof.
  apply (assignment_complete_counts (init_domains GridRuns.four_words)
           [(Grid.across, "ABC"%string)]).
  - vm_compute; reflexivity.
  - vm_compute; reflexivity.
Defined.

Lemma revise_short_word_faults_witness :
  revise (Grid.puzzle ["AB"%string; "ABC"%string]) Grid.across Grid.down_right
         (init_domains (Grid.puzzle ["AB"%string; "ABC"%string]))
  = Raise IndexError.
Proof.
  apply (revise_short_word_faults
           (Grid.puzzle ["AB"%string; "ABC"%string])
           Grid.across Grid.down_right
           (init_domains (Grid.puzzle ["AB"%string; "ABC"%string]))
           2 0 ["AB"%string; "ABC"%string] ["ABC"%string]
           "AB"%string "AB"%string).
  - vm_compute; reflexivity.
  - vm_compute; reflexivity.
  - vm_compute; reflexivity.
  - simpl; auto.
  - simpl; lia.
Defined.

Lemma ac3_loop_bounded_witness :
  ac3_loop GridRuns.two_words 100 [(Grid.across, Grid.down_right)]
           (init_domains GridRuns.two_words) <> OutOfFuel
  /\ ac3_loop GridRuns.two_words 100 [(Grid.across, Grid.down_right)]
              (init_domains GridRuns.two_words)
     = ac3_loop GridRuns.two_words
                (ac3_budget GridRuns.two_words
                            [(Grid.across, Grid.down_right)]
                            (init_domains GridRuns.two_words))
                [(Grid.across, Grid.down_right)]
                (init_domains GridRuns.two_words).
Proof.
  apply (ac3_loop_bounded GridRuns.two_words
           [(Grid.across, Grid.down_right)]
           (init_domains GridRuns.two_words) 100).
  vm_compute; lia.
Defined.

Lemma ac3_returns_on_solver_store_witness :
  exists b d',
    ac3 GridRuns.four_words None (init_domains GridRuns.four_words)
    = Ok (b, d')
    /\ store_for GridRuns.four_words d' = true
    /\ node_consistent d' = true
    /\ dict_keys d' = dict_keys (init_domains GridRuns.four_words)
    /\ forall v w, In w (dom d' v) ->
                   In w (dom (init_domains GridRuns.four_words) v).
Proof.
  apply (ac3_returns_on_solver_store GridRuns.four_words
           (init_domains GridRuns.four_words)).
  - vm_compute; reflexivity.
  - vm_compute; reflexivity.
  - vm_compute; reflexivity.
Defined.

Lemma letter_grid_shows_words_witness :
  grid_get [[Some "A"%char; Some "B"%char; Some "C"%char];
            [Some "X"%char; None; Some "D"%char];
            [Some "Y"%char; None; Some "E"%char]]
           (fst (cell Grid.down_right 1)) (snd (cell Grid.down_right 1))
  = Some "D"%char.
Proof.
  apply (letter_grid_shows_words 3 3 GridRuns.four_words_solution
           [[Some "A"%char; Some "B"%char; Some "C"%char];
            [Some "X"%char; None; Some "D"%char];
            [Some "Y"%char; None; Some "E"%char]])
    with (wd := "CDE"%string).
  - vm_compute; reflexivity.
  - vm_compute; reflexivity.
  - vm_compute; auto.
  - vm_compute; reflexivity.
Defined.

Lemma ac3_fixed_point_witness :
  ac3 GridRuns.four_words None (GridRuns.after_ac3 GridRuns.four_words)
  = Ok (true, GridRuns.after_ac3 GridRuns.four_words)
  <-> arc_consistent_store GridRuns.four_words
                           (GridRuns.after_ac3 GridRuns.four_words).
Proof.
  apply (ac3_fixed_point GridRuns.four_words
           (GridRuns.after_ac3 GridRuns.four_words)).
  - vm_compute; reflexivity.
  - vm_compute; reflexivity.
  - vm_compute; reflexivity.
Defined.
